(** * IFEM: Newmark time integration and LR B-spline recovery

    A shallow embedding of

    - [src/ASM/NewmarkMats.C]      (element matrices of a dynamic problem),
    - [src/SIM/NewmarkNLSIM.C]     (Newmark predictor/corrector driver),
    - [src/ASM/LR/ASMu3Drecovery.C] (projection and recovery on LR volumes),

    with the C++ [double] rendered as Rocq's primitive binary64 [float], so
    that every definition below evaluates on concrete input exactly as the
    compiled code does (no fused multiply-add is assumed). *)

From Stdlib Require Import Floats ZArith Bool Ascii Lia.
From stdpp Require Import base list gmap strings.

Set Default Proof Using "Type".
#[local] Set Warnings "-inexact-float".

(** ** Linear algebra containers ([utl::vector], [utl::matrix]) *)

Module LinAlg.

(** [RealArray] is [std::vector<double>]; [Vector] is [utl::vector<double>]. *)
Abbreviation RealArray := (list float).
Abbreviation Vector := (list float).
Abbreviation Vectors := (list (list float)).

(** Reading a [double] outside a container yields [0.0] in the model. *)
#[global] Instance float_inhabited : Inhabited float := populate 0%float.

(** Modelled from the spec: [utl::vector::operator*=] (MatVec/matrix.h is
    not part of the sources).  Every entry is multiplied by the scalar, as
    the scalings of section 4.5 require. *)
Definition vscale (c : float) (v : Vector) : Vector :=
  (fun x => x * c)%float <$> v.

(** Modelled from the spec: [utl::vector::add(X,alfa)], the BLAS [axpy]
    update [y(i) += alfa*X(i)] over the common index range. *)
Fixpoint vadd (X : Vector) (alfa : float) (y : Vector) : Vector :=
  match y, X with
  | yi :: y', xi :: X' => (yi + alfa * xi)%float :: vadd X' alfa y'
  | _, _ => y
  end.

(** Modelled from the spec: [utl::vector::fill(s)] overwrites every entry. *)
Definition vfill (s : float) (v : Vector) : Vector := (fun _ => s) <$> v.

(** [std::copy(src.begin(),src.end(),dst.begin())]: the entries of [src]
    overwrite the leading entries of [dst]; [dst] keeps its size.  (The
    C++ call has undefined behaviour when [src] is longer than [dst]; the
    model then drops the excess.) *)
Definition std_copy (src dst : Vector) : Vector :=
  take (length dst) src ++ drop (length src) dst.

(** [utl::matrix<double>]: dimensions and the column-major entry array. *)
Record Matrix := mkMatrix { rows : nat; cols : nat; elem : Vector }.

Definition emptyMatrix : Matrix := mkMatrix 0 0 [].

#[global] Instance Matrix_inhabited : Inhabited Matrix := populate emptyMatrix.

(** Modelled from the spec: [utl::matrix::multiply(c)] scales all entries. *)
Definition mmultiply (c : float) (N : Matrix) : Matrix :=
  mkMatrix (rows N) (cols N) (vscale c (elem N)).

(** Modelled from the spec: [utl::matrix::add(X,alfa)] adds [alfa*X]. *)
Definition madd (X : Matrix) (alfa : float) (N : Matrix) : Matrix :=
  mkMatrix (rows N) (cols N) (vadd (elem X) alfa (elem N)).

(** [Matrix M(r,c)]: an [r] by [c] matrix of zeros. *)
Definition mzero (r c : nat) : Matrix := mkMatrix r c (replicate (r * c) 0%float).

(** One-based, column-major entry access [M(r,c)], the update [M(r,c) += v]
    and the assignment [M(r,c) = v].  (An index outside the matrix is
    undefined behaviour in the C++ code; the model reads a zero and writes
    nothing there.) *)
Definition mindex (M : Matrix) (r c : nat) : nat := (r - 1) + rows M * (c - 1).

Definition mat_at (M : Matrix) (r c : nat) : float := elem M !!! mindex M r c.

Definition mat_add_at (r c : nat) (v : float) (M : Matrix) : Matrix :=
  mkMatrix (rows M) (cols M)
           (alter (fun a => (a + v)%float) (mindex M r c) (elem M)).

Definition mat_set_at (r c : nat) (v : float) (M : Matrix) : Matrix :=
  mkMatrix (rows M) (cols M) (<[mindex M r c := v]> (elem M)).

(** One-based access to a [utl::vector]: [B(i)] and [B(i) += v]. *)
Definition vec_at (B : Vector) (i : nat) : float := B !!! (i - 1).

Definition vec_add_at (i : nat) (v : float) (B : Vector) : Vector :=
  alter (fun a => (a + v)%float) (i - 1) B.

(** [SparseMatrix]: its dimensions and the stored entries by (row, column),
    one-based.  [A(i,j) += v] creates a zero entry on first access. *)
Record SparseMatrix := mkSparse {
  sp_rows : nat;
  sp_cols : nat;
  sp_elem : gmap (Z * Z) float
}.

(** A fresh matrix after [A.resize(r,c)]. *)
Definition sp_resize (r c : nat) : SparseMatrix := mkSparse r c ∅.

Definition sp_at (A : SparseMatrix) (i j : Z) : float :=
  default 0%float (sp_elem A !! (i, j)).

Definition sp_add_at (i j : Z) (v : float) (A : SparseMatrix) : SparseMatrix :=
  mkSparse (sp_rows A) (sp_cols A)
           (<[(i, j) := (sp_at A i j + v)%float]> (sp_elem A)).

Definition sp_set_at (i j : Z) (v : float) (A : SparseMatrix) : SparseMatrix :=
  mkSparse (sp_rows A) (sp_cols A) (<[(i, j) := v]> (sp_elem A)).

(** Modelled from the spec: the product [M * v] of [utl::matrix] with a
    vector, row by row. *)
Definition mat_vec (M : Matrix) (v : Vector) : Vector :=
  (fun r => foldl (fun acc c => (acc + mat_at M r c * vec_at v c)%float)
                  0.0%float (seq 1 (cols M)))
    <$> seq 1 (rows M).

(** [Matrix B2(M,true)]: the transposed copy of [M]. *)
Definition transposed (M : Matrix) : Matrix :=
  mkMatrix (cols M) (rows M)
           (j ← seq 1 (rows M); i ← seq 1 (cols M); [mat_at M j i]).

(** A C++ [for] loop over the items of [l] that updates a state. *)
Definition for_each {I S : Type} (l : list I) (body : I -> S -> S) (s : S) : S :=
  foldl (fun st i => body i st) s l.

(** A vector or matrix entry is a zero of the arithmetic ([+0.0] or [-0.0]). *)
Definition all_zero (v : Vector) : bool := forallb PrimFloat.is_zero v.

(** The entries of an array never decrease from one to the next. *)
Fixpoint nondecreasing (l : RealArray) : bool :=
  match l with
  | x :: (y :: _) as l' => (x <=? y)%float && nondecreasing l'
  | _ => true
  end.

(** A sparse matrix whose entries [A(i,j)] and [A(j,i)] are the same
    number for all indices. *)
Definition sp_symmetric (A : SparseMatrix) : Prop :=
  forall i j : Z, sp_at A i j = sp_at A j i.

(** A dense matrix that is square and whose entries [M(r,c)] and [M(c,r)]
    are the same number for all indices inside. *)
Definition mat_symmetric (M : Matrix) : Prop :=
  rows M = cols M
  /\ forall r c : nat, 1 <= r <= rows M -> 1 <= c <= rows M ->
                      mat_at M r c = mat_at M c r.

(** The updates [T(k) += v] of a list, applied in order to a table [t]
    with the update operation [add]. *)
Definition addAll {T X : Type} (add : X * X -> float -> T -> T)
  (ups : list (X * X * float)) (t : T) : T :=
  for_each ups (fun '(k, v) => add k v) t.

(** The updates of the double loop [for ii .. for jj ..
    T(nd ii, nd jj) += val ii jj] over the local numbers [l], in the order
    of the loop. *)
Definition pairUpdates {X : Type} (l : list nat) (nd : nat -> X)
  (val : nat -> nat -> float) : list (X * X * float) :=
  ii ← l; jj ← l; [((nd ii, nd jj), val ii jj)].

(** Entry access and update by an index pair. *)
Definition spGet (A : SparseMatrix) (k : Z * Z) : float := sp_at A k.1 k.2.

Definition spAdd (k : Z * Z) (v : float) (A : SparseMatrix) : SparseMatrix :=
  sp_add_at k.1 k.2 v A.

Definition matGet (M : Matrix) (k : nat * nat) : float := mat_at M k.1 k.2.

Definition matAdd (k : nat * nat) (v : float) (M : Matrix) : Matrix :=
  mat_add_at k.1 k.2 v M.

(** A dense matrix of [r] rows and [c] columns with all its entries
    stored, and the index pairs inside such a matrix. *)
Definition mat_shape (r c : nat) (M : Matrix) : Prop :=
  rows M = r /\ cols M = c /\ length (elem M) = r * c.

Definition inside (r c : nat) (k : nat * nat) : Prop :=
  1 <= k.1 <= r /\ 1 <= k.2 <= c.

End LinAlg.

Import LinAlg.

(** ** NewmarkMats.C *)

Module NewmarkMats.

(** The class [NewmarkMats] with the members of its base [ElmMats] that the
    two methods below touch: the element matrices [A] (Newton matrix, mass,
    stiffness), the right-hand sides [b] and the element solution vectors
    [vec]. *)
Record t := mk {
  A : list Matrix;
  b : Vectors;
  vec : Vectors;
  alpha1 : float;
  alpha2 : float;
  beta : float;
  gamma : float;
  alpha_m : float;
  alpha_f : float;
  slvDisp : bool;
  isPredictor : bool;
  h : float
}.

(** [NewmarkMats::NewmarkMats(a1,a2,b,c,generalizedAlpha)]; the containers
    of the base class start empty. *)
Definition NewmarkMats (a1 a2 b0 c : float) (generalizedAlpha : bool) : t :=
  if generalizedAlpha then
    let am := PrimFloat.abs b0 in
    let af := c in
    let alpha := (af - am)%float in
    mk [] [] [] a1 a2
       (0.25 * (1.0 - alpha) * (1.0 - alpha))%float
       (0.5 - alpha)%float
       am af (b0 <? 0.0)%float true 0.0%float
  else
    mk [] [] [] a1 a2
       (PrimFloat.abs b0) c
       1.0%float 1.0%float (b0 <? 0.0)%float true 0.0%float.

(** The element matrices are resized and filled, and the step size [h] is
    set, by the integrand between construction and use. *)
Definition withMatrices (A0 : list Matrix) (m : t) : t :=
  mk A0 (b m) (vec m) (alpha1 m) (alpha2 m) (beta m) (gamma m)
     (alpha_m m) (alpha_f m) (slvDisp m) (isPredictor m) (h m).

Definition setStepSize (dt : float) (m : t) : t :=
  mk (A m) (b m) (vec m) (alpha1 m) (alpha2 m) (beta m) (gamma m)
     (alpha_m m) (alpha_f m) (slvDisp m) (isPredictor m) dt.

(** [NewmarkMats::getNewtonMatrix]: the Newton matrix is built in [A[0]]
    (through the [const_cast]) and a reference to it is returned; the model
    returns the matrix together with the updated object. *)
Definition getNewtonMatrix (m : t) : Matrix * t :=
  let N := A m !!! 1%nat in
  let N := mmultiply (alpha_m m + alpha_f m * alpha1 m * gamma m * h m)%float N in
  let N := madd (A m !!! 2%nat)
                (alpha_f m * (alpha2 m * gamma m + beta m * h m) * h m)%float N in
  let N := if slvDisp m then mmultiply (1.0 / (beta m * h m * h m))%float N else N in
  let A' := <[0%nat := N]> (A m) in
  (A' !!! 0%nat, withMatrices A' m).

Definition withRHS (b0 : Vectors) (m : t) : t :=
  mk (A m) b0 (vec m) (alpha1 m) (alpha2 m) (beta m) (gamma m)
     (alpha_m m) (alpha_f m) (slvDisp m) (isPredictor m) (h m).

(** [NewmarkMats::getRHSVector]: the inertia and damping forces are
    subtracted from [b[0]] (through the [const_cast]), which is returned. *)
Definition getRHSVector (m : t) : Vector * t :=
  if negb (bool_decide (A m = [])) && (2 <? length (vec m))%nat then
    let ia := (length (vec m) - 1)%nat in
    let iv := (length (vec m) - 2)%nat in
    let dF := b m !!! 0%nat in
    (* dF = Fext - M*a *)
    let dF := vadd (mat_vec (A m !!! 1%nat) (vec m !!! ia)) (-1.0)%float dF in
    (* dF -= alpha1*M*v *)
    let dF := if (0.0 <? alpha1 m)%float
              then vadd (mat_vec (A m !!! 1%nat) (vec m !!! iv)) (- alpha1 m)%float dF
              else dF in
    (* dF -= alpha2*K*v *)
    let dF := if (0.0 <? alpha2 m)%float
              then vadd (mat_vec (A m !!! 2%nat) (vec m !!! iv)) (- alpha2 m)%float dF
              else dF in
    let b' := <[0%nat := dF]> (b m) in
    (b' !!! 0%nat, withRHS b' m)
  else (b m !!! 0%nat, m).

(** The effective tangent as the specification words it, for one pair of
    mass and stiffness entries:
    [(alpha_m + alpha_f*alpha1*gamma*h)*M + alpha_f*(alpha2*gamma + beta*h)*h*K],
    multiplied by [1/(beta*h*h)] when displacement increments are solved
    for. *)
Definition newtonEntry (m : t) (mass stiff : float) : float :=
  let e := ((alpha_m m + alpha_f m * alpha1 m * gamma m * h m) * mass
            + alpha_f m * (alpha2 m * gamma m + beta m * h m) * h m * stiff)%float in
  if slvDisp m then (e * (1.0 / (beta m * h m * h m)))%float else e.

End NewmarkMats.

(** ** NewmarkNLSIM.C *)

Module NewmarkNLSIM.

(** Machine integers of [advanceStep]: [solution.size()-3] is computed in
    [size_t] (64 bits, unsigned) and stored in an [int] (32 bits, signed). *)
Definition size_t_sub (a c : Z) : Z := ((a - c) mod 2 ^ 64)%Z.
Definition to_int (z : Z) : Z := ((z + 2 ^ 31) mod 2 ^ 32 - 2 ^ 31)%Z.

(** The part of [TimeStep] the driver reads: [param.time.dt]. *)
Record TimeDomain := mkTimeDomain { t : float; dt : float }.
Record TimeStep := mkTimeStep { step : Z; time : TimeDomain }.

(** The collaborators of the driver that live outside the sources: the
    step counter [TimeStep::increment] and the two methods of the
    simulator [SIMbase] that [correctStep] calls on [model]. *)
Class Driver (SIMbase : Type) := {
  increment : TimeStep -> bool * TimeStep;
  getRHSvector : SIMbase -> nat -> bool -> option Vector;
  updateConfiguration : SIMbase -> Vector -> bool * SIMbase
}.

Section Sim.
Context {SIMbase : Type} `{!Driver SIMbase}.

(** The data members of [NewmarkNLSIM] (with those inherited from
    [NewmarkSIM] and [MultiStepSIM]) that the methods below use. *)
Record state := mk {
  model : SIMbase;
  solution : Vectors;
  linsol : Vector;
  incDis : Vector;
  predVel : Vector;
  predAcc : Vector;
  Finert : option Vector;
  beta : float;
  gamma : float;
  predictor : Ascii.ascii
}.

(** [NewmarkNLSIM::NewmarkNLSIM(sim)]: default Newmark parameters
    (alpha = -0.1), constant-displacement predictor, no inertia vector. *)
Definition NewmarkNLSIM (sim : SIMbase) : state :=
  mk sim [] [] [] [] [] None 0.3025%float 0.6%float "d"%char.

Definition withHistory (sol : Vectors) (s : state) : state :=
  mk (model s) sol (linsol s) (incDis s) (predVel s) (predAcc s)
     (Finert s) (beta s) (gamma s) (predictor s).

(** The loop of [advanceStep], [for (n = n0; n > 0; n--)], counting down
    from [n0 = S n'] to 1: [solution[n-1]] is copied onto [solution[n]]. *)
Fixpoint shiftHistory (n : nat) (sol : Vectors) : Vectors :=
  match n with
  | O => sol
  | S n' =>
      shiftHistory n' (<[S n' := std_copy (sol !!! n') (sol !!! S n')]> sol)
  end.

(** [NewmarkNLSIM::advanceStep(param,updateTime)]. *)
Definition advanceStep (s : state) (param : TimeStep) (updateTime : bool)
  : bool * state * TimeStep :=
  let n := to_int (size_t_sub (Z.of_nat (length (solution s))) 3) in
  let s' := withHistory (shiftHistory (Z.to_nat n) (solution s)) s in
  if updateTime
  then let '(ok, param') := increment param in (ok, s', param')
  else (true, s', param).

(** [NewmarkNLSIM::predictStep(param)]. *)
Definition predictStep (s : state) (param : TimeStep) : bool * state :=
  if (length (solution s) <? 3)%nat then (false, s)
  else
    let iA := (length (solution s) - 1)%nat in
    let iV := (length (solution s) - 2)%nat in
    let h := dt (time param) in
    (* Predicted new velocity *)
    let pV := solution s !!! iV in
    let pV := vscale (gamma s / beta s - 1.0)%float pV in
    let pV := vadd (solution s !!! iA)
                   ((0.5 * gamma s / beta s - 1.0) * h)%float pV in
    (* Predicted new acceleration *)
    let pA := solution s !!! iA in
    let pA := vscale (0.5 / beta s - 1.0)%float pA in
    let pA := vadd (solution s !!! iV) (1.0 / (beta s * h))%float pA in
    let sol := <[iV := pV]> (solution s) in
    let sol := <[iA := pA]> sol in
    (true,
     mk (model s) sol (linsol s)
        (vfill 0.0%float (incDis s))
        (vscale (-1.0)%float pV)
        (vscale (-1.0)%float pA)
        (Finert s) (beta s) (gamma s) (predictor s)).

(** [NewmarkNLSIM::correctStep(param,converged)]. *)
Definition correctStep (s : state) (param : TimeStep) (converged : bool)
  : bool * state :=
  if (length (solution s) <? 3)%nat then (false, s)
  else
    let iD := 0%nat in
    let iA := (length (solution s) - 1)%nat in
    let iV := (length (solution s) - 2)%nat in
    let h := dt (time param) in
    (* Update current displacement, velocity and acceleration solutions *)
    let inc := vadd (linsol s) 1.0%float (incDis s) in
    let sol := <[iD := vadd (linsol s) 1.0%float (solution s !!! iD)]>
                 (solution s) in
    let sol := <[iV := vadd inc (gamma s / (beta s * h))%float (predVel s)]>
                 sol in
    let sol := <[iA := vadd inc (1.0 / (beta s * h * h))%float (predAcc s)]>
                 sol in
    (* Save the actual inertia vector from the converged step *)
    let fin := if converged then getRHSvector (model s) 1 true
               else Finert s in
    let '(ok, model') := updateConfiguration (model s) (sol !!! iD) in
    (ok,
     mk model' sol (linsol s) inc (predVel s) (predAcc s) fin
        (beta s) (gamma s) (predictor s)).

(** The Newmark recurrences of the predictor, entry by entry. *)
Definition predictedVelocity (bet gam h v a : float) : float :=
  ((gam / bet - 1.0) * v + (0.5 * gam / bet - 1.0) * h * a)%float.

Definition predictedAcceleration (bet gam h v a : float) : float :=
  ((0.5 / bet - 1.0) * a + 1.0 / (bet * h) * v)%float.

End Sim.

Arguments state : clear implicits.

(** The methods of [SIMbase] that [init] and [finalizeRHSvector] call on
    [model]. *)
Class Setup (SIMbase : Type) := {
  setIntegrationPrm : SIMbase -> nat -> float -> SIMbase;
  getNoDOFs : SIMbase -> nat;
  getNoSolutions : SIMbase -> nat;
  addToRHSvector : SIMbase -> nat -> Vector -> float -> SIMbase
}.

Section Init.
Context {SIMbase : Type} `{!Setup SIMbase}.

(** Modelled from the spec: [utl::vector::resize(n,true)] (MatVec/matrix.h
    is not part of the sources) leaves [n] entries, all cleared to zero: the
    solution history is seeded with zeros (section 4.5). *)
Definition resizeCleared (n : nat) (v : Vector) : Vector :=
  replicate n 0.0%float.

(** [NewmarkNLSIM::init(nSol)].  The damping parameters [alpha1] and
    [alpha2] are members inherited from [NewmarkSIM]. *)
Definition init (alpha1 alpha2 : float) (s : state SIMbase) (nSol : nat)
  : state SIMbase :=
  let m := setIntegrationPrm (model s) 0 alpha1 in
  let m := setIntegrationPrm m 1 alpha2 in
  let m := setIntegrationPrm m 2 (0.5 - gamma s)%float in
  let nDOFs := getNoDOFs m in
  let nSols := getNoSolutions m in
  let nSol := if (nSol <? nSols)%nat then nSols else nSol in
  mk m (resizeCleared nDOFs <$> resize nSol [] (solution s))
     (linsol s)
     (resizeCleared nDOFs (incDis s))
     (resizeCleared nDOFs (predVel s))
     (resizeCleared nDOFs (predAcc s))
     (Finert s) (beta s) (gamma s) (predictor s).

(** [NewmarkNLSIM::finalizeRHSvector()]. *)
Definition finalizeRHSvector (s : state SIMbase) : state SIMbase :=
  match Finert s with
  | Some F =>
      mk (addToRHSvector (model s) 0 F (gamma s - 0.5)%float)
         (solution s) (linsol s) (incDis s) (predVel s) (predAcc s)
         (Finert s) (beta s) (gamma s) (predictor s)
  | None => s
  end.

(** All vectors of the driver have [n] entries. *)
Definition sized (n : nat) (s : state SIMbase) : Prop :=
  Forall (fun v => length v = n) (solution s)
  /\ length (incDis s) = n
  /\ length (predVel s) = n
  /\ length (predAcc s) = n.

End Init.

(** The part of [TiXmlElement] that [parse] reads: the tag name and the
    attributes by name ([None] for the null pointer of a missing one). *)
Record TiXmlElement := mkTiXmlElement {
  Value : string;
  Attribute : string -> option string
}.

(** [tolower] in the C locale, and [strcasecmp(a,b)] as the test
    [strcasecmp(a,b) != 0] that the code makes of it. *)
Definition tolower (c : ascii) : ascii :=
  let n := nat_of_ascii c in
  if (65 <=? n)%nat && (n <=? 90)%nat then ascii_of_nat (n + 32) else c.

Fixpoint lowercase (s : string) : string :=
  match s with
  | EmptyString => EmptyString
  | String c s' => String (tolower c) (lowercase s')
  end.

Definition strcasecmp (a b : string) : bool :=
  negb (bool_decide (lowercase a = lowercase b)).

(** The parser of the base class, [NewmarkSIM::parse], and [atof] of the
    C library. *)
Class Parser (SIMbase : Type) := {
  NewmarkSIM_parse : TiXmlElement -> state SIMbase -> bool * state SIMbase;
  atof : string -> float
}.

Section Parse.
Context {SIMbase : Type} `{!Parser SIMbase}.

(** [NewmarkNLSIM::parse(elem)]. *)
Definition parse (elem : TiXmlElement) (s : state SIMbase)
  : bool * state SIMbase :=
  let '(ok, s) := NewmarkSIM_parse elem s in
  if negb (strcasecmp (Value elem) "newmarksolver") then
    let alpha := match Attribute elem "alpha" with
                 | Some attr => atof attr
                 | None => (-0.1)%float
                 end in
    (ok,
     mk (model s) (solution s) (linsol s) (incDis s) (predVel s) (predAcc s)
        (Finert s)
        (0.25 * (1.0 - alpha) * (1.0 - alpha))%float
        (0.5 - alpha)%float
        (predictor s))
  else (ok, s).

End Parse.

End NewmarkNLSIM.

(** ** ASMu3Drecovery.C *)

Module ASMu3D.

(** *** The LR spline objects of the geometry library, as the code reads them *)

(** [LR::Element]: its index and the indices of the basis functions with
    support on it ([support()]). *)
Record Element := mkElement { getId : nat; support : list nat }.

(** [LR::Basisfunction]: its index, its Greville parameter (one value per
    parametric direction) and the two element ranges [scRecovery] chooses
    between: the own support ([supportedElementBegin()] to
    [supportedElementEnd()]) and [getExtendedSupport()], the union of the
    supports of all functions that overlap it. *)
Record Basisfunction := mkBasisfunction {
  bfId : nat;
  getGrevilleParameter : RealArray;
  supportedElements : list Element;
  getExtendedSupport : list Element
}.

(** The basis function [b] with another range [own] as its own support. *)
Definition withOwnSupport (own : list Element) (b : Basisfunction) : Basisfunction :=
  mkBasisfunction (bfId b) (getGrevilleParameter b) own (getExtendedSupport b).

(** [LR::LRSplineVolume]: the basis functions and elements in enumeration
    order, the polynomial orders, and the control points (interleaved, with
    [dimension] components each). *)
Record LRSplineVolume := mkLRSplineVolume {
  getAllBasisfunctions : list Basisfunction;
  getAllElements : list Element;
  order : nat -> Z;
  rational : bool;
  dimension : nat;
  controlPoints : RealArray
}.

(** [nBasisFunctions()] is the size of the container that
    [getAllBasisfunctions()] enumerates. *)
Definition nBasisFunctions (lr : LRSplineVolume) : nat :=
  length (getAllBasisfunctions lr).

Definition getElement (lr : LRSplineVolume) (iel : Z) : Element :=
  default (mkElement 0 []) (getAllElements lr !! Z.to_nat iel).

(** [ans->rebuildDimension(d); ans->setControlPoints(cp)] on a copy. *)
Definition withControlPoints (d : nat) (cp : RealArray) (lr : LRSplineVolume)
  : LRSplineVolume :=
  mkLRSplineVolume (getAllBasisfunctions lr) (getAllElements lr) (order lr)
                   (rational lr) d cp.

(** [Go::BasisDerivs]: basis values and first parametric derivatives. *)
Record BasisDerivs := mkBasisDerivs {
  basisValues : RealArray;
  basisDerivs_u : RealArray;
  basisDerivs_v : RealArray;
  basisDerivs_w : RealArray
}.

(** The data members of the patch [ASMu3D] that the recovery code reads. *)
Record patch := mkPatch {
  lrspline : option LRSplineVolume;
  nGauss : Z;
  MNPC : list (list Z);
  getNoNodes : nat
}.

Abbreviation RealArray3 := (list float * list float * list float)%type.

(** [LR::parameterEdge], the faces of the parameter box (the enumeration
    has further values for edges and corners, gathered in [OTHER]). *)
Inductive parameterEdge := WEST | EAST | SOUTH | NORTH | BOTTOM | TOP | OTHER.

(** [ASMu3D::DirichletFace]: the face, the global element and node numbers
    on it and the element connectivity restricted to the face (-1 for the
    nodes off the face).  [faceBasis] is [None] when [face.lr] is the
    [lrspline] object of the patch itself and the other spline otherwise. *)
Record DirichletFace := mkDirichletFace {
  faceBasis : option LRSplineVolume;
  edg : parameterEdge;
  MLGE : list Z;
  MLGN : list Z;
  faceMNPC : list (list Z)
}.

(** [Vec4]: a point in space and time. *)
Record Vec4 := mkVec4 { xyz : RealArray; time : float }.

(** [FunctionBase]: the number of components of a function and its value
    at a point. *)
Record FunctionBase := mkFunctionBase {
  dim : nat;
  getValue : Vec4 -> RealArray
}.

(** *** Collaborators outside the sources

    The integrand interface, the Gauss rules, the spline evaluation of the
    geometry library, the methods of [ASMu3D] defined in other files, the
    Jacobian of the coordinate mapping and the linear solvers.  A method
    that reports failure by [false] or [nullptr] returns [None]. *)
Class Collaborators (Integrand : Type) := {
  (* IntegrandBase *)
  derivativeOrder : Integrand -> Z;
  getNoFields : Integrand -> nat;
  (* GaussQuadrature *)
  getCoord : Z -> option RealArray;
  getWeight : Z -> option RealArray;
  (* LR::LRSplineVolume *)
  point : LRSplineVolume -> float -> float -> float -> RealArray;
  computeBasis : LRSplineVolume -> float -> float -> float -> Z -> RealArray;
  computeBasisDerivs : LRSplineVolume -> float -> float -> float -> Z -> BasisDerivs;
  getElementContaining : LRSplineVolume -> float -> float -> float -> Z;
  startparam : LRSplineVolume -> nat -> float;
  endparam : LRSplineVolume -> nat -> float;
  (* ASMu3D *)
  getGaussPointParameters : patch -> nat -> Z -> Z -> RealArray -> RealArray;
  evalSolution : patch -> Integrand -> RealArray3 -> option Matrix;
  getElementCoordinates : patch -> Z -> option Matrix;
  getParametricVolume : patch -> Z -> float;
  getParametricArea : patch -> Z -> Z -> float;
  evaluateBasis : patch -> Z -> float -> float -> float -> Vector * Matrix;
  (* utl::Jacobian(Jac,dNdX,Xnod,dNdu,false) *)
  Jacobian : Matrix -> Matrix -> float;
  (* utl::Jacobian(Jac,n,dNdX,Xnod,dNdu,t1,t2) *)
  JacobianFace : Matrix -> Matrix -> Z -> Z -> float;
  (* DenseMatrix::solve and SparseMatrix::solve *)
  denseSolve : Matrix -> Matrix -> option Matrix;
  sparseSolve : SparseMatrix -> Vector -> option Vector
}.

(** Modelled from the spec: [SplineUtils::extractBasis(spline,N,dNdu)]
    (SplineUtils.C is not part of the sources) copies the basis values into
    [N] and the parametric derivatives into the columns of the
    (nodes x 3) matrix [dNdu] (section 4.2). *)
Definition extractBasis (spl : BasisDerivs) : Vector * Matrix :=
  (basisValues spl,
   mkMatrix (length (basisValues spl)) 3
            (basisDerivs_u spl ++ basisDerivs_v spl ++ basisDerivs_w spl)).

(** *** getGrevilleParameters *)

(** [ASMu3D::getGrevilleParameters(prm,dir)]: the flag returned and the
    contents of [prm] afterwards. *)
Definition getGrevilleParameters (pch : patch) (prm : RealArray) (dir : Z)
  : bool * RealArray :=
  match lrspline pch with
  | None => (false, prm)
  | Some lr =>
      if (dir <? 0)%Z || (dir >? 2)%Z then (false, prm)
      else (true,
            (fun b => getGrevilleParameter b !!! Z.to_nat dir)
              <$> getAllBasisfunctions lr)
  end.

(** The use [if (!this->getGrevilleParameters(gpar[dir],dir)) return nullptr]. *)
Definition grevilleOrFail (pch : patch) (dir : Z) : option RealArray :=
  let '(ok, prm) := getGrevilleParameters pch [] dir in
  if ok then Some prm else None.

(** *** expandTensorGrid and evalMonomials *)

(** The three nested loops [for k .. for j .. for i] of the file, in the
    order in which they visit [(i,j,k)]. *)
Definition tripleLoop (n1 n2 n3 : nat) : list (nat * nat * nat) :=
  k ← seq 0 n3; j ← seq 0 n2; i ← seq 0 n1; [(i, j, k)].

(** [expandTensorGrid(in,out)]. *)
Definition expandTensorGrid (inp : RealArray3) : RealArray3 :=
  let '(in0, in1, in2) := inp in
  let idx := tripleLoop (length in0) (length in1) (length in2) in
  ((fun '(i, _, _) => in0 !!! i) <$> idx,
   (fun '(_, j, _) => in1 !!! j) <$> idx,
   (fun '(_, _, k) => in2 !!! k) <$> idx).

(** [for (l = 0; l < n; l++) P(ip) *= x]. *)
Definition timesPow (n : nat) (x : float) (acc : float) : float :=
  Nat.iter n (fun a => (a * x)%float) acc.

(** [evalMonomials(p1,p2,p3,x,y,z,P)]: [P] is resized to [p1*p2*p3]
    entries equal to one, and the entry of each visited [(i,j,k)] is
    multiplied [i] times by [x], [j] times by [y] and [k] times by [z]. *)
Definition evalMonomials (p1 p2 p3 : Z) (x y z : float) : Vector :=
  for_each (imap pair (tripleLoop (Z.to_nat p1) (Z.to_nat p2) (Z.to_nat p3)))
           (fun '(ip, (i, j, k)) =>
              alter (fun a => timesPow k z (timesPow j y (timesPow i x a))) ip)
           (replicate (Z.to_nat (p1 * p2 * p3)) 1.0%float).

(** The monomial [x^i y^j z^k], multiplied out as [evalMonomials] does. *)
Definition monomial (x y z : float) (ijk : nat * nat * nat) : float :=
  let '(i, j, k) := ijk in timesPow k z (timesPow j y (timesPow i x 1.0%float)).

(** The tangent directions [t1] and [t2] of [faceL2projection]. *)
Definition faceTangents (faceDir : Z) : Z * Z :=
  let t1 := (1 + Z.abs faceDir mod 3)%Z in
  (t1, (1 + t1 mod 3)%Z).

(** *** regularInterpolation, projectSolution, assembleL2matrices, scRecovery *)

Section Recovery.
Context {Integrand : Type} `{!Collaborators Integrand}.

(** One row of the interpolation matrix of [regularInterpolation]: the
    basis functions of the element containing the [i]-th point, evaluated
    there ([k] is the running index [k++] into the basis values). *)
Definition interpolationRow (lr : LRSplineVolume) (upar vpar wpar : RealArray)
  (i : nat) (A : SparseMatrix) : SparseMatrix :=
  let iel := getElementContaining lr (upar !!! i) (vpar !!! i) (wpar !!! i) in
  let splineValues := computeBasis lr (upar !!! i) (vpar !!! i) (wpar !!! i) iel in
  for_each (imap pair (support (getElement lr iel)))
           (fun '(k, fid) => sp_set_at (Z.of_nat i + 1) (Z.of_nat fid + 1)
                                       (splineValues !!! k))
           A.

Definition interpolationMatrix (lr : LRSplineVolume) (upar vpar wpar : RealArray)
  : SparseMatrix :=
  for_each (seq 0 (nBasisFunctions lr)) (interpolationRow lr upar vpar wpar)
           (sp_resize (nBasisFunctions lr) (nBasisFunctions lr)).

(** [ASMu3D::regularInterpolation(upar,vpar,wpar,points)]; [None] is the
    [nullptr] result (the diagnostics on [std::cerr] are not modelled, nor
    is the dereference of a null [lrspline]). *)
Definition regularInterpolation (pch : patch) (upar vpar wpar : RealArray)
  (points : Matrix) : option LRSplineVolume :=
  match lrspline pch with
  | None => None
  | Some lr =>
      if rational lr then None
      else
        (* sanity check on input parameters *)
        let nBasis := nBasisFunctions lr in
        if negb (length upar =? nBasis)%nat || negb (length vpar =? nBasis)%nat
           || negb (length wpar =? nBasis)%nat || negb (cols points =? nBasis)%nat
        then None
        else
          let A := interpolationMatrix lr upar vpar wpar in
          let B := elem (transposed points) in
          (* Solve for all solution components *)
          match sparseSolve A B with
          | None => None
          | Some B' =>
              (* Back to interleaved data *)
              let interleave :=
                i ← seq 0 nBasis; j ← seq 0 (rows points);
                [vec_at B' (1 + j * cols points + i)] in
              Some (withControlPoints (rows points) interleave lr)
          end
  end.

(** [ASMu3D::projectSolution(integr)]. *)
Definition projectSolution (pch : patch) (integr : Integrand)
  : option LRSplineVolume :=
  gpar0 ← grevilleOrFail pch 0;
  gpar1 ← grevilleOrFail pch 1;
  gpar2 ← grevilleOrFail pch 2;
  sValues ← evalSolution pch integr (gpar0, gpar1, gpar2);
  regularInterpolation pch gpar0 gpar1 gpar2 sValues.

(** [ASMu3D::evalSolution(integrand)], the overload that returns a spline:
    it is [projectSolution]. *)
Definition evalSolutionSpline (pch : patch) (integrand : Integrand)
  : option LRSplineVolume :=
  projectSolution pch integrand.

(** The Gauss points of one element in visiting order, each with the value
    of the counter [ip] when it is visited ([ip] is incremented by the loop
    header, also after a [continue]). *)
Definition gaussLoop (ng1 ng2 ng3 : Z) : list (nat * (nat * nat * nat)) :=
  imap pair (tripleLoop (Z.to_nat ng1) (Z.to_nat ng2) (Z.to_nat ng3)).

(** "Integrate the linear system A*x=B" of [assembleL2matrices]: the
    contribution of one Gauss point with weight [dJw]. *)
Definition l2Integrate (pch : patch) (iel : Z) (phi : Vector) (sField : Matrix)
  (ip : nat) (dJw : float) (st : SparseMatrix * Vector) : SparseMatrix * Vector :=
  let nnod := getNoNodes pch in
  let mnpc := MNPC pch !!! Z.to_nat (iel - 1) in
  for_each (seq 0 (length phi))
    (fun ii '(A, B) =>
       let inod := (mnpc !!! ii + 1)%Z in
       let A :=
         for_each (seq 0 (length phi))
           (fun jj A =>
              let jnod := (mnpc !!! jj + 1)%Z in
              sp_add_at inod jnod (phi !!! ii * phi !!! jj * dJw)%float A)
           A in
       let B :=
         for_each (seq 1 (rows sField))
           (fun r B =>
              vec_add_at (Z.to_nat (inod + (Z.of_nat r - 1) * Z.of_nat nnod))
                         (phi !!! ii * mat_at sField r (ip + 1) * dJw)%float B)
           B in
       (A, B))
    st.

(** The Jacobian-scaled weight [dJw] of a Gauss point of the continuous
    projection. *)
Definition l2Weight (lr : LRSplineVolume) (iel : Z) (dA : float) (Xnod : Matrix)
  (wg : RealArray) (gpar : RealArray3) (ijk : nat * nat * nat) : float :=
  let '(i, j, k) := ijk in
  let '(phi, dNdu) :=
    extractBasis (computeBasisDerivs lr (gpar.1.1 !!! i) (gpar.1.2 !!! j)
                                     (gpar.2 !!! k) (iel - 1)) in
  (dA * wg !!! i * wg !!! j * wg !!! k * Jacobian dNdu Xnod)%float.

(** The body of the integration loop of [assembleL2matrices] for one Gauss
    point. *)
Definition l2GaussPoint (pch : patch) (lr : LRSplineVolume) (continuous : bool)
  (iel : Z) (dA : float) (Xnod : Matrix) (wg : RealArray) (gpar : RealArray3)
  (sField : Matrix) (pt : nat * (nat * nat * nat))
  (st : SparseMatrix * Vector) : SparseMatrix * Vector :=
  let '(ip, (i, j, k)) := pt in
  let u := gpar.1.1 !!! i in
  let v := gpar.1.2 !!! j in
  let w := gpar.2 !!! k in
  if continuous then
    let '(phi, dNdu) := extractBasis (computeBasisDerivs lr u v w (iel - 1)) in
    (* Compute the Jacobian inverse and derivatives *)
    let dJw := l2Weight lr iel dA Xnod wg gpar (i, j, k) in
    if (dJw =? 0.0)%float then st (* skip singular points *)
    else l2Integrate pch iel phi sField ip dJw st
  else
    let phi := computeBasis lr u v w (iel - 1) in
    l2Integrate pch iel phi sField ip 1.0%float st.

(** The assembly loop over the elements, [iel] counting from 1.  The flag
    is the value returned; the matrices keep what was accumulated before a
    failure. *)
Fixpoint l2Elements (pch : patch) (lr : LRSplineVolume) (integrand : Integrand)
  (continuous : bool) (ng1 ng2 ng3 : Z) (xg yg zg wg : RealArray)
  (els : list Element) (iel : Z) (st : SparseMatrix * Vector)
  : bool * (SparseMatrix * Vector) :=
  match els with
  | [] => (true, st)
  | el :: els' =>
      (* Set up control point (nodal) coordinates for current element *)
      let geom :=
        if continuous then
          match getElementCoordinates pch iel with
          | None => None
          | Some Xnod =>
              let dA := (0.125 * getParametricVolume pch iel)%float in
              if (dA <? 0.0)%float then None (* topology error *)
              else Some (Xnod, dA)
          end
        else Some (emptyMatrix, 0.0%float) in
      match geom with
      | None => (false, st)
      | Some (Xnod, dA) =>
          (* Compute parameter values of the Gauss points over this element *)
          let gpar := (getGaussPointParameters pch 0 ng1 iel xg,
                       getGaussPointParameters pch 1 ng2 iel yg,
                       getGaussPointParameters pch 2 ng3 iel zg) in
          (* Evaluate the secondary solution at all integration points *)
          match evalSolution pch integrand (expandTensorGrid gpar) with
          | None => (false, st)
          | Some sField =>
              let st' :=
                for_each (gaussLoop ng1 ng2 ng3)
                         (l2GaussPoint pch lr continuous iel dA Xnod wg gpar sField)
                         st in
              l2Elements pch lr integrand continuous ng1 ng2 ng3 xg yg zg wg
                         els' (iel + 1) st'
          end
      end
  end.

(** [ASMu3D::assembleL2matrices(A,B,integrand,continuous)].  (The code
    dereferences [lrspline] without a test; the model answers a missing
    spline with the failure value, here and in the functions below.) *)
Definition assembleL2matrices (pch : patch) (A : SparseMatrix) (B : Vector)
  (integrand : Integrand) (continuous : bool) : bool * (SparseMatrix * Vector) :=
  match lrspline pch with
  | None => (false, (A, B))
  | Some lr =>
      let p1 := order lr 0 in
      let p2 := order lr 1 in
      let p3 := order lr 2 in
      (* Get Gaussian quadrature points *)
      let ng1 := if continuous then nGauss pch else (p1 - 1)%Z in
      let ng2 := if continuous then nGauss pch else (p2 - 1)%Z in
      let ng3 := if continuous then nGauss pch else (p3 - 1)%Z in
      let wg := if continuous then getWeight (nGauss pch) else None in
      match getCoord ng1, getCoord ng2, getCoord ng3 with
      | Some xg, Some yg, Some zg =>
          match continuous, wg with
          | true, None => (false, (A, B))
          | _, _ =>
              l2Elements pch lr integrand continuous ng1 ng2 ng3 xg yg zg
                         (default [] wg) (getAllElements lr) 1 (A, B)
          end
      | _, _, _ => (false, (A, B))
      end
  end.

(** The connectivity table [MNPC] agrees with the spline: the nodes of an
    element are distinct, and the spline has no more basis functions on an
    element than the table lists nodes for it. *)
Definition consistentMNPC (pch : patch) (lr : LRSplineVolume) : Prop :=
  Forall (fun row : list Z => NoDup row) (MNPC pch) /\
  forall (u v w : float) (e : nat), e < length (getAllElements lr) ->
    length (computeBasis lr u v w (Z.of_nat e)) <= length (MNPC pch !!! e) /\
    length (basisValues (computeBasisDerivs lr u v w (Z.of_nat e)))
      <= length (MNPC pch !!! e).

(** The quantities [scRecovery] computes before its loop over the basis
    functions: numbers of Gauss points [ng], their coordinates, the Greville
    parameters [gpar], the patch sizes [n], and the numbers of polynomial
    terms [nPol] and of result components [nCmp]. *)
Record scParams := mkScParams {
  ng1 : Z; ng2 : Z; ng3 : Z;
  xg : RealArray; yg : RealArray; zg : RealArray;
  gpar : RealArray3;
  n1 : Z; n2 : Z; n3 : Z;
  nCmp : nat;
  nPol : nat
}.

(** The first part of [scRecovery], up to the loop; [None] where the code
    returns [nullptr]. *)
Definition scSetup (pch : patch) (lr : LRSplineVolume) (integrand : Integrand)
  : option scParams :=
  let m := derivativeOrder integrand in
  let p1 := order lr 0 in
  let p2 := order lr 1 in
  let p3 := order lr 2 in
  (* Get Gaussian quadrature point coordinates *)
  let ng1 := (p1 - m)%Z in
  let ng2 := (p2 - m)%Z in
  let ng3 := (p3 - m)%Z in
  match getCoord ng1, getCoord ng2, getCoord ng3 with
  | Some xg, Some yg, Some zg =>
      (* Compute parameter values of the Greville points *)
      gpar0 ← grevilleOrFail pch 0;
      gpar1 ← grevilleOrFail pch 1;
      gpar2 ← grevilleOrFail pch 2;
      let n1 := (p1 - m + 1)%Z in
      let n2 := (p2 - m + 1)%Z in
      let n3 := (p3 - m + 1)%Z in
      Some (mkScParams ng1 ng2 ng3 xg yg zg (gpar0, gpar1, gpar2) n1 n2 n3
                       (getNoFields integrand) (Z.to_nat (n1 * n2 * n3)))
  | _, _, _ => None
  end.

(** The element range [elStart .. elEnd] that [scRecovery] chooses for the
    local fit of basis function [b]. *)
Definition scSupport (b : Basisfunction) : list Element :=
  (* if (nel*ng1*ng2*ng3 < nPol) *)
  if true
  then getExtendedSupport b
  else supportedElements b.

(** The number of Gauss points that the own support of [b] holds,
    [nel*ng1*ng2*ng3]. *)
Definition ownSamplePoints (prm : scParams) (b : Basisfunction) : Z :=
  (Z.of_nat (length (supportedElements b)) * ng1 prm * ng2 prm * ng3 prm)%Z.

(** The choice as the specification words it: the own support, and the
    extended support only when the own support holds fewer than [nPol]
    sample points. *)
Definition scSupport_spec (prm : scParams) (b : Basisfunction) : list Element :=
  if (ownSamplePoints prm b <? Z.of_nat (nPol prm))%Z
  then getExtendedSupport b
  else supportedElements b.

(** The body of the Gauss point loop of [scRecovery]: [A += P^t * P] and
    [B += P^t * sigma], with [ig = ip + 1] the one-based point counter. *)
Definition scGaussPoint (lr : LRSplineVolume) (prm : scParams)
  (G : RealArray) (gaussPt : RealArray3) (sField : Matrix)
  (pt : nat * (nat * nat * nat)) (AB : Matrix * Matrix) : Matrix * Matrix :=
  let '(ip, (i, j, k)) := pt in
  let ig := (ip + 1)%nat in
  (* Evaluate the polynomial expansion at current Gauss point *)
  let X := point lr (gaussPt.1.1 !!! i) (gaussPt.1.2 !!! j) (gaussPt.2 !!! k) in
  let P := evalMonomials (n1 prm) (n2 prm) (n3 prm)
                         (X !!! 0%nat - G !!! 0%nat)%float
                         (X !!! 1%nat - G !!! 1%nat)%float
                         (X !!! 2%nat - G !!! 2%nat)%float in
  for_each (seq 1 (nPol prm))
    (fun ii '(A, B) =>
       (* Accumulate the projection matrix, A += P^t * P *)
       let A := for_each (seq 1 (nPol prm))
                  (fun jj => mat_add_at ii jj (vec_at P ii * vec_at P jj)%float) A in
       (* Accumulate the right-hand-side matrix, B += P^t * sigma *)
       let B := for_each (seq 1 (nCmp prm))
                  (fun jj => mat_add_at ii jj (vec_at P ii * mat_at sField jj ig)%float) B in
       (A, B))
    AB.

(** The loop over the elements [el = elStart .. elEnd] of [scRecovery];
    [None] when the secondary solution cannot be evaluated. *)
Fixpoint scElements (pch : patch) (lr : LRSplineVolume) (integrand : Integrand)
  (prm : scParams) (G : RealArray) (els : list Element) (AB : Matrix * Matrix)
  : option (Matrix * Matrix) :=
  match els with
  | [] => Some AB
  | el :: els' =>
      let iel := (Z.of_nat (getId el) + 1)%Z in
      (* evaluate all gauss points for this element *)
      let gaussPt := (getGaussPointParameters pch 0 (ng1 prm) iel (xg prm),
                      getGaussPointParameters pch 1 (ng2 prm) iel (yg prm),
                      getGaussPointParameters pch 2 (ng3 prm) iel (zg prm)) in
      (* Evaluate the secondary solution at all Gauss points *)
      match evalSolution pch integrand (expandTensorGrid gaussPt) with
      | None => None
      | Some sField =>
          scElements pch lr integrand prm G els'
            (for_each (gaussLoop (ng1 prm) (ng2 prm) (ng3 prm))
                      (scGaussPoint lr prm G gaussPt sField) AB)
      end
  end.

(** The local least-squares system [(A,B)] assembled over the elements
    [els] around the Greville point number [ip] (zero-based). *)
Definition scAssemble (pch : patch) (lr : LRSplineVolume) (integrand : Integrand)
  (prm : scParams) (ip : nat) (els : list Element) : option (Matrix * Matrix) :=
  (* Physical coordinates of current Greville point *)
  let G := point lr ((gpar prm).1.1 !!! ip) ((gpar prm).1.2 !!! ip)
                 ((gpar prm).2 !!! ip) in
  (* Set up the local projection matrices *)
  scElements pch lr integrand prm G els
             (mzero (nPol prm) (nPol prm), mzero (nPol prm) (nCmp prm)).

(** What the accumulation of the local system maintains: [A] is an
    [nPol] by [nPol] matrix whose mirrored entries are equal, [B] is an
    [nPol] by [nCmp] matrix. *)
Definition fitInvariant (prm : scParams) (AB : Matrix * Matrix) : Prop :=
  mat_shape (nPol prm) (nPol prm) AB.1
  /\ (forall r c, inside (nPol prm) (nPol prm) (r, c) ->
                  mat_at AB.1 r c = mat_at AB.1 c r)
  /\ mat_shape (nPol prm) (nCmp prm) AB.2.

(** The local system of basis function [b], as [scRecovery] sets it up. *)
Definition scLocalSystem (pch : patch) (lr : LRSplineVolume) (integrand : Integrand)
  (prm : scParams) (ip : nat) (b : Basisfunction) : option (Matrix * Matrix) :=
  scAssemble pch lr integrand prm ip (scSupport b).

(** The local system as the specification words it: assembled over the
    own support, and over the extended support only when the own support
    holds fewer than [nPol] sample points. *)
Definition scLocalSystem_spec (pch : patch) (lr : LRSplineVolume)
  (integrand : Integrand) (prm : scParams) (ip : nat) (b : Basisfunction)
  : option (Matrix * Matrix) :=
  scAssemble pch lr integrand prm ip (scSupport_spec prm b).

(** The parameters of the Gauss points of element [el], as the element
    loop of [scRecovery] computes them ([iel = getId()+1]). *)
Definition scGaussParameters (pch : patch) (prm : scParams) (el : Element)
  : RealArray3 :=
  let iel := (Z.of_nat (getId el) + 1)%Z in
  (getGaussPointParameters pch 0 (ng1 prm) iel (xg prm),
   getGaussPointParameters pch 1 (ng2 prm) iel (yg prm),
   getGaussPointParameters pch 2 (ng3 prm) iel (zg prm)).

(** One pass of the element loop of [scRecovery], for the element [el]:
    the secondary solution is evaluated at the Gauss points of [el]
    ([None] when that fails) and every Gauss point of [el] is accumulated
    into [(A,B)]. *)
Definition scElement (pch : patch) (lr : LRSplineVolume) (integrand : Integrand)
  (prm : scParams) (G : RealArray) (el : Element) (AB : Matrix * Matrix)
  : option (Matrix * Matrix) :=
  match evalSolution pch integrand
          (expandTensorGrid (scGaussParameters pch prm el)) with
  | None => None
  | Some sField =>
      Some (for_each (gaussLoop (ng1 prm) (ng2 prm) (ng3 prm))
                     (scGaussPoint lr prm G (scGaussParameters pch prm el) sField)
                     AB)
  end.

(** The number of Gauss points of one element in the loops of
    [scRecovery], and a number of sample points as the accumulation
    [A(1,1) += 1.0*1.0] counts it in floating point. *)
Definition samplePoints (prm : scParams) : nat :=
  Z.to_nat (ng1 prm) * Z.to_nat (ng2 prm) * Z.to_nat (ng3 prm).

Definition countSamples (n : nat) : float :=
  Nat.iter n (fun a => (a + 1.0 * 1.0)%float) 0.0%float.

(** The body of the loop over the basis functions: assemble, solve, and
    store the first row of the solution in column [ip+1] of [sValues]. *)
Definition scBasisfunction (pch : patch) (lr : LRSplineVolume) (integrand : Integrand)
  (prm : scParams) (b : Basisfunction) (st : nat * Matrix)
  : option (nat * Matrix) :=
  let '(ip, sValues) := st in
  match scLocalSystem pch lr integrand prm ip b with
  | None => None
  | Some (A, B) =>
      (* Solve the local equation system *)
      match denseSolve A B with
      | None => None
      | Some B' =>
          (* Evaluate the projected field at current Greville point *)
          let ip := S ip in
          Some (ip,
                for_each (seq 1 (nCmp prm))
                         (fun l => mat_set_at l ip (mat_at B' 1 l)) sValues)
      end
  end.

(** The loop over all Greville points (one for each basis function). *)
Fixpoint scBasisLoop (pch : patch) (lr : LRSplineVolume) (integrand : Integrand)
  (prm : scParams) (bs : list Basisfunction) (st : nat * Matrix)
  : option (nat * Matrix) :=
  match bs with
  | [] => Some st
  | b :: bs' =>
      match scBasisfunction pch lr integrand prm b st with
      | None => None
      | Some st' => scBasisLoop pch lr integrand prm bs' st'
      end
  end.

(** [ASMu3D::scRecovery(integrand)]. *)
Definition scRecovery (pch : patch) (integrand : Integrand)
  : option LRSplineVolume :=
  match lrspline pch with
  | None => None
  | Some lr =>
      prm ← scSetup pch lr integrand;
      let sValues := mzero (nCmp prm) (length (gpar prm).1.1) in
      (* Loop over all Greville points (one for each basis function) *)
      st ← scBasisLoop pch lr integrand prm (getAllBasisfunctions lr)
                       (0%nat, sValues);
      (* Project the Greville point results onto the spline basis *)
      regularInterpolation pch (gpar prm).1.1 (gpar prm).1.2 (gpar prm).2 st.2
  end.

(** *** faceL2projection *)

(** The normal direction of the face, [None] for the [default] branch. *)
Definition faceDirOf (e : parameterEdge) : option Z :=
  match e with
  | WEST => Some (-1)%Z
  | EAST => Some 1%Z
  | SOUTH => Some (-2)%Z
  | NORTH => Some 2%Z
  | BOTTOM => Some (-3)%Z
  | TOP => Some 3%Z
  | OTHER => None
  end.

(** The parameter value of an integration point in one direction:
    [u = gpar.front()], replaced by [gpar(k+1)] when [gpar.size() > 1]. *)
Definition faceParameter (gp : RealArray) (k : nat) : float :=
  if (1 <? length gp)%nat then vec_at gp (k + 1) else gp !!! 0%nat.

(** The indices [(k1,k2,k3)] of the integration point [(i,j)] on the face. *)
Definition faceIndices (faceDir : Z) (i j : nat) : nat * nat * nat :=
  match Z.abs faceDir with
  | 1%Z => (0, i, j)%nat
  | 2%Z => (i, 0, j)%nat
  | 3%Z => (i, j, 0)%nat
  | _ => (0, 0, 0)%nat
  end.

(** The parameters [gpar[d]] of the integration points of a face element. *)
Definition faceGaussParameters (pch : patch) (lr : LRSplineVolume)
  (faceDir iel : Z) (xg : RealArray) (d : nat) : RealArray :=
  if (-1 - Z.of_nat d =? faceDir)%Z then [startparam lr d]
  else if (1 + Z.of_nat d =? faceDir)%Z then [endparam lr d]
  else getGaussPointParameters pch d (nGauss pch) iel xg.

(** The weight [dJxW] of the integration point [(i,j)] of a face element. *)
Definition faceWeight (pch : patch) (iel faceDir : Z) (dA : float) (Xnod : Matrix)
  (wg : RealArray) (gpar : RealArray3) (ij : nat * nat) : float :=
  let '(i, j) := ij in
  let '(k1, k2, k3) := faceIndices faceDir i j in
  let t1 := (1 + Z.abs faceDir mod 3)%Z in
  let t2 := (1 + t1 mod 3)%Z in
  let '(N, dNdu) := evaluateBasis pch (iel - 1) (faceParameter gpar.1.1 k1)
                                  (faceParameter gpar.1.2 k2)
                                  (faceParameter gpar.2 k3) in
  (dA * wg !!! i * wg !!! j * JacobianFace Xnod dNdu t1 t2)%float.

(** "Assemble into matrix A and vector B" for one integration point. *)
Definition faceIntegrate (mnpc : list Z) (n m : nat) (N val : Vector)
  (dJxW : float) (st : SparseMatrix * Vector) : SparseMatrix * Vector :=
  for_each (seq 0 (length mnpc))
    (fun il '(A, B) =>
       let ig := (1 + mnpc !!! il)%Z in
       if (0 <? ig)%Z then
         let A :=
           for_each (seq 0 (length mnpc))
             (fun jl A =>
                let jg := (1 + mnpc !!! jl)%Z in
                if (0 <? jg)%Z
                then sp_add_at ig jg (N !!! il * N !!! jl * dJxW)%float A
                else A)
             A in
         let B :=
           for_each (seq 0 m)
             (fun k B =>
                vec_add_at (Z.to_nat (ig + Z.of_nat k * Z.of_nat n))
                           (N !!! il * val !!! k * dJxW)%float B)
             B in
         (A, B)
       else (A, B))
    st.

(** The local node numbers of a face element that lie on the face
    ([ig > 0]), and a connectivity row whose nodes on the face are
    distinct. *)
Definition onFace (mnpc : list Z) : list nat :=
  filter (fun il => (0 < 1 + mnpc !!! il)%Z) (seq 0 (length mnpc)).

Definition distinctFaceNodes (row : list Z) : Prop :=
  NoDup (filter (fun x => (0 <= x)%Z) row).

(** What the assembly of the face system maintains, starting from
    [(A0,B0)]: mirrored entries of the matrix are equal, the entries
    outside the positive rows and columns are those of [A0], and the
    right-hand side keeps its size. *)
Definition faceInvariant (A0 : SparseMatrix) (B0 : Vector)
  (st : SparseMatrix * Vector) : Prop :=
  sp_symmetric st.1
  /\ (forall r c : Z, (r <= 0 \/ c <= 0)%Z -> sp_at st.1 r c = sp_at A0 r c)
  /\ length st.2 = length B0.

(** The body of the integration loop of [faceL2projection]. *)
Definition faceGaussPoint (pch : patch) (face : DirichletFace)
  (values : FunctionBase) (tm : float) (ie : nat) (iel faceDir : Z) (dA : float)
  (Xnod : Matrix) (wg : RealArray) (gpar : RealArray3) (ij : nat * nat)
  (st : SparseMatrix * Vector) : SparseMatrix * Vector :=
  let '(i, j) := ij in
  (* Parameter values of current integration point *)
  let '(k1, k2, k3) := faceIndices faceDir i j in
  let u := faceParameter gpar.1.1 k1 in
  let v := faceParameter gpar.1.2 k2 in
  let w := faceParameter gpar.2 k3 in
  (* Evaluate basis function derivatives at integration points *)
  let '(N, dNdu) := evaluateBasis pch (iel - 1) u v w in
  (* Compute basis function derivatives *)
  let dJxW := faceWeight pch iel faceDir dA Xnod wg gpar (i, j) in
  if (dJxW =? 0.0)%float then st (* skip singular points *)
  else
    (* Cartesian coordinates of current integration point *)
    let X := mkVec4 (mat_vec Xnod N) tm in
    (* For mixed basis, we need to compute functions separate from geometry *)
    let N :=
      match faceBasis face with
      | None => N
      | Some lr' =>
          (extractBasis
             (computeBasisDerivs lr' u v w (getElementContaining lr' u v w))).1
      end in
    faceIntegrate (faceMNPC face !!! ie) (length (MLGN face)) (dim values)
                  N (getValue values X) dJxW st.

(** The integration points of a face element, [for j .. for i]. *)
Definition faceLoop (ng : Z) : list (nat * nat) :=
  j ← seq 0 (Z.to_nat ng); i ← seq 0 (Z.to_nat ng); [(i, j)].

(** The assembly loop over the elements on the patch face, from the
    element number [ie] (zero-based) on. *)
Fixpoint faceElements (pch : patch) (lr : LRSplineVolume) (face : DirichletFace)
  (values : FunctionBase) (tm : float) (faceDir : Z) (xg wg : RealArray)
  (mlge : list Z) (ie : nat) (st : SparseMatrix * Vector)
  : option (SparseMatrix * Vector) :=
  match mlge with
  | [] => Some st
  | e :: mlge' =>
      let iel := (1 + e)%Z in
      let gpar := (faceGaussParameters pch lr faceDir iel xg 0,
                   faceGaussParameters pch lr faceDir iel xg 1,
                   faceGaussParameters pch lr faceDir iel xg 2) in
      (* Get element face area in the parameter space *)
      let dA := (0.25 * getParametricArea pch iel (Z.abs faceDir))%float in
      if (dA <? 0.0)%float then None (* topology error *)
      else
        (* Set up control point coordinates for current element *)
        match getElementCoordinates pch iel with
        | None => None
        | Some Xnod =>
            faceElements pch lr face values tm faceDir xg wg mlge' (S ie)
              (for_each (faceLoop (nGauss pch))
                        (faceGaussPoint pch face values tm ie iel faceDir dA
                                        Xnod wg gpar)
                        st)
        end
  end.

(** [result.resize(m,RealArray(n))] followed by the copy of the [m] blocks
    of [B] into the rows of [result]. *)
Definition storeResult (m n : nat) (B : Vector) (result : Vectors) : Vectors :=
  imap (fun i row => std_copy (take n (drop (i * n) B)) row)
       (resize m (replicate n 0.0%float) result).

(** [ASMu3D::faceL2projection(face,values,result,time)]: the flag returned
    and the contents of [result] afterwards. *)
Definition faceL2projection (pch : patch) (face : DirichletFace)
  (values : FunctionBase) (result : Vectors) (tm : float) : bool * Vectors :=
  match lrspline pch with
  | None => (false, result)
  | Some lr =>
      let n := length (MLGN face) in
      let m := dim values in
      let A := sp_resize n n in
      let B := replicate (n * m) 0.0%float in
      (* Get Gaussian quadrature points and weights *)
      match getCoord (nGauss pch), getWeight (nGauss pch) with
      | Some xg, Some wg =>
          (* find the normal direction for the face *)
          match faceDirOf (edg face) with
          | None => (false, result)
          | Some faceDir =>
              match faceElements pch lr face values tm faceDir xg wg
                                 (MLGE face) 0 (A, B) with
              | None => (false, result)
              | Some (A, B) =>
                  (* Solve the face-global equation system *)
                  match sparseSolve A B with
                  | None => (false, result)
                  | Some B' => (true, storeResult m n B' result)
                  end
              end
          end
      | _, _ => (false, result)
      end
  end.

End Recovery.

End ASMu3D.

(** * Sample data

    Concrete inputs on which the definitions above are run. *)

Module Samples.

(** An element with two degrees of freedom. *)
Definition sampleMass : Matrix := mkMatrix 2 2 [2.0; 0.0; 0.0; 2.0]%float.
Definition sampleStiffness : Matrix := mkMatrix 2 2 [4.0; -1.0; -1.0; 4.0]%float.

(** A simulator without state: the step counter always advances, no
    right-hand side is kept, and the configuration update succeeds. *)
#[global] Instance unitDriver : NewmarkNLSIM.Driver unit := {|
  NewmarkNLSIM.increment p :=
    (true, NewmarkNLSIM.mkTimeStep (NewmarkNLSIM.step p + 1) (NewmarkNLSIM.time p));
  NewmarkNLSIM.getRHSvector _ _ _ := None;
  NewmarkNLSIM.updateConfiguration m _ := (true, m)
|}.

(** Two degrees of freedom and three solution vectors; the integration
    parameters and the right-hand side are not kept. *)
#[global] Instance unitSetup : NewmarkNLSIM.Setup unit := {|
  NewmarkNLSIM.setIntegrationPrm m _ _ := m;
  NewmarkNLSIM.getNoDOFs _ := 2%nat;
  NewmarkNLSIM.getNoSolutions _ := 3%nat;
  NewmarkNLSIM.addToRHSvector m _ _ _ := m
|}.

(** A base-class parser that accepts every element and changes nothing,
    and an [atof] that reads every text as zero. *)
#[global] Instance unitParser : NewmarkNLSIM.Parser unit := {|
  NewmarkNLSIM.NewmarkSIM_parse _ s := (true, s);
  NewmarkNLSIM.atof _ := 0.0%float
|}.

(** A time step of size [h] at time zero. *)
Definition stepOf (h : float) : NewmarkNLSIM.TimeStep :=
  NewmarkNLSIM.mkTimeStep 0 (NewmarkNLSIM.mkTimeDomain 0.0%float h).

(** The driver after construction with a solution history [sol] (two
    degrees of freedom) and a linear solution increment. *)
Definition driverWith (sol : Vectors) : NewmarkNLSIM.state unit :=
  NewmarkNLSIM.mk tt sol [0.5; 0.25]%float [0.0; 0.0]%float
                  [0.0; 0.0]%float [0.0; 0.0]%float None
                  (NewmarkNLSIM.beta (NewmarkNLSIM.NewmarkNLSIM tt))
                  (NewmarkNLSIM.gamma (NewmarkNLSIM.NewmarkNLSIM tt))
                  (NewmarkNLSIM.predictor (NewmarkNLSIM.NewmarkNLSIM tt)).

(** Displacement, velocity and acceleration, all at rest. *)
Definition restHistory : Vectors :=
  [[1.0; 2.0]; [0.0; 0.0]; [0.0; 0.0]]%float.

(** Two displacement states followed by velocity and acceleration. *)
Definition movingHistory : Vectors :=
  [[1.0; 2.0]; [3.0; 4.0]; [5.0; 6.0]; [0.5; 0.5]; [0.25; -0.25]]%float.

(** *** A trilinear LR volume on a grid of unit elements

    [n] elements per direction on the parameter domain [0,n]^3, order 2
    (piecewise linear) in every direction: [(n+1)^3] basis functions, one
    per grid vertex, with the vertices as Greville points. *)

Definition toFloat (k : nat) : float := PrimFloat.of_uint63 (Uint63.of_Z (Z.of_nat k)).

Definition vertexId (n : nat) (abc : nat * nat * nat) : nat :=
  let '(a, b, c) := abc in a + (n + 1) * (b + (n + 1) * c).

Definition gridElement (n : nat) (ijk : nat * nat * nat) : ASMu3D.Element :=
  let '(i, j, k) := ijk in
  ASMu3D.mkElement (i + n * (j + n * k))
    ((fun '(a, b, c) => vertexId n (i + a, j + b, k + c)) <$> ASMu3D.tripleLoop 2 2 2).

Definition gridElements (n : nat) : list ASMu3D.Element :=
  gridElement n <$> ASMu3D.tripleLoop n n n.

Definition hasFunction (fid : nat) (el : ASMu3D.Element) : bool :=
  existsb (Nat.eqb fid) (ASMu3D.support el).

(** The elements on which function [fid] is not zero. *)
Definition ownSupport (els : list ASMu3D.Element) (fid : nat) : list ASMu3D.Element :=
  List.filter (hasFunction fid) els.

(** The union of the supports of all functions that overlap [fid]. *)
Definition extendedSupport (els : list ASMu3D.Element) (fid : nat) : list ASMu3D.Element :=
  List.filter
    (fun el => existsb (fun e => existsb (fun g => hasFunction g el) (ASMu3D.support e))
                       (ownSupport els fid))
    els.

Definition gridFunction (n : nat) (abc : nat * nat * nat) : ASMu3D.Basisfunction :=
  let '(a, b, c) := abc in
  ASMu3D.mkBasisfunction (vertexId n abc) [toFloat a; toFloat b; toFloat c]
    (ownSupport (gridElements n) (vertexId n abc))
    (extendedSupport (gridElements n) (vertexId n abc)).

Definition gridFunctions (n : nat) : list ASMu3D.Basisfunction :=
  gridFunction n <$> ASMu3D.tripleLoop (n + 1) (n + 1) (n + 1).

(** The volume whose control points are given per vertex by [geom]. *)
Definition gridVolume (n : nat) (geom : nat * nat * nat -> RealArray) : ASMu3D.LRSplineVolume :=
  ASMu3D.mkLRSplineVolume (gridFunctions n) (gridElements n) (fun _ => 2%Z) false 3
    (abc ← ASMu3D.tripleLoop (n + 1) (n + 1) (n + 1); geom abc).

Definition gridPatch (n : nat) (geom : nat * nat * nat -> RealArray) : ASMu3D.patch :=
  ASMu3D.mkPatch (Some (gridVolume n geom)) 2
    ((fun el => Z.of_nat <$> ASMu3D.support el) <$> gridElements n)
    ((n + 1) * (n + 1) * (n + 1)).

(** The identity geometry, and one whose first layer of elements is
    collapsed onto the plane [x = 0] (a degenerate layer). *)
Definition identityGeometry (abc : nat * nat * nat) : RealArray :=
  let '(a, b, c) := abc in [toFloat a; toFloat b; toFloat c].

Definition collapsedGeometry (abc : nat * nat * nat) : RealArray :=
  let '(a, b, c) := abc in [toFloat (a - 1); toFloat b; toFloat c].

(** *** Collaborators for the grid volume *)

(** An integrand is represented by its derivative order and its number of
    secondary solution components. *)
Record sampleIntegrand := mkIntegrand { dOrder : Z; nFields : nat }.

(** The grid cell [(i,j,k)] of the element with index [id]. *)
Definition cellOf (n : nat) (id : Z) : nat * nat * nat :=
  let e := Z.to_nat id in (e mod n, (e / n) mod n, e / (n * n)).

(** The number of grid lines [1 .. n-1] at or below [t]. *)
Definition cellIndex (n : nat) (t : float) : nat :=
  length (List.filter (fun k => (toFloat k <=? t)%float) (seq 1 (n - 1))).

(** Linear shape functions on the unit interval and their derivatives. *)
Definition shape (a : nat) (t : float) : float :=
  match a with O => (1.0 - t)%float | _ => t end.

Definition dshape (a : nat) : float :=
  match a with O => (-1.0)%float | _ => 1.0%float end.

Definition gridBasis (n : nat) (u v w : float) (iel : Z) : ASMu3D.BasisDerivs :=
  let '(i, j, k) := cellOf n iel in
  let x := (u - toFloat i)%float in
  let y := (v - toFloat j)%float in
  let z := (w - toFloat k)%float in
  let loc := ASMu3D.tripleLoop 2 2 2 in
  ASMu3D.mkBasisDerivs
    ((fun '(a, b, c) => (shape a x * shape b y * shape c z)%float) <$> loc)
    ((fun '(a, b, c) => (dshape a * shape b y * shape c z)%float) <$> loc)
    ((fun '(a, b, c) => (shape a x * dshape b * shape c z)%float) <$> loc)
    ((fun '(a, b, c) => (shape a x * shape b y * dshape c)%float) <$> loc).

Definition gridContaining (n : nat) (u v w : float) : Z :=
  Z.of_nat (cellIndex n u + n * (cellIndex n v + n * cellIndex n w)).

Definition sumFloats (l : list float) : float :=
  foldl (fun acc x => (acc + x)%float) 0.0%float l.

(** The control point of function [fid], component [d]. *)
Definition controlPoint (lr : ASMu3D.LRSplineVolume) (fid d : nat) : float :=
  ASMu3D.controlPoints lr !!! (ASMu3D.dimension lr * fid + d).

Definition gridPoint (n : nat) (lr : ASMu3D.LRSplineVolume) (u v w : float) : RealArray :=
  let iel := gridContaining n u v w in
  let N := ASMu3D.basisValues (gridBasis n u v w iel) in
  (fun d => sumFloats (zip_with (fun Na fid => (Na * controlPoint lr fid d)%float) N
                                (ASMu3D.support (ASMu3D.getElement lr iel))))
    <$> seq 0 3.

Definition gridGaussParameters (n : nat) (dir : nat) (ng iel : Z) (xi : RealArray) : RealArray :=
  let '(i, j, k) := cellOf n (iel - 1) in
  let start := toFloat (match dir with 0 => i | 1 => j | _ => k end) in
  let stop := (start + 1.0)%float in
  (fun x => (0.5 * ((stop - start) * x + stop + start))%float) <$> take (Z.to_nat ng) xi.

(** The secondary solution: component [r] is [r * (u + 2 v + 3 w)]. *)
Definition sampleField (nCmp : nat) (par : ASMu3D.RealArray3) : Matrix :=
  let '(us, vs, ws) := par in
  mkMatrix nCmp (length us)
    (uvw ← zip us (zip vs ws);
     r ← seq 1 nCmp;
     [(toFloat r * (uvw.1 + 2.0 * uvw.2.1 + 3.0 * uvw.2.2))%float]).

Definition gridCoordinates (lr : ASMu3D.LRSplineVolume) (iel : Z) : option Matrix :=
  match ASMu3D.getAllElements lr !! Z.to_nat (iel - 1) with
  | None => None
  | Some el =>
      Some (mkMatrix 3 (length (ASMu3D.support el))
              (fid ← ASMu3D.support el; (controlPoint lr fid <$> seq 0 3)))
  end.

(** The entries and the determinant of [J = Xnod * dNdu] (three by three). *)
Definition jacobianEntry (dNdu Xnod : Matrix) (r c : nat) : float :=
  sumFloats ((fun a => (mat_at Xnod r a * mat_at dNdu a c)%float)
               <$> seq 1 (cols Xnod)).

Definition jacobianDet (dNdu Xnod : Matrix) : float :=
  let j11 := jacobianEntry dNdu Xnod 1 1 in
  let j12 := jacobianEntry dNdu Xnod 1 2 in
  let j13 := jacobianEntry dNdu Xnod 1 3 in
  let j21 := jacobianEntry dNdu Xnod 2 1 in
  let j22 := jacobianEntry dNdu Xnod 2 2 in
  let j23 := jacobianEntry dNdu Xnod 2 3 in
  let j31 := jacobianEntry dNdu Xnod 3 1 in
  let j32 := jacobianEntry dNdu Xnod 3 2 in
  let j33 := jacobianEntry dNdu Xnod 3 3 in
  (j11 * (j22 * j33 - j23 * j32)
   - j12 * (j21 * j33 - j23 * j31)
   + j13 * (j21 * j32 - j22 * j31))%float.

(** The area element of a face: the length of the cross product of the
    columns [t1] and [t2] of [J]. *)
Definition jacobianFace (Xnod dNdu : Matrix) (t1 t2 : Z) : float :=
  let a1 := jacobianEntry dNdu Xnod 1 (Z.to_nat t1) in
  let a2 := jacobianEntry dNdu Xnod 2 (Z.to_nat t1) in
  let a3 := jacobianEntry dNdu Xnod 3 (Z.to_nat t1) in
  let b1 := jacobianEntry dNdu Xnod 1 (Z.to_nat t2) in
  let b2 := jacobianEntry dNdu Xnod 2 (Z.to_nat t2) in
  let b3 := jacobianEntry dNdu Xnod 3 (Z.to_nat t2) in
  let c1 := (a2 * b3 - a3 * b2)%float in
  let c2 := (a3 * b1 - a1 * b3)%float in
  let c3 := (a1 * b2 - a2 * b1)%float in
  PrimFloat.sqrt (c1 * c1 + c2 * c2 + c3 * c3)%float.

(** Gauss-Jordan elimination with partial pivoting on the rows
    [(coefficients, right-hand sides)]; a zero pivot means a singular
    matrix and makes the solve fail. *)
Definition rowScale (c : float) (row : Vector * Vector) : Vector * Vector :=
  ((fun x => (x * c)%float) <$> row.1, (fun x => (x * c)%float) <$> row.2).

Definition rowSub (c : float) (piv row : Vector * Vector) : Vector * Vector :=
  (zip_with (fun x p => (x - c * p)%float) row.1 piv.1,
   zip_with (fun x p => (x - c * p)%float) row.2 piv.2).

Definition pivotRow (c : nat) (rws : list (Vector * Vector)) : nat :=
  foldl (fun best i =>
           if (PrimFloat.abs ((rws !!! best).1 !!! c)
               <? PrimFloat.abs ((rws !!! i).1 !!! c))%float
           then i else best)
        c (seq c (length rws - c)).

Definition eliminate (c : nat) (rws : list (Vector * Vector))
  : option (list (Vector * Vector)) :=
  let p := pivotRow c rws in
  let pv := (rws !!! p).1 !!! c in
  if (pv =? 0.0)%float || PrimFloat.is_nan pv then None
  else
    let piv := rowScale (1.0 / pv)%float (rws !!! p) in
    let swapped := <[p := rws !!! c]> rws in
    Some (imap (fun i row => if (i =? c)%nat then piv
                             else rowSub (row.1 !!! c) piv row)
               swapped).

Fixpoint gaussJordan (cs : list nat) (rws : list (Vector * Vector))
  : option (list (Vector * Vector)) :=
  match cs with
  | [] => Some rws
  | c :: cs' =>
      match eliminate c rws with
      | None => None
      | Some rws' => gaussJordan cs' rws'
      end
  end.

Definition matrixRow (M : Matrix) (r : nat) : Vector :=
  (fun c => mat_at M r c) <$> seq 1 (cols M).

Definition gridDenseSolve (A B : Matrix) : option Matrix :=
  match gaussJordan (seq 0 (rows A))
                    ((fun r => (matrixRow A r, matrixRow B r)) <$> seq 1 (rows A)) with
  | None => None
  | Some rws =>
      Some (mkMatrix (rows B) (cols B)
              (c ← seq 0 (cols B); ((fun row => row.2 !!! c) <$> rws)))
  end.

Definition gridSparseSolve (A : SparseMatrix) (B : Vector) : option Vector :=
  let n := sp_rows A in
  let nrhs := (length B / n)%nat in
  match gaussJordan (seq 0 n)
          ((fun r => ((fun c => sp_at A (Z.of_nat r) (Z.of_nat c)) <$> seq 1 n,
                      (fun j => vec_at B (r + n * j)) <$> seq 0 nrhs))
             <$> seq 1 n) with
  | None => None
  | Some rws => Some (c ← seq 0 nrhs; ((fun row => row.2 !!! c) <$> rws))
  end.

Definition gridKernel (n : nat) : ASMu3D.Collaborators sampleIntegrand := {|
  ASMu3D.derivativeOrder := dOrder;
  ASMu3D.getNoFields := nFields;
  ASMu3D.getCoord ng :=
    match ng with
    | 1%Z => Some [0.0%float]
    | 2%Z => Some [(-0.57735026918962573)%float; 0.57735026918962573%float]
    | _ => None
    end;
  ASMu3D.getWeight ng :=
    match ng with
    | 1%Z => Some [2.0%float]
    | 2%Z => Some [1.0%float; 1.0%float]
    | _ => None
    end;
  ASMu3D.point := gridPoint n;
  ASMu3D.computeBasis _ u v w iel := ASMu3D.basisValues (gridBasis n u v w iel);
  ASMu3D.computeBasisDerivs _ u v w iel := gridBasis n u v w iel;
  ASMu3D.getElementContaining _ := gridContaining n;
  ASMu3D.startparam _ _ := 0.0%float;
  ASMu3D.endparam _ _ := toFloat n;
  ASMu3D.getGaussPointParameters _ := gridGaussParameters n;
  ASMu3D.evalSolution _ integrand par := Some (sampleField (nFields integrand) par);
  ASMu3D.getElementCoordinates pch iel :=
    match ASMu3D.lrspline pch with
    | None => None
    | Some lr => gridCoordinates lr iel
    end;
  ASMu3D.getParametricVolume _ _ := 1.0%float;
  ASMu3D.getParametricArea _ _ _ := 1.0%float;
  ASMu3D.evaluateBasis _ iel u v w := ASMu3D.extractBasis (gridBasis n u v w iel);
  ASMu3D.Jacobian := jacobianDet;
  ASMu3D.JacobianFace := jacobianFace;
  ASMu3D.denseSolve := gridDenseSolve;
  ASMu3D.sparseSolve := gridSparseSolve
|}.

(** An integrand with first derivatives and one secondary component. *)
Definition fluxIntegrand : sampleIntegrand := mkIntegrand 1 1.

(** The grid volume declared rational. *)
Definition rationalGridPatch (n : nat) : ASMu3D.patch :=
  let lr := gridVolume n identityGeometry in
  ASMu3D.mkPatch
    (Some (ASMu3D.mkLRSplineVolume (ASMu3D.getAllBasisfunctions lr)
             (ASMu3D.getAllElements lr) (ASMu3D.order lr) true
             (ASMu3D.dimension lr) (ASMu3D.controlPoints lr)))
    2 (ASMu3D.MNPC (gridPatch n identityGeometry))
    (ASMu3D.getNoNodes (gridPatch n identityGeometry)).

(** Empty system matrices for a projection of [nc] components on the grid. *)
Definition emptySystem (n nc : nat) : SparseMatrix * Vector :=
  (sp_resize ((n + 1) * (n + 1) * (n + 1)) ((n + 1) * (n + 1) * (n + 1)),
   replicate (nc * ((n + 1) * (n + 1) * (n + 1))) 0.0%float).

(** The face [v = 0] of the grid: its elements, its nodes, and for every
    face element the position of each element node among the face nodes
    (-1 off the face). *)
Definition onSouthFace (ijk : nat * nat * nat) : bool :=
  let '(_, j, _) := ijk in (j =? 0)%nat.

Definition positionIn (l : list nat) (x : nat) : Z :=
  match list_find (fun y => y = x) l with
  | Some (i, _) => Z.of_nat i
  | None => (-1)%Z
  end.

Definition southFace (n : nat) : ASMu3D.DirichletFace :=
  let nodes := vertexId n <$> List.filter onSouthFace
                                (ASMu3D.tripleLoop (n + 1) (n + 1) (n + 1)) in
  let els := gridElement n <$> List.filter onSouthFace (ASMu3D.tripleLoop n n n) in
  ASMu3D.mkDirichletFace None ASMu3D.SOUTH
    ((fun el => Z.of_nat (ASMu3D.getId el)) <$> els)
    (Z.of_nat <$> nodes)
    ((fun el => positionIn nodes <$> ASMu3D.support el) <$> els).

(** The boundary function [x + 2 y + 3 z]. *)
Definition linearFunction : ASMu3D.FunctionBase :=
  ASMu3D.mkFunctionBase 1
    (fun X => [(ASMu3D.xyz X !!! 0%nat + 2.0 * ASMu3D.xyz X !!! 1%nat
                + 3.0 * ASMu3D.xyz X !!! 2%nat)%float]).

End Samples.

(** * Properties *)

(** ** Binary64 arithmetic *)

Module FloatFacts.

Lemma SFmul_comm (x y : spec_float) : SF64mul x y = SF64mul y x.
Proof.
  destruct x as [sx|sx| |sx mx ex], y as [sy|sy| |sy my ey]; cbn;
    rewrite ?(xorb_comm sx sy); try reflexivity.
  now rewrite Pos.mul_comm, Z.add_comm.
Qed.

Lemma mul_comm (x y : float) : (x * y = y * x)%float.
Proof. apply Prim2SF_inj. now rewrite !mul_spec, SFmul_comm. Qed.

Lemma is_zero_SF (x : float) :
  is_zero x = true <-> exists s, Prim2SF x = S754_zero s.
Proof.
  unfold is_zero. rewrite FloatAxioms.eqb_spec.
  change (Prim2SF PrimFloat.zero) with (S754_zero false).
  destruct (Prim2SF x) as [s|s| |s m e]; cbn; split;
    try discriminate; try (intros [? ?]; discriminate); eauto.
  - now destruct s.
  - now destruct s.
Qed.

Lemma is_finite_SF (c : float) :
  is_finite c = true ->
  (exists s, Prim2SF c = S754_zero s)
  \/ (exists s m e, Prim2SF c = S754_finite s m e).
Proof.
  unfold is_finite, is_nan, is_infinity.
  rewrite !FloatAxioms.eqb_spec, abs_spec.
  change (Prim2SF PrimFloat.infinity) with (S754_infinity false).
  destruct (Prim2SF c) as [s|s| |s m e]; cbn.
  - eauto.
  - destruct s; cbn; discriminate.
  - discriminate.
  - intros _. right. eauto.
Qed.

Lemma is_zero_mul_l (x c : float) :
  is_zero x = true -> is_finite c = true -> is_zero (x * c) = true.
Proof.
  intros [s Hx]%is_zero_SF Hc%is_finite_SF. apply is_zero_SF.
  rewrite mul_spec, Hx.
  destruct Hc as [[s' ->]|(s' & m & e & ->)]; cbn; eauto.
Qed.

Lemma is_zero_mul_r (c x : float) :
  is_finite c = true -> is_zero x = true -> is_zero (c * x) = true.
Proof. intros Hc Hx. rewrite mul_comm. now apply is_zero_mul_l. Qed.

Lemma is_zero_add (x y : float) :
  is_zero x = true -> is_zero y = true -> is_zero (x + y) = true.
Proof.
  intros [s Hx]%is_zero_SF [s' Hy]%is_zero_SF. apply is_zero_SF.
  rewrite add_spec, Hx, Hy. destruct s, s'; cbn; eauto.
Qed.

End FloatFacts.

(** ** Vectors and matrices *)

Module LinAlgFacts.

Lemma length_vscale c v : length (vscale c v) = length v.
Proof. unfold vscale. now rewrite length_fmap. Qed.

Lemma length_vadd X alfa y : length (vadd X alfa y) = length y.
Proof.
  revert X. induction y as [|yi y IH]; intros [|xi X]; cbn; auto.
Qed.

(** Scaling and then adding a scaled vector of the same size combines the
    entries pairwise. *)
Lemma vadd_vscale (c alfa : float) (v X : Vector) :
  length X = length v ->
  vadd X alfa (vscale c v)
  = zip_with (fun vi xi => (vi * c + alfa * xi)%float) v X.
Proof.
  revert X. induction v as [|vi v IH]; intros [|xi X] Hlen; cbn in *;
    try discriminate; auto.
  f_equal. apply IH. lia.
Qed.

Lemma vscale_zip_with {A B} (f : A -> B -> float) c (l : list A) (k : list B) :
  vscale c (zip_with f l k) = zip_with (fun a b => (f a b * c)%float) l k.
Proof.
  revert k. induction l as [|a l IH]; intros [|b k]; cbn; auto.
  f_equal. apply IH.
Qed.

Lemma zip_with_pointwise {A B C} (f g : A -> B -> C) (l : list A) (k : list B) :
  (forall a b, f a b = g a b) -> zip_with f l k = zip_with g l k.
Proof.
  intros Hfg. revert k. induction l as [|a l IH]; intros [|b k]; cbn; auto.
  now rewrite Hfg, IH.
Qed.

Lemma zip_with_swap {A B C} (f : A -> B -> C) (l : list A) (k : list B) :
  zip_with f l k = zip_with (fun b a => f a b) k l.
Proof.
  revert k. induction l as [|a l IH]; intros [|b k]; cbn; auto.
  now rewrite IH.
Qed.

(** Copying a vector onto one of the same size replaces it. *)
Lemma std_copy_same_size (src dst : Vector) :
  length src = length dst -> std_copy src dst = src.
Proof.
  intros Hlen. unfold std_copy.
  rewrite take_ge, drop_ge by lia. apply app_nil_r.
Qed.

Lemma all_zero_Forall (v : Vector) :
  all_zero v = true <-> Forall (fun x => is_zero x = true) v.
Proof.
  unfold all_zero. induction v as [|x v IH]; cbn.
  - split; auto.
  - rewrite andb_true_iff, IH, Forall_cons. tauto.
Qed.

Lemma all_zero_zip_with (f : float -> float -> float) (v a : Vector) :
  (forall x y, is_zero x = true -> is_zero y = true -> is_zero (f x y) = true) ->
  all_zero v = true -> all_zero a = true -> all_zero (zip_with f v a) = true.
Proof.
  intros Hf. rewrite !all_zero_Forall. intros Hv. revert a.
  induction Hv as [|x v Hx Hv IH]; intros [|y a] Ha; cbn;
    try solve [constructor].
  inversion Ha; subst.
  constructor; [apply Hf; assumption | apply IH; assumption].
Qed.

End LinAlgFacts.

(** ** NewmarkMats.C *)

Module NewmarkMatsFacts.
Import NewmarkMats.

Lemma slvDisp_constructor (a1 a2 b0 c : float) (generalizedAlpha : bool) :
  slvDisp (NewmarkMats a1 a2 b0 c generalizedAlpha) = (b0 <? 0.0)%float.
Proof. now destruct generalizedAlpha. Qed.

Lemma getNewtonMatrix_stores (m : t) (A0 M K : Matrix) (rest : list Matrix) :
  A m = A0 :: M :: K :: rest ->
  A (getNewtonMatrix m).2 = (getNewtonMatrix m).1 :: M :: K :: rest.
Proof. intros HA. unfold getNewtonMatrix. cbn. now rewrite HA. Qed.

(** C2: the Newton matrix returned by [getNewtonMatrix] has the shape of the
    stored mass matrix [M = A[1]] and holds, entry by entry,
    [(alpha_m + alpha_f*alpha1*gamma*h)*M + alpha_f*(alpha2*gamma + beta*h)*h*K]
    with [K = A[2]] the stored stiffness matrix, multiplied by
    [1/(beta*h*h)] when [slvDisp] is set; the constructor sets [slvDisp]
    exactly when its argument [b] is negative.  [M] and [K] stay as stored. *)
Theorem getNewtonMatrix_effective_tangent
  (m : t) (A0 M K : Matrix) (rest : list Matrix) :
  A m = A0 :: M :: K :: rest ->
  length (elem K) = length (elem M) ->
  (getNewtonMatrix m).1
  = mkMatrix (rows M) (cols M) (zip_with (newtonEntry m) (elem M) (elem K))
  /\ A (getNewtonMatrix m).2 = (getNewtonMatrix m).1 :: M :: K :: rest
  /\ (forall a1 a2 b0 c ga,
        slvDisp (NewmarkMats a1 a2 b0 c ga) = (b0 <? 0.0)%float).
Proof.
  intros HA Hlen. split; [|split].
  - unfold getNewtonMatrix. rewrite HA. cbn [fst].
    change ((A0 :: M :: K :: rest) !!! 1%nat) with M.
    change ((A0 :: M :: K :: rest) !!! 2%nat) with K.
    unfold newtonEntry.
    destruct (slvDisp m); unfold mmultiply, madd;
      cbn [rows cols elem insert list_insert lookup_total list_lookup_total];
      f_equal.
    + rewrite LinAlgFacts.vadd_vscale by assumption.
      rewrite LinAlgFacts.vscale_zip_with.
      apply LinAlgFacts.zip_with_pointwise. intros mass stiff.
      now rewrite (FloatFacts.mul_comm mass).
    + rewrite LinAlgFacts.vadd_vscale by assumption.
      apply LinAlgFacts.zip_with_pointwise. intros mass stiff.
      now rewrite (FloatFacts.mul_comm mass).
  - exact (getNewtonMatrix_stores m A0 M K rest HA).
  - apply slvDisp_constructor.
Qed.

(** The theorem at a two by two element, Newmark constants
    [beta = 0.25], [gamma = 0.5], [h = 0.5], displacement increments as
    unknowns. *)
Lemma getNewtonMatrix_effective_tangent_witness :
  let m := setStepSize 0.5%float
             (withMatrices [emptyMatrix; Samples.sampleMass; Samples.sampleStiffness]
                           (NewmarkMats 0.0 0.0 (-0.25) 0.5 false)%float) in
  (getNewtonMatrix m).1
  = mkMatrix 2 2 (zip_with (newtonEntry m) (elem Samples.sampleMass) (elem Samples.sampleStiffness))
  /\ A (getNewtonMatrix m).2
     = [(getNewtonMatrix m).1; Samples.sampleMass; Samples.sampleStiffness]
  /\ (forall a1 a2 b0 c ga,
        slvDisp (NewmarkMats a1 a2 b0 c ga) = (b0 <? 0.0)%float).
Proof.
  exact (getNewtonMatrix_effective_tangent
           (setStepSize 0.5%float
              (withMatrices [emptyMatrix; Samples.sampleMass; Samples.sampleStiffness]
                            (NewmarkMats 0.0 0.0 (-0.25) 0.5 false)%float))
           emptyMatrix Samples.sampleMass Samples.sampleStiffness [] eq_refl eq_refl).
Defined.

(** The same element evaluated: [N = (M + 0.0625*K) * 16]. *)
Example getNewtonMatrix_sample :
  (getNewtonMatrix
     (setStepSize 0.5%float
        (withMatrices [emptyMatrix; Samples.sampleMass; Samples.sampleStiffness]
                      (NewmarkMats 0.0 0.0 (-0.25) 0.5 false)%float))).1
  = mkMatrix 2 2 [36.0; -1.0; -1.0; 36.0]%float.
Proof. vm_compute. reflexivity. Qed.

End NewmarkMatsFacts.

(** ** NewmarkNLSIM.C *)

Module NewmarkNLSIMFacts.
Import NewmarkNLSIM.

Section Facts.
Context {SIMbase : Type} `{!Driver SIMbase}.

Implicit Types (s : state SIMbase) (param : TimeStep) (sol : Vectors).

(** C10: with fewer than three vectors in the solution history both
    [predictStep] and [correctStep] return [false] and leave the whole
    object (solution vectors, incremental displacement, predicted velocity
    and acceleration, and everything else) as it was. *)
Theorem short_history_is_rejected s param (converged : bool) :
  length (solution s) < 3 ->
  predictStep s param = (false, s)
  /\ correctStep s param converged = (false, s).
Proof.
  intros Hlen. unfold predictStep, correctStep.
  destruct (Nat.ltb_spec (length (solution s)) 3) as [_|Hge]; [auto|lia].
Qed.

(** *** advanceStep *)

Lemma to_int_size_sub (n : nat) :
  (Z.of_nat n < 2 ^ 31)%Z ->
  Z.to_nat (to_int (size_t_sub (Z.of_nat n) 3)) = n - 3.
Proof.
  intros Hn. unfold to_int, size_t_sub.
  destruct (decide (3 <= n)) as [Hge|Hlt].
  - rewrite (Z.mod_small (Z.of_nat n - 3)) by lia.
    rewrite Z.mod_small by lia. lia.
  - assert (Hn3 : n - 3 = 0) by lia. rewrite Hn3.
    assert (Hcases : n = 0 \/ n = 1 \/ n = 2) by lia.
    destruct Hcases as [->|[->| ->]]; reflexivity.
Qed.

Lemma shiftHistory_length (n : nat) sol :
  length (shiftHistory n sol) = length sol.
Proof.
  revert sol. induction n as [|n IH]; intros sol; cbn; [done|].
  now rewrite IH, length_insert.
Qed.

(** Outside the range [1..n] the history is untouched. *)
Lemma shiftHistory_outside (n : nat) sol (k : nat) :
  k = 0 \/ n < k -> shiftHistory n sol !! k = sol !! k.
Proof.
  revert sol. induction n as [|n IH]; intros sol Hk; cbn; [done|].
  rewrite IH by lia. apply list_lookup_insert_ne. lia.
Qed.

(** Inside the range, entry [k] receives the old entry [k-1]. *)
Lemma shiftHistory_inside (n : nat) sol (k : nat) :
  n < length sol -> 1 <= k <= n ->
  shiftHistory n sol !! k
  = Some (std_copy (sol !!! (k - 1)) (sol !!! k)).
Proof.
  revert sol. induction n as [|n IH]; intros sol Hn Hk; cbn; [lia|].
  destruct (decide (k = S n)) as [->|Hne].
  - rewrite shiftHistory_outside by lia.
    rewrite list_lookup_insert_eq by lia.
    now replace (S n - 1) with n by lia.
  - rewrite IH by (rewrite ?length_insert; lia).
    now rewrite !list_lookup_total_insert_ne by lia.
Qed.

(** C9: [advanceStep] shifts the displacement part of the history only:
    every entry [n] with [1 <= n <= size-3] receives the old entry [n-1],
    entry 0 and the last two entries (velocity and acceleration) keep their
    contents, nothing else in the object changes, and the value returned is
    that of [param.increment()] when [updateTime] is set and [true]
    otherwise.  (The history holds fewer than 2^31 vectors, all of the same
    size, as [init] creates them.) *)
Theorem advanceStep_shifts_displacements
  s param (updateTime : bool) (nDOFs : nat) :
  (Z.of_nat (length (solution s)) < 2 ^ 31)%Z ->
  Forall (fun v => length v = nDOFs) (solution s) ->
  let r := advanceStep s param updateTime in
  let sol' := solution r.1.2 in
  length sol' = length (solution s)
  /\ (forall n, 1 <= n -> n + 3 <= length (solution s) ->
        sol' !! n = solution s !! (n - 1))
  /\ sol' !! 0 = solution s !! 0
  /\ (forall n, length (solution s) - 2 <= n -> sol' !! n = solution s !! n)
  /\ r.1.2 = withHistory sol' s
  /\ r.1.1 = (if updateTime then (increment param).1 else true)
  /\ r.2 = (if updateTime then (increment param).2 else param).
Proof.
  intros Hsize Hdofs r sol'.
  assert (Hsol : sol' = shiftHistory (length (solution s) - 3) (solution s)).
  { subst sol' r. unfold advanceStep. rewrite to_int_size_sub by assumption.
    destruct updateTime; [destruct (increment param)|]; reflexivity. }
  repeat split.
  - rewrite Hsol. apply shiftHistory_length.
  - intros n Hn1 Hn3. rewrite Hsol, shiftHistory_inside by lia.
    destruct (lookup_lt_is_Some_2 (solution s) (n - 1)) as [src Hsrc]; [lia|].
    destruct (lookup_lt_is_Some_2 (solution s) n) as [dst Hdst]; [lia|].
    rewrite (list_lookup_total_correct _ _ _ Hsrc).
    rewrite (list_lookup_total_correct _ _ _ Hdst).
    rewrite Hsrc. f_equal. apply LinAlgFacts.std_copy_same_size.
    rewrite Forall_lookup in Hdofs.
    now rewrite (Hdofs _ _ Hsrc), (Hdofs _ _ Hdst).
  - rewrite Hsol. apply shiftHistory_outside. now left.
  - intros n Hn. rewrite Hsol.
    destruct (decide (n = 0)) as [->|Hn0].
    + apply shiftHistory_outside. now left.
    + apply shiftHistory_outside. right. lia.
  - subst sol' r. unfold advanceStep.
    destruct updateTime; [destruct (increment param)|]; reflexivity.
  - subst r. unfold advanceStep.
    destruct updateTime; [destruct (increment param)|]; reflexivity.
  - subst r. unfold advanceStep.
    destruct updateTime; [destruct (increment param)|]; reflexivity.
Qed.

(** *** predictStep *)

(** The predicted velocity and acceleration vanish on vanishing data as
    soon as the four scale factors of the recurrences are finite. *)
Lemma predicted_zero (bet gam h : float) (v a : Vector) :
  is_finite (gam / bet - 1.0)%float = true ->
  is_finite ((0.5 * gam / bet - 1.0) * h)%float = true ->
  is_finite (0.5 / bet - 1.0)%float = true ->
  is_finite (1.0 / (bet * h))%float = true ->
  all_zero v = true -> all_zero a = true ->
  all_zero (zip_with (predictedVelocity bet gam h) v a) = true
  /\ all_zero (zip_with (predictedAcceleration bet gam h) v a) = true.
Proof.
  intros F1 F2 F3 F4 Hv Ha. split.
  - apply LinAlgFacts.all_zero_zip_with; auto.
    intros x y Hx Hy. unfold predictedVelocity.
    apply FloatFacts.is_zero_add; now apply FloatFacts.is_zero_mul_r.
  - apply LinAlgFacts.all_zero_zip_with; auto.
    intros x y Hx Hy. unfold predictedAcceleration.
    apply FloatFacts.is_zero_add; now apply FloatFacts.is_zero_mul_r.
Qed.

(** C4 (amended): on a history of at least three vectors whose velocity
    [v] and acceleration [a] have the same size, [predictStep] returns
    [true], stores the predicted velocity
    [(gamma/beta - 1)*v + (0.5*gamma/beta - 1)*dt*a] and the predicted
    acceleration [(0.5/beta - 1)*a + (1/(beta*dt))*v] (both from the old
    [v] and [a]) in the last two vectors of the history, keeps their
    negatives in [predVel] and [predAcc], and clears [incDis].  When the
    four scale factors are finite numbers (as for the default
    [beta], [gamma] and [dt = 0.1]), a vanishing [v] and [a] give a vanishing
    predicted velocity and acceleration. *)
Theorem predictStep_recurrences s param (v a : Vector) :
  3 <= length (solution s) ->
  solution s !! (length (solution s) - 2) = Some v ->
  solution s !! (length (solution s) - 1) = Some a ->
  length v = length a ->
  let h := dt (time param) in
  let newVel := zip_with (predictedVelocity (beta s) (gamma s) h) v a in
  let newAcc := zip_with (predictedAcceleration (beta s) (gamma s) h) v a in
  let r := predictStep s param in
  r.1 = true
  /\ solution r.2 !! (length (solution s) - 2) = Some newVel
  /\ solution r.2 !! (length (solution s) - 1) = Some newAcc
  /\ predVel r.2 = vscale (-1.0)%float newVel
  /\ predAcc r.2 = vscale (-1.0)%float newAcc
  /\ incDis r.2 = vfill 0.0%float (incDis s)
  /\ (is_finite (gamma s / beta s - 1.0)%float = true ->
      is_finite ((0.5 * gamma s / beta s - 1.0) * h)%float = true ->
      is_finite (0.5 / beta s - 1.0)%float = true ->
      is_finite (1.0 / (beta s * h))%float = true ->
      all_zero v = true -> all_zero a = true ->
      all_zero newVel = true /\ all_zero newAcc = true).
Proof.
  intros Hlen Hv Ha Hva h newVel newAcc r.
  assert (HpV : vadd a ((0.5 * gamma s / beta s - 1.0) * h)%float
                     (vscale (gamma s / beta s - 1.0)%float v) = newVel).
  { rewrite LinAlgFacts.vadd_vscale by lia.
    apply LinAlgFacts.zip_with_pointwise. intros x y.
    unfold predictedVelocity. now rewrite (FloatFacts.mul_comm x). }
  assert (HpA : vadd v (1.0 / (beta s * h))%float
                     (vscale (0.5 / beta s - 1.0)%float a) = newAcc).
  { rewrite LinAlgFacts.vadd_vscale by lia. subst newAcc.
    rewrite (LinAlgFacts.zip_with_swap _ v a).
    apply LinAlgFacts.zip_with_pointwise. intros y x.
    unfold predictedAcceleration. now rewrite (FloatFacts.mul_comm y). }
  assert (Hr : r = (true,
                    mk (model s)
                       (<[length (solution s) - 1 := newAcc]>
                          (<[length (solution s) - 2 := newVel]> (solution s)))
                       (linsol s) (vfill 0.0%float (incDis s))
                       (vscale (-1.0)%float newVel) (vscale (-1.0)%float newAcc)
                       (Finert s) (beta s) (gamma s) (predictor s))).
  { subst r. unfold predictStep.
    destruct (Nat.ltb_spec (length (solution s)) 3) as [Hlt|_]; [lia|].
    rewrite (list_lookup_total_correct _ _ _ Hv).
    rewrite (list_lookup_total_correct _ _ _ Ha).
    fold h. now rewrite HpV, HpA. }
  rewrite Hr. cbn [fst snd solution predVel predAcc incDis].
  repeat split.
  - rewrite list_lookup_insert_ne by lia.
    apply list_lookup_insert_eq. lia.
  - apply list_lookup_insert_eq. rewrite length_insert. lia.
  - intros. now apply predicted_zero.
  - intros. now apply predicted_zero.
Qed.

End Facts.

(** C10 on a history of two vectors. *)
Lemma short_history_is_rejected_witness :
  predictStep (Samples.driverWith [[1.0; 2.0]; [0.0; 0.0]]%float)
              (Samples.stepOf 0.1%float)
  = (false, Samples.driverWith [[1.0; 2.0]; [0.0; 0.0]]%float)
  /\ correctStep (Samples.driverWith [[1.0; 2.0]; [0.0; 0.0]]%float)
                 (Samples.stepOf 0.1%float) true
     = (false, Samples.driverWith [[1.0; 2.0]; [0.0; 0.0]]%float).
Proof.
  apply (short_history_is_rejected
           (Samples.driverWith [[1.0; 2.0]; [0.0; 0.0]]%float)
           (Samples.stepOf 0.1%float) true).
  cbn. lia.
Defined.

(** C9 on a history of three displacement states, velocity and
    acceleration: the displacements move one place down, the rest stays. *)
Lemma advanceStep_shifts_displacements_witness :
  let r := advanceStep (Samples.driverWith Samples.movingHistory)
                       (Samples.stepOf 0.1%float) true in
  solution r.1.2
  = [[1.0; 2.0]; [1.0; 2.0]; [3.0; 4.0]; [0.5; 0.5]; [0.25; -0.25]]%float
  /\ r.1.1 = true.
Proof.
  pose proof (advanceStep_shifts_displacements
                (Samples.driverWith Samples.movingHistory)
                (Samples.stepOf 0.1%float) true 2) as H.
  cbv zeta in H.
  destruct H as (Hlen & Hshift & H0 & Hlast & _ & Hret & _).
  - cbn. lia.
  - repeat constructor.
  - split; [|exact Hret].
    apply list_eq. intros [|[|[|[|[|n]]]]].
    + exact H0.
    + apply (Hshift 1); cbn; lia.
    + apply (Hshift 2); cbn; lia.
    + apply (Hlast 3); cbn; lia.
    + apply (Hlast 4); cbn; lia.
    + rewrite (Hlast (S (S (S (S (S n)))))); [reflexivity | cbn; lia].
Defined.

(** C4 (amended) on the history at rest, with the default [beta], [gamma]
    and [dt = 0.1]: the predicted velocity and acceleration vanish. *)
Lemma predictStep_recurrences_witness :
  let r := predictStep (Samples.driverWith Samples.restHistory)
                       (Samples.stepOf 0.1%float) in
  r.1 = true
  /\ all_zero (solution r.2 !!! 1%nat) = true
  /\ all_zero (solution r.2 !!! 2%nat) = true.
Proof.
  pose proof (predictStep_recurrences
                (Samples.driverWith Samples.restHistory)
                (Samples.stepOf 0.1%float)
                [0.0; 0.0]%float [0.0; 0.0]%float) as H.
  cbv zeta in H.
  destruct H as (Hret & Hvel & Hacc & _ & _ & _ & Hzero).
  - cbn. lia.
  - reflexivity.
  - reflexivity.
  - reflexivity.
  - destruct Hzero as [Hzv Hza]; try (vm_compute; reflexivity).
    split; [exact Hret|].
    rewrite (list_lookup_total_correct _ _ _ Hvel).
    rewrite (list_lookup_total_correct _ _ _ Hacc).
    split; assumption.
Defined.

(** C4 as stated fails: the acceleration predicted from the history at rest
    is not a number when the time step size is zero, and also for the
    positive step size [1e-310], for which [1/(beta*dt)] overflows. *)
Lemma predictStep_zero_history_counterexample :
  all_zero (Samples.restHistory !!! 1%nat) = true
  /\ all_zero (Samples.restHistory !!! 2%nat) = true
  /\ solution (predictStep (Samples.driverWith Samples.restHistory)
                           (Samples.stepOf 0.0%float)).2 !!! 2%nat
     = [nan; nan]
  /\ solution (predictStep (Samples.driverWith Samples.restHistory)
                           (Samples.stepOf 1e-310%float)).2 !!! 2%nat
     = [nan; nan]
  /\ ~ (forall h : float,
         all_zero (solution (predictStep
                               (Samples.driverWith Samples.restHistory)
                               (Samples.stepOf h)).2 !!! 2%nat) = true).
Proof.
  repeat split; try (vm_compute; reflexivity).
  intros H. specialize (H 0.0%float). vm_compute in H. discriminate.
Qed.

End NewmarkNLSIMFacts.

(** ** ASMu3Drecovery.C *)

Module ASMu3DFacts.
Import ASMu3D.

(** *** getGrevilleParameters *)

(** C8 (amended): for a patch with a spline object and [dir] in {0,1,2},
    [getGrevilleParameters] returns [true] and leaves exactly
    [nBasisFunctions()] values in the array, the [i]-th being component
    [dir] of the Greville parameter of the [i]-th basis function in the
    enumeration order of the spline (no order among the values follows);
    without a spline or for [dir] outside {0,1,2} it returns [false] (and
    does not touch the array). *)
Theorem getGrevilleParameters_values (pch : patch) (prm : RealArray) (dir : Z) :
  (forall lr, lrspline pch = Some lr -> (0 <= dir <= 2)%Z ->
     (getGrevilleParameters pch prm dir).1 = true
     /\ length (getGrevilleParameters pch prm dir).2 = nBasisFunctions lr
     /\ (forall i b, getAllBasisfunctions lr !! i = Some b ->
           (getGrevilleParameters pch prm dir).2 !! i
           = Some (getGrevilleParameter b !!! Z.to_nat dir)))
  /\ (lrspline pch = None \/ (dir < 0)%Z \/ (2 < dir)%Z ->
      getGrevilleParameters pch prm dir = (false, prm)).
Proof.
  unfold getGrevilleParameters. split.
  - intros lr -> Hdir.
    destruct (Z.ltb_spec dir 0) as [?|_]; [lia|].
    destruct (Z.gtb_spec dir 2) as [?|_]; [lia|].
    cbn. split; [reflexivity|]. split.
    + unfold nBasisFunctions. apply length_fmap.
    + intros i b Hb. now rewrite list_lookup_fmap, Hb.
  - intros [-> | Hdir]; [reflexivity|].
    destruct (lrspline pch) as [lr|]; [|reflexivity].
    destruct (Z.ltb_spec dir 0) as [?|?]; [reflexivity|].
    destruct (Z.gtb_spec dir 2) as [?|?]; [reflexivity|lia].
Qed.

(** C8 (amended) on the single-element trilinear volume, direction 1, and
    for the direction 3 that does not exist. *)
Lemma getGrevilleParameters_values_witness :
  let pch := Samples.gridPatch 1 Samples.identityGeometry in
  ((getGrevilleParameters pch [] 1).1 = true
   /\ length (getGrevilleParameters pch [] 1).2 = 8
   /\ (getGrevilleParameters pch [] 1).2 !! 2%nat = Some 1.0%float)
  /\ getGrevilleParameters pch [5.0%float] 3 = (false, [5.0%float]).
Proof.
  intros pch.
  destruct (getGrevilleParameters_values pch [] 1) as [Hin _].
  destruct (getGrevilleParameters_values pch [5.0%float] 3) as [_ Hout].
  destruct (Hin _ eq_refl) as (Hret & Hlen & Hval); [lia|].
  split; [|apply Hout; right; right; lia].
  split; [exact Hret|]. split; [exact Hlen|].
  exact (Hval 2%nat _ eq_refl).
Defined.

(** C8 as stated fails: on the single-element trilinear volume the values
    returned for direction 0 go up and down. *)
Lemma getGrevilleParameters_not_monotone :
  getGrevilleParameters (Samples.gridPatch 1 Samples.identityGeometry) [] 0
  = (true, [0.0; 1.0; 0.0; 1.0; 0.0; 1.0; 0.0; 1.0]%float)
  /\ nondecreasing
       (getGrevilleParameters (Samples.gridPatch 1 Samples.identityGeometry)
                              [] 0).2 = false.
Proof. split; vm_compute; reflexivity. Qed.

Section Facts.
Context {Integrand : Type} `{!Collaborators Integrand}.

(** *** regularInterpolation *)

(** C5: [regularInterpolation] returns [nullptr] when the spline is
    rational, and when the size of one of the three parameter arrays or the
    number of columns of the sample-point matrix differs from
    [nBasisFunctions()].  This holds for every behaviour of the
    collaborators, also for a solver that never fails: the result does not
    come out of an interpolation. *)
Theorem regularInterpolation_rejects
  (pch : patch) (lr : LRSplineVolume) (upar vpar wpar : RealArray)
  (points : Matrix) :
  lrspline pch = Some lr ->
  rational lr = true
  \/ length upar <> nBasisFunctions lr
  \/ length vpar <> nBasisFunctions lr
  \/ length wpar <> nBasisFunctions lr
  \/ cols points <> nBasisFunctions lr ->
  regularInterpolation pch upar vpar wpar points = None.
Proof.
  intros Hlr Hbad. unfold regularInterpolation. rewrite Hlr.
  destruct (rational lr); [reflexivity|].
  destruct Hbad as [Hr|Hsize]; [discriminate|].
  destruct (Nat.eqb_spec (length upar) (nBasisFunctions lr)) as [Hu|?];
    [|reflexivity].
  destruct (Nat.eqb_spec (length vpar) (nBasisFunctions lr)) as [Hv|?];
    [|reflexivity].
  destruct (Nat.eqb_spec (length wpar) (nBasisFunctions lr)) as [Hw|?];
    [|reflexivity].
  destruct (Nat.eqb_spec (cols points) (nBasisFunctions lr)) as [Hp|?];
    [|reflexivity].
  tauto.
Qed.

(** A failing global solve makes [regularInterpolation] return [nullptr]. *)
Lemma regularInterpolation_singular
  (pch : patch) (lr : LRSplineVolume) (upar vpar wpar : RealArray)
  (points : Matrix) :
  lrspline pch = Some lr ->
  sparseSolve (interpolationMatrix lr upar vpar wpar) (elem (transposed points))
  = None ->
  regularInterpolation pch upar vpar wpar points = None.
Proof.
  intros Hlr Hsolve. unfold regularInterpolation. rewrite Hlr, Hsolve.
  destruct (rational lr); [reflexivity|].
  now destruct (_ || _).
Qed.

(** *** scRecovery *)

Lemma scBasisfunction_counter pch lr integrand prm b st st' :
  scBasisfunction pch lr integrand prm b st = Some st' -> st'.1 = S st.1.
Proof.
  unfold scBasisfunction. destruct st as [ip sValues].
  destruct (scLocalSystem _ _ _ _ _ _) as [[A B]|]; [|discriminate].
  destruct (denseSolve A B); [|discriminate].
  now intros [= <-].
Qed.

(** The loop over the basis functions stops with a failure as soon as one
    local system cannot be solved. *)
Lemma scBasisLoop_singular pch lr integrand prm bs st (i : nat) b A B :
  bs !! i = Some b ->
  scLocalSystem pch lr integrand prm (st.1 + i) b = Some (A, B) ->
  denseSolve A B = None ->
  scBasisLoop pch lr integrand prm bs st = None.
Proof.
  revert st i. induction bs as [|b0 bs IH]; intros st i Hb Hsys Hsolve;
    [discriminate|].
  cbn [scBasisLoop].
  destruct (scBasisfunction pch lr integrand prm b0 st) as [st'|] eqn:Hstep;
    [|reflexivity].
  destruct i as [|i].
  - injection Hb as ->. exfalso. revert Hstep.
    unfold scBasisfunction. destruct st as [ip sValues]. cbn [fst] in Hsys.
    rewrite Nat.add_0_r in Hsys. rewrite Hsys, Hsolve. discriminate.
  - apply (IH st' i); [exact Hb| |exact Hsolve].
    rewrite (scBasisfunction_counter _ _ _ _ _ _ _ Hstep).
    now replace (S st.1 + i) with (st.1 + S i) by lia.
Qed.

(** C6: a solve that fails makes the whole projection fail.  If the local
    system of some basis function (the [ip]-th) cannot be solved,
    [scRecovery] returns [nullptr]; if the global interpolation system
    cannot be solved, [regularInterpolation] returns [nullptr], and so do
    [scRecovery] and [projectSolution], which end with that call on the
    Greville parameters (here for a global matrix that is singular, whose
    solve fails for every right-hand side). *)
Theorem singular_system_fails_projection
  (pch : patch) (lr : LRSplineVolume) (integrand : Integrand) :
  lrspline pch = Some lr ->
  (forall prm ip b A B,
      scSetup pch lr integrand = Some prm ->
      getAllBasisfunctions lr !! ip = Some b ->
      scLocalSystem pch lr integrand prm ip b = Some (A, B) ->
      denseSolve A B = None ->
      scRecovery pch integrand = None)
  /\ (forall upar vpar wpar points,
        sparseSolve (interpolationMatrix lr upar vpar wpar)
                    (elem (transposed points)) = None ->
        regularInterpolation pch upar vpar wpar points = None)
  /\ ((forall rhs,
         sparseSolve (interpolationMatrix lr
                        (getGrevilleParameters pch [] 0).2
                        (getGrevilleParameters pch [] 1).2
                        (getGrevilleParameters pch [] 2).2) rhs = None) ->
      scRecovery pch integrand = None
      /\ projectSolution pch integrand = None).
Proof.
  intros Hlr. split; [|split].
  - intros prm ip b A B Hprm Hb Hsys Hsolve.
    unfold scRecovery. rewrite Hlr, Hprm. cbn [mbind option_bind].
    now rewrite (scBasisLoop_singular _ _ _ _ _ (0%nat, _) ip b A B Hb Hsys Hsolve).
  - intros upar vpar wpar points Hsolve.
    exact (regularInterpolation_singular pch lr _ _ _ _ Hlr Hsolve).
  - intros Hsing. split.
    + unfold scRecovery. rewrite Hlr.
      destruct (scSetup pch lr integrand) as [prm|] eqn:Hprm; [|reflexivity].
      cbn [mbind option_bind].
      destruct (scBasisLoop _ _ _ _ _ _) as [st|]; [|reflexivity].
      cbn [mbind option_bind].
      apply (regularInterpolation_singular pch lr); [exact Hlr|].
      revert Hprm. unfold scSetup, grevilleOrFail.
      repeat match goal with
             | |- context [match getCoord ?n with _ => _ end] =>
                 destruct (getCoord n)
             end; try discriminate.
      destruct (getGrevilleParameters pch [] 0) as [[] g0]; [|discriminate].
      destruct (getGrevilleParameters pch [] 1) as [[] g1]; [|discriminate].
      destruct (getGrevilleParameters pch [] 2) as [[] g2]; [|discriminate].
      cbn. intros [= <-]. cbn. apply Hsing.
    + unfold projectSolution, grevilleOrFail.
      destruct (getGrevilleParameters pch [] 0) as [[] g0]; [|reflexivity].
      destruct (getGrevilleParameters pch [] 1) as [[] g1]; [|reflexivity].
      destruct (getGrevilleParameters pch [] 2) as [[] g2]; [|reflexivity].
      cbn [mbind option_bind].
      destruct (evalSolution _ _ _) as [sValues|]; [|reflexivity].
      cbn [mbind option_bind].
      apply (regularInterpolation_singular pch lr); [exact Hlr|apply Hsing].
Qed.

(** *** assembleL2matrices *)

Lemma for_each_app {I S} (pre post : list I) (body : I -> S -> S) (st : S) :
  for_each (pre ++ post) body st = for_each post body (for_each pre body st).
Proof. unfold for_each. apply foldl_app. Qed.

Lemma for_each_cons {I S} (x : I) (l : list I) (body : I -> S -> S) (st : S) :
  for_each (x :: l) body st = for_each l body (body x st).
Proof. reflexivity. Qed.

(** The loop body of the continuous projection returns at once when the
    weight compares equal to zero. *)
Lemma l2GaussPoint_singular
  (pch : patch) (lr : LRSplineVolume) (iel : Z) (dA : float) (Xnod : Matrix)
  (wg : RealArray) (gpar : RealArray3) (sField : Matrix)
  (ip : nat) (ijk : nat * nat * nat) (st : SparseMatrix * Vector) :
  (l2Weight lr iel dA Xnod wg gpar ijk =? 0.0)%float = true ->
  l2GaussPoint pch lr true iel dA Xnod wg gpar sField (ip, ijk) st = st.
Proof.
  intros Hzero. unfold l2GaussPoint. destruct ijk as [[i j] k].
  destruct (extractBasis _) as [phi dNdu]. now rewrite Hzero.
Qed.

(** The same for the loop body of the face projection. *)
Lemma faceGaussPoint_singular
  (pch : patch) (face : DirichletFace) (values : FunctionBase) (tm : float)
  (ie : nat) (iel faceDir : Z) (dA : float) (Xnod : Matrix) (wg : RealArray)
  (gpar : RealArray3) (ij : nat * nat) (st : SparseMatrix * Vector) :
  (faceWeight pch iel faceDir dA Xnod wg gpar ij =? 0.0)%float = true ->
  faceGaussPoint pch face values tm ie iel faceDir dA Xnod wg gpar ij st = st.
Proof.
  intros Hzero. unfold faceGaussPoint. destruct ij as [i j].
  destruct (faceIndices faceDir i j) as [[k1 k2] k3].
  destruct (evaluateBasis _ _ _ _ _) as [N dNdu]. now rewrite Hzero.
Qed.

(** C7: in the continuous projection of [assembleL2matrices] a Gauss point
    whose weight [dJw] compares equal to zero is skipped: the loop body
    returns the matrices [A] and [B] as it received them, whatever they
    hold, and a loop over Gauss points that contains such a point ends with
    the same [A] and [B] as the loop without it, the later points being
    integrated as usual.  The same holds for the integration points of
    [faceL2projection] with weight [dJxW].  (Neither loop body has a
    failure exit.) *)
Theorem singular_gauss_point_is_skipped :
  (forall (pch : patch) (lr : LRSplineVolume) (iel : Z) (dA : float)
          (Xnod : Matrix) (wg : RealArray) (gpar : RealArray3)
          (sField : Matrix) (ip : nat) (ijk : nat * nat * nat),
      (l2Weight lr iel dA Xnod wg gpar ijk =? 0.0)%float = true ->
      (forall st,
          l2GaussPoint pch lr true iel dA Xnod wg gpar sField (ip, ijk) st = st)
      /\ (forall pre post st,
            for_each (pre ++ (ip, ijk) :: post)
                     (l2GaussPoint pch lr true iel dA Xnod wg gpar sField) st
            = for_each (pre ++ post)
                       (l2GaussPoint pch lr true iel dA Xnod wg gpar sField) st))
  /\ (forall (pch : patch) (face : DirichletFace) (values : FunctionBase)
             (tm : float) (ie : nat) (iel faceDir : Z) (dA : float)
             (Xnod : Matrix) (wg : RealArray) (gpar : RealArray3)
             (ij : nat * nat),
        (faceWeight pch iel faceDir dA Xnod wg gpar ij =? 0.0)%float = true ->
        (forall st,
            faceGaussPoint pch face values tm ie iel faceDir dA Xnod wg gpar
                           ij st = st)
        /\ (forall pre post st,
              for_each (pre ++ ij :: post)
                       (faceGaussPoint pch face values tm ie iel faceDir dA
                                       Xnod wg gpar) st
              = for_each (pre ++ post)
                         (faceGaussPoint pch face values tm ie iel faceDir dA
                                         Xnod wg gpar) st)).
Proof.
  split.
  - intros pch lr iel dA Xnod wg gpar sField ip ijk Hzero. split.
    + intros st. now apply l2GaussPoint_singular.
    + intros pre post st. rewrite !for_each_app, for_each_cons.
      now rewrite l2GaussPoint_singular.
  - intros pch face values tm ie iel faceDir dA Xnod wg gpar ij Hzero. split.
    + intros st. now apply faceGaussPoint_singular.
    + intros pre post st. rewrite !for_each_app, for_each_cons.
      now rewrite faceGaussPoint_singular.
Qed.

(** An element all of whose Gauss points are singular leaves the system as
    it is, and the assembly goes on with the next element. *)
Lemma degenerate_element_is_passed_over
  (pch : patch) (lr : LRSplineVolume) (integrand : Integrand)
  (ng1 ng2 ng3 : Z) (xg yg zg wg : RealArray)
  (el : Element) (els : list Element) (iel : Z) (Xnod sField : Matrix)
  (st : SparseMatrix * Vector) :
  let gpar := (getGaussPointParameters pch 0 ng1 iel xg,
               getGaussPointParameters pch 1 ng2 iel yg,
               getGaussPointParameters pch 2 ng3 iel zg) in
  let dA := (0.125 * getParametricVolume pch iel)%float in
  getElementCoordinates pch iel = Some Xnod ->
  (dA <? 0.0)%float = false ->
  evalSolution pch integrand (expandTensorGrid gpar) = Some sField ->
  (forall pt, pt ∈ gaussLoop ng1 ng2 ng3 ->
              (l2Weight lr iel dA Xnod wg gpar pt.2 =? 0.0)%float = true) ->
  l2Elements pch lr integrand true ng1 ng2 ng3 xg yg zg wg (el :: els) iel st
  = l2Elements pch lr integrand true ng1 ng2 ng3 xg yg zg wg els (iel + 1) st.
Proof.
  intros gpar dA HX HdA Hs Hall. cbn [l2Elements].
  rewrite HX. fold dA. rewrite HdA. fold gpar. rewrite Hs. f_equal.
  revert Hall. generalize (gaussLoop ng1 ng2 ng3). intros pts.
  induction pts as [|[ip ijk] pts IH] using rev_ind; intros Hall; [reflexivity|].
  rewrite for_each_app. rewrite IH.
  - rewrite for_each_cons. unfold for_each. cbn [foldl].
    apply l2GaussPoint_singular.
    apply (Hall (ip, ijk)). apply elem_of_app. right. apply list_elem_of_singleton.
    reflexivity.
  - intros pt Hpt. apply Hall. apply elem_of_app. now left.
Qed.

(** *** The element range of the local fit *)

(** The loop body of [scRecovery] does not read the own support. *)
Lemma scBasisfunction_own_support
  (pch : patch) (lr : LRSplineVolume) (integrand : Integrand)
  (prm : scParams) (own : list Element) (b : Basisfunction) (st : nat * Matrix) :
  scBasisfunction pch lr integrand prm (withOwnSupport own b) st
  = scBasisfunction pch lr integrand prm b st.
Proof. reflexivity. Qed.

End Facts.

(** *** The theorems on the sample grids *)

(** C1 as stated fails: on the trilinear grid of three elements per
    direction, with first derivatives, the inner basis function number 21
    has eight own elements with one sample point each for the eight terms
    of the polynomial, yet the local system is assembled over the 27
    elements of the extended support: its entry [A(1,1)] counts 27 sample
    points, not the 8 of the own support. *)
Lemma scSupport_counterexample :
  let K := Samples.gridKernel 3 in
  let pch := Samples.gridPatch 3 Samples.identityGeometry in
  let lr := Samples.gridVolume 3 Samples.identityGeometry in
  let b := Samples.gridFunction 3 (1, 1, 1)%nat in
  exists prm,
    @scSetup _ K pch lr Samples.fluxIntegrand = Some prm
    /\ getAllBasisfunctions lr !! 21%nat = Some b
    /\ ownSamplePoints prm b = 8%Z
    /\ nPol prm = 8%nat
    /\ length (scSupport_spec prm b) = 8%nat
    /\ length (scSupport b) = 27%nat
    /\ scSupport b <> scSupport_spec prm b
    /\ (fun AB => mat_at AB.1 1 1)
         <$> @scLocalSystem _ K pch lr Samples.fluxIntegrand prm 21 b
       = Some 27.0%float
    /\ (fun AB => mat_at AB.1 1 1)
         <$> @scAssemble _ K pch lr Samples.fluxIntegrand prm 21
                         (supportedElements b)
       = Some 8.0%float.
Proof.
  intros K pch lr b. eexists. split; [vm_compute; reflexivity|].
  repeat split; try (vm_compute; reflexivity).
  intros Heq. apply (f_equal length) in Heq. vm_compute in Heq. discriminate.
Qed.

(** C5 on the single-element volume: one sample point for eight basis
    functions, and the volume declared rational. *)
Lemma regularInterpolation_rejects_witness :
  @regularInterpolation _ (Samples.gridKernel 1)
     (Samples.gridPatch 1 Samples.identityGeometry)
     [0.5%float] [0.5%float] [0.5%float] (mzero 1 1) = None
  /\ @regularInterpolation _ (Samples.gridKernel 1)
       (Samples.rationalGridPatch 1)
       (replicate 8 0.5%float) (replicate 8 0.5%float) (replicate 8 0.5%float)
       (mzero 1 8) = None.
Proof.
  split.
  - apply (@regularInterpolation_rejects _ (Samples.gridKernel 1)
             (Samples.gridPatch 1 Samples.identityGeometry)
             (Samples.gridVolume 1 Samples.identityGeometry)).
    + reflexivity.
    + right. left. vm_compute. discriminate.
  - eapply (@regularInterpolation_rejects _ (Samples.gridKernel 1)
              (Samples.rationalGridPatch 1)).
    + reflexivity.
    + left. reflexivity.
Defined.

(** C6 on the single-element volume: with first derivatives there is one
    sample point for the eight terms of the local polynomial, the local
    system is singular and [scRecovery] fails; eight coincident sample
    points make the global interpolation matrix singular and
    [regularInterpolation] fails. *)
Lemma singular_system_fails_projection_witness :
  @scRecovery _ (Samples.gridKernel 1)
     (Samples.gridPatch 1 Samples.identityGeometry) Samples.fluxIntegrand
  = None
  /\ @regularInterpolation _ (Samples.gridKernel 1)
       (Samples.gridPatch 1 Samples.identityGeometry)
       (replicate 8 0.5%float) (replicate 8 0.5%float) (replicate 8 0.5%float)
       (mzero 1 8) = None.
Proof.
  destruct (@singular_system_fails_projection _ (Samples.gridKernel 1)
              (Samples.gridPatch 1 Samples.identityGeometry)
              (Samples.gridVolume 1 Samples.identityGeometry)
              Samples.fluxIntegrand eq_refl) as (Hlocal & Hglobal & _).
  split.
  - eapply (Hlocal _ 0%nat).
    + vm_compute. reflexivity.
    + reflexivity.
    + vm_compute. reflexivity.
    + vm_compute. reflexivity.
  - apply Hglobal. vm_compute. reflexivity.
Defined.

(** C7 on the grid of two elements per direction whose first layer is
    collapsed onto the plane [x = 0]: the first Gauss point of element 1
    has a vanishing Jacobian and is skipped, in the volume and on the face
    [v = 0]. *)
Lemma singular_gauss_point_is_skipped_witness :
  let K := Samples.gridKernel 2 in
  let pch := Samples.gridPatch 2 Samples.collapsedGeometry in
  let lr := Samples.gridVolume 2 Samples.collapsedGeometry in
  let xg := default [] (@getCoord _ K 2) in
  let wg := default [] (@getWeight _ K 2) in
  let gpar := (@getGaussPointParameters _ K pch 0 2 1 xg,
               @getGaussPointParameters _ K pch 1 2 1 xg,
               @getGaussPointParameters _ K pch 2 2 1 xg) in
  let fpar := (@faceGaussParameters _ K pch lr (-2) 1 xg 0,
               @faceGaussParameters _ K pch lr (-2) 1 xg 1,
               @faceGaussParameters _ K pch lr (-2) 1 xg 2) in
  let Xnod := default emptyMatrix (@getElementCoordinates _ K pch 1) in
  let sField := Samples.sampleField 1 (expandTensorGrid gpar) in
  @l2GaussPoint _ K pch lr true 1 0.125%float Xnod wg gpar sField
                (0, (0, 0, 0))%nat (Samples.emptySystem 2 1)
  = Samples.emptySystem 2 1
  /\ @faceGaussPoint _ K pch (Samples.southFace 2) Samples.linearFunction
        0.0%float 0 1 (-2) 0.25%float Xnod wg fpar (0, 0)%nat
        (Samples.emptySystem 2 1)
     = Samples.emptySystem 2 1.
Proof.
  intros K pch lr xg wg gpar fpar Xnod sField.
  destruct (@singular_gauss_point_is_skipped _ K) as [Hvol Hface].
  split.
  - apply (Hvol pch lr 1%Z 0.125%float Xnod wg gpar sField 0%nat (0, 0, 0)%nat).
    vm_compute. reflexivity.
  - apply (Hface pch (Samples.southFace 2) Samples.linearFunction 0.0%float
                 0%nat 1%Z (-2)%Z 0.25%float Xnod wg fpar (0, 0)%nat).
    vm_compute. reflexivity.
Defined.

(** The continuous assembly on the grid whose every element is collapsed
    returns [true] and adds nothing to the system. *)
Example assembleL2matrices_collapsed :
  @assembleL2matrices _ (Samples.gridKernel 1)
     (Samples.gridPatch 1 Samples.collapsedGeometry)
     (Samples.emptySystem 1 1).1 (Samples.emptySystem 1 1).2
     Samples.fluxIntegrand true
  = (true, Samples.emptySystem 1 1).
Proof. vm_compute. reflexivity. Qed.

(** On the grid of two elements per direction the recovery of the linear
    field [u + 2 v + 3 w] returns its values at the 27 vertices. *)
Example scRecovery_linear_field :
  controlPoints
    <$> @scRecovery _ (Samples.gridKernel 2)
          (Samples.gridPatch 2 Samples.identityGeometry) Samples.fluxIntegrand
  = Some [0.0; 1.0; 2.0; 2.0; 3.0; 4.0; 4.0; 5.0; 6.0;
          3.0; 4.0; 5.0; 5.0; 6.0; 7.0; 7.0; 8.0; 9.0;
          6.0; 7.0; 8.0; 8.0; 9.0; 10.0; 10.0; 11.0; 12.0]%float.
Proof. vm_compute. reflexivity. Qed.

End ASMu3DFacts.

(** * Further properties of the code *)

(** ** The nested loops: expandTensorGrid, evalMonomials and the Gauss point
    counter *)

Module TensorLoopFacts.
Import ASMu3D.

Lemma bind_seq_length {A} (f : nat -> list A) (m s n : nat) :
  (forall x, length (f x) = m) ->
  length (x ← seq s n; f x) = n * m.
Proof.
  intros Hf. revert s. induction n as [|n IH]; intros s; [reflexivity|].
  cbn [seq]. rewrite bind_cons, length_app, Hf, IH. lia.
Qed.

Lemma bind_seq_lookup {A} (f : nat -> list A) (m s n q r : nat) :
  (forall x, length (f x) = m) ->
  q < n -> r < m ->
  (x ← seq s n; f x) !! (r + m * q) = f (s + q) !! r.
Proof.
  intros Hf. revert s q. induction n as [|n IH]; intros s q Hq Hr; [lia|].
  cbn [seq]. rewrite bind_cons. destruct q as [|q].
  - rewrite Nat.mul_0_r, !Nat.add_0_r. apply lookup_app_l. now rewrite Hf.
  - rewrite Nat.mul_succ_r.
    rewrite lookup_app_r by (rewrite Hf; lia).
    rewrite Hf. replace (r + (m * q + m) - m) with (r + m * q) by lia.
    rewrite IH by lia. now replace (S s + q) with (s + S q) by lia.
Qed.

Lemma tripleLoop_length (n1 n2 n3 : nat) :
  length (tripleLoop n1 n2 n3) = n1 * n2 * n3.
Proof.
  unfold tripleLoop.
  rewrite (bind_seq_length _ (n2 * n1)); [lia|].
  intros k. rewrite (bind_seq_length _ n1); [lia|].
  intros j. rewrite (bind_seq_length _ 1); [lia|]. reflexivity.
Qed.

Lemma tripleLoop_lookup (n1 n2 n3 i j k : nat) :
  i < n1 -> j < n2 -> k < n3 ->
  tripleLoop n1 n2 n3 !! (i + n1 * (j + n2 * k)) = Some (i, j, k).
Proof.
  intros Hi Hj Hk. unfold tripleLoop.
  replace (i + n1 * (j + n2 * k)) with ((i + n1 * j) + (n2 * n1) * k) by nia.
  rewrite (bind_seq_lookup _ (n2 * n1)); [| |lia|nia].
  2:{ intros z. rewrite (bind_seq_length _ n1); [lia|].
      intros y. rewrite (bind_seq_length _ 1); [lia|]. reflexivity. }
  rewrite (bind_seq_lookup _ n1); [| |lia|lia].
  2:{ intros y. rewrite (bind_seq_length _ 1); [lia|]. reflexivity. }
  replace i with (0 + 1 * i) at 1 by lia.
  rewrite (bind_seq_lookup _ 1); [reflexivity| |lia|lia].
  reflexivity.
Qed.

Lemma tripleLoop_lookup_inv (n1 n2 n3 ip i j k : nat) :
  tripleLoop n1 n2 n3 !! ip = Some (i, j, k) ->
  ip = i + n1 * (j + n2 * k) /\ i < n1 /\ j < n2 /\ k < n3.
Proof.
  intros Hip.
  assert (Hlt : ip < n1 * n2 * n3).
  { rewrite <- tripleLoop_length. now apply lookup_lt_Some in Hip. }
  assert (H1 : 0 < n1) by nia. assert (H2 : 0 < n2) by nia.
  pose proof (Nat.div_mod_eq ip n1) as Hd1.
  pose proof (Nat.mod_upper_bound ip n1 ltac:(lia)) as Hm1.
  pose proof (Nat.div_mod_eq (ip / n1) n2) as Hd2.
  pose proof (Nat.mod_upper_bound (ip / n1) n2 ltac:(lia)) as Hm2.
  assert (Hk : ip / n1 / n2 < n3).
  { apply Nat.Div0.div_lt_upper_bound. apply Nat.Div0.div_lt_upper_bound. nia. }
  pose proof (tripleLoop_lookup n1 n2 n3 (ip mod n1) (ip / n1 mod n2)
                (ip / n1 / n2) Hm1 Hm2 Hk) as Hfw.
  replace (ip mod n1 + n1 * (ip / n1 mod n2 + n2 * (ip / n1 / n2))) with ip
    in Hfw by nia.
  rewrite Hip in Hfw. injection Hfw as -> -> ->. repeat split; auto; nia.
Qed.

Lemma for_each_ext {I S} (l : list I) (f g : I -> S -> S) (s : S) :
  (forall x st, f x st = g x st) -> for_each l f s = for_each l g s.
Proof.
  intros Hfg. revert s. induction l as [|x l IH]; intros s; [reflexivity|].
  rewrite !ASMu3DFacts.for_each_cons, Hfg. apply IH.
Qed.

(** A loop that updates entry [ip] with the [ip]-th item of a list updates
    every entry once. *)
Lemma for_each_alter_indexed {X} (g : X -> float -> float) (l : list X)
  (pre v : Vector) :
  length v = length l ->
  for_each (imap (fun i x => (length pre + i, x)) l)
           (fun '(ip, x) => alter (g x) ip) (pre ++ v)
  = pre ++ zip_with g l v.
Proof.
  revert pre v. induction l as [|x l IH]; intros pre [|a v] Hlen;
    try discriminate; [reflexivity|].
  cbn [imap zip_with]. rewrite ASMu3DFacts.for_each_cons.
  rewrite Nat.add_0_r.
  replace (alter (g x) (length pre) (pre ++ a :: v)) with ((pre ++ [g x a]) ++ v).
  2:{ rewrite <- app_assoc. cbn. symmetry.
      now rewrite (alter_app_r_alt _ pre (a :: v) (length pre)), Nat.sub_diag
        by lia. }
  rewrite (imap_ext _ (fun i y => (length (pre ++ [g x a]) + i, y))).
  2:{ intros i y _. cbn. rewrite length_app. cbn. f_equal. lia. }
  rewrite IH by (cbn in Hlen; lia).
  now rewrite <- app_assoc.
Qed.

Lemma timesPow_zero (n : nat) (a : float) :
  0 < n -> a = 1.0%float \/ a = 0.0%float -> timesPow n 0.0%float a = 0.0%float.
Proof.
  intros Hn Ha. destruct n as [|n]; [lia|]. clear Hn.
  induction n as [|n IH].
  - destruct Ha as [-> | ->]; reflexivity.
  - change (timesPow (S (S n)) 0.0%float a)
      with (timesPow (S n) 0.0%float a * 0.0)%float.
    now rewrite IH.
Qed.

Lemma timesPow_zero_any (n : nat) (a : float) :
  a = 0.0%float -> timesPow n 0.0%float a = 0.0%float.
Proof.
  intros ->. destruct n; [reflexivity|]. apply timesPow_zero; [lia|auto].
Qed.

(** The monomial [x^i y^j z^k], multiplied out as the code does. *)
Lemma evalMonomials_closed (p1 p2 p3 : Z) (x y z : float) :
  (0 <= p1)%Z -> (0 <= p2)%Z -> (0 <= p3)%Z ->
  evalMonomials p1 p2 p3 x y z
  = monomial x y z <$> tripleLoop (Z.to_nat p1) (Z.to_nat p2) (Z.to_nat p3).
Proof.
  intros H1 H2 H3. unfold evalMonomials.
  set (l := tripleLoop _ _ _).
  set (g := fun (ijk : nat * nat * nat) (a : float) =>
              let '(i, j, k) := ijk in timesPow k z (timesPow j y (timesPow i x a))).
  rewrite (for_each_ext _ _ (fun '(ip, ijk) => alter (g ijk) ip)).
  2:{ intros [ip [[i j] k]] st. reflexivity. }
  assert (Hlen : length (replicate (Z.to_nat (p1 * p2 * p3)) 1.0%float) = length l).
  { subst l. rewrite length_replicate, tripleLoop_length. lia. }
  pose proof (for_each_alter_indexed g l [] _ Hlen) as Hloop.
  cbn [length Nat.add app] in Hloop.
  rewrite (imap_ext _ pair) in Hloop by reflexivity.
  rewrite Hloop. clear Hloop.
  revert Hlen. generalize (Z.to_nat (p1 * p2 * p3)). intros n Hlen.
  rewrite length_replicate in Hlen. subst n.
  induction l as [|[[i j] k] l IH]; [reflexivity|].
  cbn. f_equal. apply IH.
Qed.

Lemma monomial_centre (i j k : nat) :
  monomial 0.0 0.0 0.0 (i, j, k)
  = if bool_decide ((i, j, k) = (0, 0, 0)%nat) then 1.0%float else 0.0%float.
Proof.
  unfold monomial. case_bool_decide as Hijk.
  - now injection Hijk as -> -> ->.
  - destruct i as [|i].
    + destruct j as [|j].
      * destruct k as [|k]; [congruence|].
        apply timesPow_zero; [lia|now left].
      * apply timesPow_zero_any. apply timesPow_zero; [lia|now left].
    + apply timesPow_zero_any, timesPow_zero_any. apply timesPow_zero; [lia|now left].
Qed.

(** X1: [expandTensorGrid] turns the three parameter arrays of a tensor grid
    into three arrays of [n0*n1*n2] entries each, and the point [(i,j,k)]
    of the grid is found at position [i + n0*(j + n1*k)]: there the three
    output arrays hold [in0[i]], [in1[j]] and [in2[k]]. *)
Theorem expandTensorGrid_entries (in0 in1 in2 : RealArray) :
  let out := expandTensorGrid (in0, in1, in2) in
  let n := length in0 * length in1 * length in2 in
  (length out.1.1 = n /\ length out.1.2 = n /\ length out.2 = n)
  /\ (forall i j k x y z,
        in0 !! i = Some x -> in1 !! j = Some y -> in2 !! k = Some z ->
        let ip := i + length in0 * (j + length in1 * k) in
        out.1.1 !! ip = Some x /\ out.1.2 !! ip = Some y /\ out.2 !! ip = Some z).
Proof.
  cbn zeta. unfold expandTensorGrid. cbn [fst snd]. split.
  - rewrite !length_fmap, tripleLoop_length. auto.
  - intros i j k x y z Hx Hy Hz.
    pose proof (lookup_lt_Some _ _ _ Hx). pose proof (lookup_lt_Some _ _ _ Hy).
    pose proof (lookup_lt_Some _ _ _ Hz).
    rewrite !list_lookup_fmap, tripleLoop_lookup by assumption. cbn.
    now rewrite (list_lookup_total_correct _ _ _ Hx),
      (list_lookup_total_correct _ _ _ Hy), (list_lookup_total_correct _ _ _ Hz).
Qed.

(** X2: for non-negative orders [evalMonomials] returns [p1*p2*p3] values,
    the one at position [i + p1*(j + p2*k)] being the monomial
    [x^i y^j z^k], multiplied out from the left starting at one.  At the
    centre [x = y = z = 0] the first value is one and all others are zero,
    so the first coefficient of the local fit of [scRecovery] is its value
    at the Greville point. *)
Theorem evalMonomials_entries (p1 p2 p3 : Z) (x y z : float) :
  (0 <= p1)%Z -> (0 <= p2)%Z -> (0 <= p3)%Z ->
  length (evalMonomials p1 p2 p3 x y z) = Z.to_nat (p1 * p2 * p3)
  /\ (forall i j k,
        i < Z.to_nat p1 -> j < Z.to_nat p2 -> k < Z.to_nat p3 ->
        let ip := i + Z.to_nat p1 * (j + Z.to_nat p2 * k) in
        evalMonomials p1 p2 p3 x y z !! ip = Some (monomial x y z (i, j, k))
        /\ evalMonomials p1 p2 p3 0.0 0.0 0.0 !! ip
           = Some (if bool_decide (ip = 0%nat) then 1.0%float else 0.0%float)).
Proof.
  intros H1 H2 H3. split.
  - rewrite evalMonomials_closed, length_fmap, tripleLoop_length by assumption. lia.
  - intros i j k Hi Hj Hk ip.
    rewrite !evalMonomials_closed, !list_lookup_fmap by assumption.
    subst ip. rewrite tripleLoop_lookup by assumption. cbn [fmap option_fmap option_map].
    split; [reflexivity|]. rewrite monomial_centre. f_equal.
    repeat case_bool_decide; try reflexivity.
    + exfalso. match goal with H : (_, _, _) = _ |- _ => injection H as -> -> -> end.
      lia.
    + exfalso. match goal with H : (_, _, _) <> _ |- _ => apply H end.
      assert (i = 0) by lia. subst i.
      assert (Z.to_nat p1 * (j + Z.to_nat p2 * k) = 0) by lia.
      assert (j + Z.to_nat p2 * k = 0) by nia.
      assert (j = 0) by lia. subst j.
      assert (k = 0) by nia. now subst k.
Qed.

(** X3: the counter [ip] that the integration loops of [assembleL2matrices]
    and [scRecovery] keep next to [(i,j,k)] is [i + ng1*(j + ng2*k)], the
    position at which [expandTensorGrid] has put the parameters of that
    Gauss point: column [ip+1] of the secondary solution [sField] belongs to
    the point the loop is at.  (The three parameter arrays hold [ng1],
    [ng2] and [ng3] values.) *)
Theorem gauss_points_match_columns (ng1 ng2 ng3 : Z) (gpar : RealArray3)
  (ip i j k : nat) :
  length gpar.1.1 = Z.to_nat ng1 ->
  length gpar.1.2 = Z.to_nat ng2 ->
  length gpar.2 = Z.to_nat ng3 ->
  (ip, (i, j, k)) ∈ gaussLoop ng1 ng2 ng3 ->
  ip = i + Z.to_nat ng1 * (j + Z.to_nat ng2 * k)
  /\ (expandTensorGrid gpar).1.1 !! ip = Some (gpar.1.1 !!! i)
  /\ (expandTensorGrid gpar).1.2 !! ip = Some (gpar.1.2 !!! j)
  /\ (expandTensorGrid gpar).2 !! ip = Some (gpar.2 !!! k).
Proof.
  destruct gpar as [[g0 g1] g2]. cbn [fst snd]. intros L0 L1 L2 Hin.
  unfold gaussLoop in Hin. apply elem_of_lookup_imap in Hin.
  destruct Hin as (ip' & ijk & Heq & Hip). injection Heq as <- <-.
  destruct (tripleLoop_lookup_inv _ _ _ _ _ _ _ Hip) as (Hidx & Hi & Hj & Hk).
  split; [exact Hidx|].
  unfold expandTensorGrid. cbn [fst snd]. rewrite L0, L1, L2.
  rewrite !list_lookup_fmap, Hip. auto.
Qed.

(** X1 on the example of the source comment: [in = {0,1}, {2,3}, {7,9}],
    point [(1,0,1)] at position 5. *)
Lemma expandTensorGrid_entries_witness :
  let out := expandTensorGrid ([0; 1], [2; 3], [7; 9])%float in
  out.1.1 !! 5 = Some 1%float /\ out.1.2 !! 5 = Some 2%float
  /\ out.2 !! 5 = Some 9%float.
Proof.
  destruct (expandTensorGrid_entries [0; 1] [2; 3] [7; 9])%float
    as [_ H].
  exact (H 1 0 1 1%float 2%float 9%float eq_refl eq_refl eq_refl).
Defined.

(** X2 for [p1 = p2 = p3 = 2] at [(x,y,z) = (2,3,5)]: eight values, the
    last one [x*y*z = 30]. *)
Lemma evalMonomials_entries_witness :
  length (evalMonomials 2 2 2 2 3 5) = 8
  /\ evalMonomials 2 2 2 2 3 5 !! 7 = Some 30%float.
Proof.
  destruct (evalMonomials_entries 2 2 2 2 3 5) as [Hlen H]; try lia.
  split; [exact Hlen|].
  destruct (H 1 1 1) as [Hent _]; try (cbn; lia).
  exact Hent.
Defined.

(** X3 for two Gauss points per direction: the point [(1,0,1)] has the
    counter 5. *)
Lemma gauss_points_match_columns_witness :
  (expandTensorGrid ([0; 1], [2; 3], [7; 9])%float).1.1 !! 5 = Some 1%float.
Proof.
  assert (Hin : (5, (1, 0, 1)) ∈ gaussLoop 2 2 2).
  { apply list_elem_of_lookup_2 with 5. reflexivity. }
  exact (proj1 (proj2 (gauss_points_match_columns 2 2 2
                         ([0; 1], [2; 3], [7; 9])%float 5 1 0 1
                         eq_refl eq_refl eq_refl Hin))).
Defined.

End TensorLoopFacts.

(** ** Loops that accumulate into a matrix *)

Module AccumulationFacts.

Lemma for_each_bind {I J S} (l : list I) (f : I -> list J) (body : J -> S -> S)
  (s : S) :
  for_each (x ← l; f x) body s
  = for_each l (fun x st => for_each (f x) body st) s.
Proof.
  revert s. induction l as [|x l IH]; intros s; [reflexivity|].
  rewrite bind_cons, ASMu3DFacts.for_each_app, ASMu3DFacts.for_each_cons.
  apply IH.
Qed.

(** Loops whose bodies update the two components of a pair separately. *)
Lemma for_each_pair {I S1 S2} (l : list I) (f : I -> S1 -> S1) (g : I -> S2 -> S2)
  (a : S1) (b : S2) :
  for_each l (fun i '(x, y) => (f i x, g i y)) (a, b)
  = (for_each l f a, for_each l g b).
Proof.
  revert a b. induction l as [|i l IH]; intros a b; [reflexivity|].
  rewrite !ASMu3DFacts.for_each_cons. apply IH.
Qed.

Lemma for_each_invariant {I S : Type} (P : S -> Prop) (l : list I)
  (body : I -> S -> S) (s : S) :
  (forall i st, i ∈ l -> P st -> P (body i st)) -> P s -> P (for_each l body s).
Proof.
  revert s. induction l as [|i l IH]; intros s Hb Hs; [exact Hs|].
  rewrite ASMu3DFacts.for_each_cons. apply IH.
  - intros i' st Hi'. apply Hb. now right.
  - apply Hb; [left | exact Hs].
Qed.

Section Table.
Context {T X : Type} `{EqDecision X}.
Context (get : T -> X * X -> float) (add : X * X -> float -> T -> T).
Context (wf : T -> Prop) (valid : X * X -> Prop).
Hypothesis wf_add : forall k v t, wf t -> wf (add k v t).
Hypothesis get_add : forall k v t k',
  wf t -> valid k -> valid k' ->
  get (add k v t) k' = if decide (k = k') then (get t k + v)%float else get t k'.

Lemma addAll_wf ups t : wf t -> wf (addAll add ups t).
Proof using wf_add.
  revert t. induction ups as [|[k v] ups IH]; intros t Ht; [exact Ht|].
  unfold addAll. rewrite ASMu3DFacts.for_each_cons. apply IH. now apply wf_add.
Qed.

Lemma addAll_miss ups t k' :
  wf t -> Forall (fun kv => valid kv.1) ups -> valid k' ->
  k' ∉ ups.*1 -> get (addAll add ups t) k' = get t k'.
Proof using wf_add get_add.
  revert t. induction ups as [|[k v] ups IH]; intros t Ht Hval Hk' Hnot;
    [reflexivity|].
  unfold addAll. rewrite ASMu3DFacts.for_each_cons.
  inversion Hval as [|? ? Hk Hval']; subst. cbn in Hnot.
  apply not_elem_of_cons in Hnot as [Hne Hnot].
  fold (addAll add ups (add k v t)). rewrite IH by auto.
  rewrite get_add by auto. now rewrite decide_False by congruence.
Qed.

Lemma addAll_hit ups t k v :
  wf t -> Forall (fun kv => valid kv.1) ups -> NoDup ups.*1 ->
  (k, v) ∈ ups -> get (addAll add ups t) k = (get t k + v)%float.
Proof using wf_add get_add.
  revert t. induction ups as [|[k0 v0] ups IH]; intros t Ht Hval Hnd Hin;
    [now apply elem_of_nil in Hin|].
  unfold addAll. rewrite ASMu3DFacts.for_each_cons.
  fold (addAll add ups (add k0 v0 t)).
  inversion Hval as [|? ? Hk Hval']; subst. cbn in Hk.
  cbn in Hnd. apply NoDup_cons in Hnd as [Hfresh Hnd].
  apply elem_of_cons in Hin as [Heq|Hin].
  - injection Heq as -> ->.
    rewrite addAll_miss by auto. rewrite get_add by auto.
    now rewrite decide_True.
  - assert (Hk' : valid k).
    { rewrite Forall_forall in Hval'. apply (Hval' (k, v) Hin). }
    rewrite IH by auto. rewrite get_add by auto.
    rewrite decide_False; [reflexivity|].
    intros ->. apply Hfresh. apply list_elem_of_fmap. now exists (k, v).
Qed.

Lemma elem_of_pairUpdates l (nd : nat -> X) val k v :
  (k, v) ∈ pairUpdates l nd val
  <-> exists ii jj, ii ∈ l /\ jj ∈ l /\ k = (nd ii, nd jj) /\ v = val ii jj.
Proof.
  unfold pairUpdates. rewrite list_elem_of_bind. split.
  - intros (ii & Hin & Hii). apply list_elem_of_bind in Hin as (jj & Hin & Hjj).
    apply list_elem_of_singleton in Hin. injection Hin as -> ->. eauto 6.
  - intros (ii & jj & Hii & Hjj & -> & ->). exists ii. split; [|exact Hii].
    apply list_elem_of_bind. exists jj. split; [|exact Hjj].
    now apply list_elem_of_singleton.
Qed.

Lemma pairUpdates_keys l (nd : nat -> X) val k :
  k ∈ (pairUpdates l nd val).*1
  <-> exists ii jj, ii ∈ l /\ jj ∈ l /\ k = (nd ii, nd jj).
Proof.
  rewrite list_elem_of_fmap. split.
  - intros ([k' v] & -> & Hin). apply elem_of_pairUpdates in Hin.
    destruct Hin as (ii & jj & ? & ? & ? & _). eauto.
  - intros (ii & jj & Hii & Hjj & ->). exists ((nd ii, nd jj), val ii jj).
    split; [reflexivity|]. apply elem_of_pairUpdates. eauto 6.
Qed.

Lemma fmap_bind_list {A B C} (f : B -> C) (g : A -> list B) (l : list A) :
  f <$> (x ← l; g x) = x ← l; f <$> g x.
Proof.
  induction l as [|x l IH]; [reflexivity|].
  now rewrite !bind_cons, fmap_app, IH.
Qed.

Lemma pairUpdates_NoDup l (nd : nat -> X) val :
  NoDup l ->
  (forall i j, i ∈ l -> j ∈ l -> nd i = nd j -> i = j) ->
  NoDup (pairUpdates l nd val).*1.
Proof.
  intros Hnd Hinj. unfold pairUpdates. rewrite fmap_bind_list.
  apply NoDup_bind; [| |exact Hnd].
  - intros i1 i2 k Hi1 Hi2 Hk1 Hk2.
    apply list_elem_of_fmap in Hk1 as ([k1 v1] & -> & Hk1).
    apply list_elem_of_fmap in Hk2 as ([k2 v2] & Heq & Hk2).
    apply list_elem_of_bind in Hk1 as (j1 & Hk1 & Hj1).
    apply list_elem_of_bind in Hk2 as (j2 & Hk2 & Hj2).
    apply list_elem_of_singleton in Hk1. apply list_elem_of_singleton in Hk2.
    injection Hk1 as -> ->. injection Hk2 as -> ->. cbn in Heq.
    injection Heq as Hi Hj. now apply Hinj.
  - intros ii Hii. rewrite fmap_bind_list.
    apply NoDup_bind; [| |exact Hnd].
    + intros j1 j2 k Hj1 Hj2 Hk1 Hk2. cbn in Hk1, Hk2.
      apply list_elem_of_singleton in Hk1. apply list_elem_of_singleton in Hk2.
      subst k. injection Hk2 as Hj. now apply Hinj.
    + intros jj _. cbn. apply NoDup_singleton.
Qed.

(** The double loop [for ii .. for jj .. A(nd ii, nd jj) += val ii jj]. *)
Lemma double_loop_updates l (nd : nat -> X) val t :
  for_each l (fun ii st =>
                for_each l (fun jj => add (nd ii, nd jj) (val ii jj)) st) t
  = addAll add (pairUpdates l nd val) t.
Proof.
  unfold addAll, pairUpdates. rewrite for_each_bind.
  apply TensorLoopFacts.for_each_ext. intros ii st. rewrite for_each_bind.
  apply TensorLoopFacts.for_each_ext. intros jj st'. reflexivity.
Qed.

(** Symmetric values added at mirrored positions keep a table symmetric. *)
Lemma addAll_pair_symmetric l (nd : nat -> X) val t :
  wf t ->
  NoDup l ->
  (forall i j, i ∈ l -> j ∈ l -> nd i = nd j -> i = j) ->
  (forall i j, i ∈ l -> j ∈ l -> valid (nd i, nd j)) ->
  (forall i j, val i j = val j i) ->
  (forall a b, valid (a, b) -> valid (b, a)) ->
  (forall a b, valid (a, b) -> get t (a, b) = get t (b, a)) ->
  forall a b, valid (a, b) ->
    get (addAll add (pairUpdates l nd val) t) (a, b)
    = get (addAll add (pairUpdates l nd val) t) (b, a).
Proof using wf_add get_add.
  intros Ht Hnd Hinj Hvalid Hval Hvsym Hsym a b Hab.
  assert (Hall : Forall (fun kv => valid kv.1) (pairUpdates l nd val)).
  { apply Forall_forall. intros [k v] Hin. apply elem_of_pairUpdates in Hin.
    destruct Hin as (ii & jj & Hii & Hjj & -> & _). now apply Hvalid. }
  pose proof (pairUpdates_NoDup l nd val Hnd Hinj) as Hkeys.
  destruct (decide ((a, b) ∈ (pairUpdates l nd val).*1)) as [Hin|Hout].
  - apply pairUpdates_keys in Hin as (ii & jj & Hii & Hjj & Heq).
    injection Heq as -> ->.
    rewrite (addAll_hit _ _ (nd ii, nd jj) (val ii jj)); auto.
    2:{ apply elem_of_pairUpdates. eauto 6. }
    rewrite (addAll_hit _ _ (nd jj, nd ii) (val jj ii)); auto.
    2:{ apply elem_of_pairUpdates. eauto 6. }
    now rewrite Hsym, Hval by auto.
  - rewrite !addAll_miss; auto.
    rewrite pairUpdates_keys. intros (ii & jj & Hii & Hjj & Heq).
    injection Heq as -> ->. apply Hout. apply pairUpdates_keys. eauto 6.
Qed.

End Table.
End AccumulationFacts.

(** ** assembleL2matrices *)

Module ProjectionFacts.
Import ASMu3D AccumulationFacts.

(** Reading an entry after [A(k) += v]. *)
Lemma spGet_spAdd (k : Z * Z) (v : float) (A : SparseMatrix) (k' : Z * Z) :
  spGet (spAdd k v A) k'
  = if decide (k = k') then (spGet A k + v)%float else spGet A k'.
Proof.
  destruct k as [i j], k' as [i' j'].
  unfold spGet, spAdd, sp_add_at, sp_at. cbn [fst snd sp_elem].
  rewrite lookup_insert. destruct (decide ((i, j) = (i', j'))); reflexivity.
Qed.

Lemma mnpc_injective (mnpc : list Z) (n i j : nat) :
  NoDup mnpc -> n <= length mnpc ->
  i ∈ seq 0 n -> j ∈ seq 0 n ->
  (mnpc !!! i + 1)%Z = (mnpc !!! j + 1)%Z -> i = j.
Proof.
  intros Hnd Hn Hi%elem_of_seq Hj%elem_of_seq Heq.
  destruct (lookup_lt_is_Some_2 mnpc i) as [a Ha]; [lia|].
  destruct (lookup_lt_is_Some_2 mnpc j) as [b Hb]; [lia|].
  rewrite (list_lookup_total_correct _ _ _ Ha) in Heq.
  rewrite (list_lookup_total_correct _ _ _ Hb) in Heq.
  assert (a = b) by lia. subst b. exact (NoDup_lookup _ _ _ _ Hnd Ha Hb).
Qed.

(** The matrix part of [l2Integrate] is the double loop over the element
    nodes; the vector part does not enter it. *)
Lemma l2Integrate_matrix (pch : patch) (iel : Z) (phi : Vector) (sField : Matrix)
  (ip : nat) (dJw : float) (st : SparseMatrix * Vector) :
  (l2Integrate pch iel phi sField ip dJw st).1
  = addAll spAdd
      (pairUpdates (seq 0 (length phi))
         (fun ii => ((MNPC pch !!! Z.to_nat (iel - 1)) !!! ii + 1)%Z)
         (fun ii jj => (phi !!! ii * phi !!! jj * dJw)%float))
      st.1.
Proof.
  destruct st as [A B]. unfold l2Integrate.
  set (mnpc := MNPC pch !!! Z.to_nat (iel - 1)).
  rewrite (TensorLoopFacts.for_each_ext _ _
    (fun ii '(A, B) =>
       (for_each (seq 0 (length phi))
          (fun jj => spAdd ((mnpc !!! ii + 1)%Z, (mnpc !!! jj + 1)%Z)
                           (phi !!! ii * phi !!! jj * dJw)%float) A,
        for_each (seq 1 (rows sField))
          (fun r => vec_add_at
             (Z.to_nat (mnpc !!! ii + 1 + (Z.of_nat r - 1) * Z.of_nat (getNoNodes pch)))
             (phi !!! ii * mat_at sField r (ip + 1) * dJw)%float) B))).
  2:{ intros ii [A' B']. reflexivity. }
  rewrite for_each_pair. cbn [fst].
  now rewrite <- (double_loop_updates spAdd).
Qed.

Lemma l2Integrate_symmetric (pch : patch) (iel : Z) (phi : Vector) (sField : Matrix)
  (ip : nat) (dJw : float) (st : SparseMatrix * Vector) :
  NoDup (MNPC pch !!! Z.to_nat (iel - 1)) ->
  length phi <= length (MNPC pch !!! Z.to_nat (iel - 1)) ->
  sp_symmetric st.1 ->
  sp_symmetric (l2Integrate pch iel phi sField ip dJw st).1.
Proof.
  intros Hnd Hlen Hsym i j. rewrite l2Integrate_matrix.
  apply (addAll_pair_symmetric spGet spAdd (fun _ => True) (fun _ => True)
           (fun _ _ _ _ => I) (fun k v t k' _ _ _ => spGet_spAdd k v t k')
           _ _ _ st.1 I (NoDup_seq 0 _)); auto.
  - intros a b Ha Hb. now apply (mnpc_injective _ (length phi)).
  - intros a b. now rewrite (FloatFacts.mul_comm (phi !!! a)).
  - intros a b _. apply Hsym.
Qed.

Section Assembly.
Context {Integrand : Type} `{!Collaborators Integrand}.

Lemma MNPC_row_NoDup (pch : patch) (e : nat) :
  Forall (fun row : list Z => NoDup row) (MNPC pch) -> NoDup (MNPC pch !!! e).
Proof.
  intros HF. destruct (MNPC pch !! e) as [row|] eqn:Hrow.
  - rewrite (list_lookup_total_correct _ _ _ Hrow).
    exact (proj1 (Forall_lookup _ _) HF _ _ Hrow).
  - rewrite list_lookup_total_alt, Hrow. apply NoDup_nil_2.
Qed.

Lemma l2GaussPoint_symmetric (pch : patch) (lr : LRSplineVolume) (continuous : bool)
  (e : nat) (dA : float) (Xnod : Matrix) (wg : RealArray) (gpar : RealArray3)
  (sField : Matrix) (pt : nat * (nat * nat * nat)) (st : SparseMatrix * Vector) :
  consistentMNPC pch lr -> e < length (getAllElements lr) ->
  sp_symmetric st.1 ->
  sp_symmetric (l2GaussPoint pch lr continuous (Z.of_nat e + 1) dA Xnod wg gpar
                             sField pt st).1.
Proof.
  intros [Hnd Hlen] He Hsym. destruct pt as [ip [[i j] k]].
  unfold l2GaussPoint.
  replace (Z.of_nat e + 1 - 1)%Z with (Z.of_nat e) by lia.
  destruct continuous.
  - unfold extractBasis. destruct (_ =? _)%float; [exact Hsym|].
    apply l2Integrate_symmetric; try exact Hsym;
      replace (Z.to_nat (Z.of_nat e + 1 - 1)) with e by lia.
    + now apply MNPC_row_NoDup.
    + now apply Hlen.
  - apply l2Integrate_symmetric; try exact Hsym;
      replace (Z.to_nat (Z.of_nat e + 1 - 1)) with e by lia.
    + now apply MNPC_row_NoDup.
    + now apply Hlen.
Qed.

Lemma l2Elements_symmetric (pch : patch) (lr : LRSplineVolume) (integrand : Integrand)
  (continuous : bool) (ng1 ng2 ng3 : Z) (xg yg zg wg : RealArray)
  (els : list Element) (e : nat) (st : SparseMatrix * Vector) :
  consistentMNPC pch lr -> e + length els <= length (getAllElements lr) ->
  sp_symmetric st.1 ->
  sp_symmetric (l2Elements pch lr integrand continuous ng1 ng2 ng3 xg yg zg wg
                           els (Z.of_nat e + 1) st).2.1.
Proof.
  intros Hc. revert e st. induction els as [|el els IH]; intros e st He Hsym.
  - exact Hsym.
  - cbn [length] in He. cbn [l2Elements].
    destruct (if continuous then _ else _) as [[Xnod dA]|]; [|exact Hsym].
    destruct (evalSolution _ _ _) as [sField|]; [|exact Hsym].
    replace (Z.of_nat e + 1 + 1)%Z with (Z.of_nat (S e) + 1)%Z by lia.
    apply IH; [lia|].
    apply (for_each_invariant (fun st => sp_symmetric st.1)); [|exact Hsym].
    intros pt st' _ Hst'. apply l2GaussPoint_symmetric; auto. lia.
Qed.

(** X4: [assembleL2matrices] keeps the matrix symmetric, entry by entry and
    exactly in floating point: when [A(i,j) = A(j,i)] holds for all [i,j]
    on entry it holds on return, whether the assembly succeeds or stops at
    an element, and in the continuous and the discrete variant.  (The
    connectivity table lists distinct nodes for each element, at least as
    many as the spline has basis functions on it.) *)
Theorem assembleL2matrices_keeps_symmetry (pch : patch) (lr : LRSplineVolume)
  (A : SparseMatrix) (B : Vector) (integrand : Integrand) (continuous : bool) :
  lrspline pch = Some lr -> consistentMNPC pch lr -> sp_symmetric A ->
  sp_symmetric (assembleL2matrices pch A B integrand continuous).2.1.
Proof.
  intros Hlr Hc Hsym. unfold assembleL2matrices. rewrite Hlr.
  assert (Hloop : forall ng1 ng2 ng3 xg yg zg wg,
    sp_symmetric (l2Elements pch lr integrand continuous ng1 ng2 ng3
                             xg yg zg wg (getAllElements lr) 1 (A, B)).2.1).
  { intros. apply (l2Elements_symmetric _ _ _ _ _ _ _ _ _ _ _ _ 0); auto. }
  repeat match goal with
         | |- context [match getCoord ?n with _ => _ end] => destruct (getCoord n)
         end; try exact Hsym.
  destruct continuous; [destruct (getWeight _)|]; try exact Hsym; apply Hloop.
Qed.

(** X5: [assembleL2matrices] only accumulates into its arguments: the
    dimensions of [A] and the size of [B] on return are those on entry,
    on success and on failure. *)
Theorem assembleL2matrices_keeps_dimensions (pch : patch) (A : SparseMatrix)
  (B : Vector) (integrand : Integrand) (continuous : bool) :
  let r := assembleL2matrices pch A B integrand continuous in
  sp_rows r.2.1 = sp_rows A /\ sp_cols r.2.1 = sp_cols A
  /\ length r.2.2 = length B.
Proof.
  set (P := fun st : SparseMatrix * Vector =>
              sp_rows st.1 = sp_rows A /\ sp_cols st.1 = sp_cols A
              /\ length st.2 = length B).
  assert (Hint : forall iel phi sField ip dJw st,
            P st -> P (l2Integrate pch iel phi sField ip dJw st)).
  { intros iel phi sField ip dJw st Hst. unfold l2Integrate.
    apply (for_each_invariant P); [|exact Hst].
    intros ii [A' B'] _ (Hr & Hc & Hl). unfold P. cbn [fst snd] in *.
    split; [|split].
    - apply (for_each_invariant (fun M => sp_rows M = sp_rows A)); [|exact Hr].
      intros jj M _ HM. exact HM.
    - apply (for_each_invariant (fun M => sp_cols M = sp_cols A)); [|exact Hc].
      intros jj M _ HM. exact HM.
    - apply (for_each_invariant (fun v : Vector => length v = length B));
        [|exact Hl].
      intros rr v _ Hv. unfold vec_add_at. now rewrite length_alter. }
  assert (Hel : forall lr ng1 ng2 ng3 xg yg zg wg els iel st,
            P st -> P (l2Elements pch lr integrand continuous ng1 ng2 ng3
                                  xg yg zg wg els iel st).2).
  { intros lr ng1 ng2 ng3 xg yg zg wg els.
    induction els as [|el els IH]; intros iel st Hst; [exact Hst|].
    cbn [l2Elements].
    destruct (if continuous then _ else _) as [[Xnod dA]|]; [|exact Hst].
    destruct (evalSolution _ _ _) as [sField|]; [|exact Hst].
    apply IH. apply (for_each_invariant P); [|exact Hst].
    intros [ip [[i j] k]] st' _ Hst'. unfold l2GaussPoint.
    destruct continuous.
    - unfold extractBasis. destruct (_ =? _)%float; [exact Hst'|now apply Hint].
    - now apply Hint. }
  intros r. subst r. unfold assembleL2matrices.
  assert (H0 : P (A, B)) by (unfold P; auto).
  destruct (lrspline pch) as [lr|]; [|exact H0].
  repeat match goal with
         | |- context [match getCoord ?n with _ => _ end] => destruct (getCoord n)
         end; try exact H0.
  destruct continuous; [destruct (getWeight _)|]; try exact H0; now apply Hel.
Qed.

(** X6: the element loop of [assembleL2matrices] runs through the elements
    in order and stops at the first one that fails: over a range
    [els1 ++ els2] it is the loop over [els1] followed, when that succeeds,
    by the loop over [els2] with the element counter advanced by the size
    of [els1]; when the first part fails, the matrices are left as they
    were at the failing element. *)
Theorem l2Elements_app (pch : patch) (lr : LRSplineVolume) (integrand : Integrand)
  (continuous : bool) (ng1 ng2 ng3 : Z) (xg yg zg wg : RealArray)
  (els1 els2 : list Element) (iel : Z) (st : SparseMatrix * Vector) :
  l2Elements pch lr integrand continuous ng1 ng2 ng3 xg yg zg wg
             (els1 ++ els2) iel st
  = let r := l2Elements pch lr integrand continuous ng1 ng2 ng3 xg yg zg wg
                        els1 iel st in
    if r.1
    then l2Elements pch lr integrand continuous ng1 ng2 ng3 xg yg zg wg
                    els2 (iel + Z.of_nat (length els1)) r.2
    else r.
Proof.
  revert iel st. induction els1 as [|el els1 IH]; intros iel st.
  - cbn. now rewrite Z.add_0_r.
  - cbn [app l2Elements length].
    destruct (if continuous then _ else _) as [[Xnod dA]|]; [|reflexivity].
    destruct (evalSolution _ _ _) as [sField|]; [|reflexivity].
    rewrite IH. cbn zeta.
    now replace (iel + 1 + Z.of_nat (length els1))%Z
      with (iel + Z.of_nat (S (length els1)))%Z by lia.
Qed.

End Assembly.

(** X4 on the single-element grid, continuous variant, from the empty
    system. *)
Lemma assembleL2matrices_keeps_symmetry_witness :
  sp_symmetric
    (@assembleL2matrices _ (Samples.gridKernel 1)
       (Samples.gridPatch 1 Samples.identityGeometry)
       (Samples.emptySystem 1 1).1 (Samples.emptySystem 1 1).2
       Samples.fluxIntegrand true).2.1.
Proof.
  apply (@assembleL2matrices_keeps_symmetry
           _ (Samples.gridKernel 1) _
           (Samples.gridVolume 1 Samples.identityGeometry)).
  - reflexivity.
  - split.
    + apply (bool_decide_unpack (Forall (fun row : list Z => NoDup row) _)).
      vm_compute. exact I.
    + intros u v w e He. cbn in He.
      assert (e = 0) as -> by lia. split; cbn; lia.
  - intros i j. reflexivity.
Defined.

End ProjectionFacts.

(** ** The local fit of scRecovery *)

Module LocalFitFacts.
Import ASMu3D AccumulationFacts.

Lemma mat_shape_matAdd (r c : nat) (k : nat * nat) (v : float) (M : Matrix) :
  mat_shape r c M -> mat_shape r c (matAdd k v M).
Proof.
  intros (Hr & Hc & Hl). unfold mat_shape, matAdd, mat_add_at.
  cbn [rows cols elem]. now rewrite length_alter.
Qed.

Lemma mat_shape_set (r c i j : nat) (v : float) (M : Matrix) :
  mat_shape r c M -> mat_shape r c (mat_set_at i j v M).
Proof.
  intros (Hr & Hc & Hl). unfold mat_shape, mat_set_at.
  cbn [rows cols elem]. now rewrite length_insert.
Qed.

Lemma mindex_inside (r c : nat) (M : Matrix) (k : nat * nat) :
  mat_shape r c M -> inside r c k -> mindex M k.1 k.2 < length (elem M).
Proof.
  intros (Hr & Hc & Hl) [H1 H2]. unfold mindex. rewrite Hr, Hl. nia.
Qed.

Lemma mindex_injective (r c : nat) (M : Matrix) (k k' : nat * nat) :
  mat_shape r c M -> inside r c k -> inside r c k' ->
  mindex M k.1 k.2 = mindex M k'.1 k'.2 -> k = k'.
Proof.
  intros (Hr & Hc & Hl) [H1 H2] [H1' H2']. unfold mindex. rewrite Hr.
  destruct k as [i j], k' as [i' j']. cbn [fst snd] in *. intros Heq.
  assert (j - 1 = j' - 1) by nia.
  assert (i - 1 = i' - 1) by nia.
  f_equal; lia.
Qed.

Lemma matGet_matAdd (r c : nat) (k : nat * nat) (v : float) (M : Matrix)
  (k' : nat * nat) :
  mat_shape r c M -> inside r c k -> inside r c k' ->
  matGet (matAdd k v M) k'
  = if decide (k = k') then (matGet M k + v)%float else matGet M k'.
Proof.
  intros HM Hk Hk'. unfold matGet, matAdd, mat_at, mat_add_at.
  cbn [elem]. change (mindex _ k'.1 k'.2) with (mindex M k'.1 k'.2).
  destruct (decide (k = k')) as [<-|Hne].
  - rewrite list_lookup_total_alter_eq by now apply (mindex_inside r c).
    reflexivity.
  - apply list_lookup_total_alter_ne. intros Heq. apply Hne.
    now apply (mindex_injective r c M).
Qed.

Lemma mat_at_set (r c : nat) (i j : nat) (v : float) (M : Matrix) (i' j' : nat) :
  mat_shape r c M -> inside r c (i, j) -> inside r c (i', j') ->
  mat_at (mat_set_at i j v M) i' j'
  = if decide ((i, j) = (i', j')) then v else mat_at M i' j'.
Proof.
  intros HM Hk Hk'. unfold mat_at, mat_set_at.
  cbn [elem]. change (mindex _ i' j') with (mindex M i' j').
  destruct (decide ((i, j) = (i', j'))) as [Heq|Hne].
  - injection Heq as <- <-.
    apply list_lookup_total_insert_eq. exact (mindex_inside r c M (i, j) HM Hk).
  - apply list_lookup_total_insert_ne. intros Heq. apply Hne.
    exact (mindex_injective r c M (i, j) (i', j') HM Hk Hk' Heq).
Qed.

Lemma mzero_shape (r c : nat) : mat_shape r c (mzero r c).
Proof. unfold mat_shape, mzero. cbn. now rewrite length_replicate. Qed.

Lemma mat_at_mzero (r c i j : nat) : mat_at (mzero r c) i j = 0%float.
Proof.
  unfold mat_at, mzero. cbn [elem].
  rewrite list_lookup_total_alt.
  destruct (replicate (r * c) 0%float !! _) as [x|] eqn:Hx; [|reflexivity].
  now apply lookup_replicate in Hx as [-> _].
Qed.

Lemma set_column (r cc n c : nat) (f : nat -> float) (M : Matrix) :
  mat_shape r cc M -> n <= r -> 1 <= c <= cc ->
  let M' := for_each (seq 1 n) (fun l => mat_set_at l c (f l)) M in
  mat_shape r cc M'
  /\ forall l' c', inside r cc (l', c') ->
       mat_at M' l' c'
       = if decide (c' = c /\ l' <= n) then f l' else mat_at M l' c'.
Proof.
  intros HM Hn Hc. induction n as [|n IH]; cbn zeta.
  - split; [exact HM|]. intros l' c' [Hl' Hc']. cbn [fst snd] in *.
    rewrite decide_False by lia. reflexivity.
  - destruct IH as [Hshape Hent]; [lia|].
    rewrite seq_S, ASMu3DFacts.for_each_app. cbn [for_each foldl].
    split; [now apply mat_shape_set|].
    intros l' c' Hin.
    rewrite (mat_at_set r cc) by (assumption || (split; cbn; lia)).
    destruct Hin as [Hl' Hc']. cbn [fst snd] in *.
    destruct (decide ((1 + n, c) = (l', c'))) as [Heq|Hne].
    + injection Heq as <- <-. rewrite decide_True by lia. reflexivity.
    + rewrite Hent by (split; assumption).
      destruct (decide (c' = c /\ l' <= n)) as [[-> Hle]|Hno].
      * rewrite decide_True by lia. reflexivity.
      * rewrite decide_False; [reflexivity|].
        intros [-> Hle]. apply Hno. split; [reflexivity|].
        assert (l' <> S n) by (intros ->; apply Hne; reflexivity). lia.
Qed.

Section Fit.
Context {Integrand : Type} `{!Collaborators Integrand}.

Lemma scGaussPoint_invariant (lr : LRSplineVolume) (prm : scParams)
  (G : RealArray) (gaussPt : RealArray3) (sField : Matrix)
  (pt : nat * (nat * nat * nat)) (AB : Matrix * Matrix) :
  fitInvariant prm AB ->
  fitInvariant prm (scGaussPoint lr prm G gaussPt sField pt AB).
Proof.
  destruct pt as [ip [[i j] k]], AB as [A B].
  intros (Hsq & Hsym & HB). unfold scGaussPoint.
  set (P := evalMonomials _ _ _ _ _ _).
  rewrite (TensorLoopFacts.for_each_ext _ _
    (fun ii '(A, B) =>
       (for_each (seq 1 (nPol prm))
          (fun jj => matAdd (id ii, id jj) (vec_at P ii * vec_at P jj)%float) A,
        for_each (seq 1 (nCmp prm))
          (fun jj => matAdd (ii, jj)
                       (vec_at P ii * mat_at sField jj (ip + 1))%float) B))).
  2:{ intros ii [A' B']. reflexivity. }
  rewrite for_each_pair. rewrite (double_loop_updates matAdd).
  unfold fitInvariant. cbn [fst snd].
  assert (Hwf : forall k v t, mat_shape (nPol prm) (nPol prm) t ->
                              mat_shape (nPol prm) (nPol prm) (matAdd k v t)).
  { intros. now apply mat_shape_matAdd. }
  split; [|split].
  - now apply (addAll_wf matAdd (mat_shape (nPol prm) (nPol prm)) Hwf).
  - intros r c Hrc.
    apply (addAll_pair_symmetric matGet matAdd (mat_shape (nPol prm) (nPol prm))
             (inside (nPol prm) (nPol prm)) Hwf
             (matGet_matAdd (nPol prm) (nPol prm))
             _ _ _ A Hsq (NoDup_seq 1 _)); auto.
    + intros a b Ha%elem_of_seq Hb%elem_of_seq. unfold inside, id. cbn. lia.
    + intros a b. apply FloatFacts.mul_comm.
    + intros a b [H1 H2]. split; [exact H2|exact H1].
  - apply (for_each_invariant (mat_shape (nPol prm) (nCmp prm))); [|exact HB].
    intros ii M _ HM.
    apply (for_each_invariant (mat_shape (nPol prm) (nCmp prm))); [|exact HM].
    intros jj M' _ HM'. now apply mat_shape_matAdd.
Qed.

Lemma scElements_invariant (pch : patch) (lr : LRSplineVolume) (integrand : Integrand)
  (prm : scParams) (G : RealArray) (els : list Element) (AB AB' : Matrix * Matrix) :
  fitInvariant prm AB ->
  scElements pch lr integrand prm G els AB = Some AB' ->
  fitInvariant prm AB'.
Proof.
  revert AB. induction els as [|el els IH]; intros AB Hinv Hrun.
  - cbn in Hrun. now injection Hrun as <-.
  - cbn [scElements] in Hrun.
    destruct (evalSolution _ _ _) as [sField|]; [|discriminate].
    apply IH in Hrun; [exact Hrun|].
    apply (for_each_invariant (fitInvariant prm)); [|exact Hinv].
    intros pt st _. apply scGaussPoint_invariant.
Qed.

Lemma scLocalSystem_invariant (pch : patch) (lr : LRSplineVolume)
  (integrand : Integrand) (prm : scParams) (ip : nat) (b : Basisfunction)
  (AB : Matrix * Matrix) :
  scLocalSystem pch lr integrand prm ip b = Some AB -> fitInvariant prm AB.
Proof.
  unfold scLocalSystem, scAssemble. apply scElements_invariant.
  unfold fitInvariant. cbn [fst snd]. split; [|split].
  - apply mzero_shape.
  - intros r c _. now rewrite !mat_at_mzero.
  - apply mzero_shape.
Qed.

(** X7: the local least-squares system that [scRecovery] assembles for a
    basis function has an [nPol] by [nPol] matrix [A] with
    [A(r,c) = A(c,r)] exactly, and an [nPol] by [nCmp] right-hand side. *)
Theorem local_system_is_symmetric (pch : patch) (lr : LRSplineVolume)
  (integrand : Integrand) (prm : scParams) (ip : nat) (b : Basisfunction)
  (A B : Matrix) :
  scLocalSystem pch lr integrand prm ip b = Some (A, B) ->
  mat_shape (nPol prm) (nPol prm) A /\ mat_symmetric A
  /\ mat_shape (nPol prm) (nCmp prm) B.
Proof.
  intros Hrun. apply scLocalSystem_invariant in Hrun.
  destruct Hrun as (Hsq & Hsym & HB). cbn [fst snd] in *.
  split; [exact Hsq|]. split; [|exact HB].
  destruct Hsq as (Hrows & Hcols & _). split; [congruence|].
  intros r c Hr Hc. apply Hsym. rewrite Hrows in Hr, Hc. split; assumption.
Qed.

(** X8: one pass of the loop over the basis functions of [scRecovery], for
    the function number [ip] (zero-based), solves the local system and
    stores the first row of its solution in column [ip+1] of [sValues];
    the other columns and the shape of [sValues] stay as they are, and the
    counter becomes [ip+1]. *)
Theorem scBasisfunction_stores_column (pch : patch) (lr : LRSplineVolume)
  (integrand : Integrand) (prm : scParams) (b : Basisfunction)
  (ip nCol : nat) (sValues : Matrix) (st' : nat * Matrix) :
  mat_shape (nCmp prm) nCol sValues -> ip < nCol ->
  scBasisfunction pch lr integrand prm b (ip, sValues) = Some st' ->
  exists A B B',
    scLocalSystem pch lr integrand prm ip b = Some (A, B)
    /\ denseSolve A B = Some B'
    /\ st'.1 = S ip
    /\ mat_shape (nCmp prm) nCol st'.2
    /\ (forall l, 1 <= l <= nCmp prm -> mat_at st'.2 l (ip + 1) = mat_at B' 1 l)
    /\ (forall l c, inside (nCmp prm) nCol (l, c) -> c <> ip + 1 ->
          mat_at st'.2 l c = mat_at sValues l c).
Proof.
  intros Hshape Hip Hrun. unfold scBasisfunction in Hrun.
  destruct (scLocalSystem _ _ _ _ _ _) as [[A B]|]; [|discriminate].
  destruct (denseSolve A B) as [B'|] eqn:Hsolve; [|discriminate].
  injection Hrun as <-. exists A, B, B'. cbn [fst snd].
  destruct (set_column (nCmp prm) nCol (nCmp prm) (S ip) (fun l => mat_at B' 1 l)
              sValues Hshape) as [Hsh Hent]; [lia|lia|].
  cbn zeta in Hsh, Hent.
  repeat split; try assumption; try reflexivity.
  - apply Hsh.
  - apply Hsh.
  - apply Hsh.
  - intros l Hl. rewrite Hent by (split; cbn; lia).
    rewrite decide_True by lia. reflexivity.
  - intros l c Hin Hc. rewrite Hent by assumption.
    rewrite decide_False by lia. reflexivity.
Qed.

End Fit.

(** X7 for the corner function of the grid of two elements per
    direction. *)
Lemma local_system_is_symmetric_witness :
  exists A B,
    @scLocalSystem _ (Samples.gridKernel 2)
       (Samples.gridPatch 2 Samples.identityGeometry)
       (Samples.gridVolume 2 Samples.identityGeometry) Samples.fluxIntegrand
       (mkScParams 1 1 1 [0.0%float] [0.0%float] [0.0%float]
          ([0.0%float], [0.0%float], [0.0%float]) 2 2 2 1 8)
       0 (Samples.gridFunction 2 (0, 0, 0)%nat) = Some (A, B)
    /\ mat_symmetric A.
Proof.
  eexists _, _. split; [vm_compute; reflexivity|].
  eapply (@local_system_is_symmetric _ (Samples.gridKernel 2)
            (Samples.gridPatch 2 Samples.identityGeometry)
            (Samples.gridVolume 2 Samples.identityGeometry) Samples.fluxIntegrand
            (mkScParams 1 1 1 [0.0%float] [0.0%float] [0.0%float]
               ([0.0%float], [0.0%float], [0.0%float]) 2 2 2 1 8)
            0 (Samples.gridFunction 2 (0, 0, 0)%nat)).
  vm_compute. reflexivity.
Defined.

(** X8 for the corner function of the grid of two elements per direction:
    the first pass of the loop. *)
Lemma scBasisfunction_stores_column_witness :
  exists st',
    @scBasisfunction _ (Samples.gridKernel 2)
       (Samples.gridPatch 2 Samples.identityGeometry)
       (Samples.gridVolume 2 Samples.identityGeometry) Samples.fluxIntegrand
       (mkScParams 1 1 1 [0.0%float] [0.0%float] [0.0%float]
          ([0.0%float], [0.0%float], [0.0%float]) 2 2 2 1 8)
       (Samples.gridFunction 2 (0, 0, 0)%nat) (0, mzero 1 27) = Some st'
    /\ st'.1 = 1.
Proof.
  destruct (@scBasisfunction _ (Samples.gridKernel 2)
       (Samples.gridPatch 2 Samples.identityGeometry)
       (Samples.gridVolume 2 Samples.identityGeometry) Samples.fluxIntegrand
       (mkScParams 1 1 1 [0.0%float] [0.0%float] [0.0%float]
          ([0.0%float], [0.0%float], [0.0%float]) 2 2 2 1 8)
       (Samples.gridFunction 2 (0, 0, 0)%nat) (0, mzero 1 27)) as [st'|] eqn:Hrun.
  - exists st'. split; [reflexivity|].
    destruct (@scBasisfunction_stores_column _ (Samples.gridKernel 2) _ _ _
                (mkScParams 1 1 1 [0.0%float] [0.0%float] [0.0%float]
                   ([0.0%float], [0.0%float], [0.0%float]) 2 2 2 1 8) _
                0 27 (mzero 1 27) st' (mzero_shape 1 27)
                ltac:(lia) Hrun)
      as (A & B & B' & _ & _ & Hcount & _).
    exact Hcount.
  - exfalso. vm_compute in Hrun. discriminate.
Defined.

End LocalFitFacts.

(** ** The element range of the local fit of scRecovery *)

Module ExtendedSupportFacts.
Import ASMu3D AccumulationFacts.

Lemma evalMonomials_first (p1 p2 p3 : Z) (x y z : float) :
  (1 <= p1)%Z -> (1 <= p2)%Z -> (1 <= p3)%Z ->
  vec_at (evalMonomials p1 p2 p3 x y z) 1 = 1.0%float.
Proof.
  intros H1 H2 H3. unfold vec_at.
  rewrite TensorLoopFacts.evalMonomials_closed by lia.
  apply list_lookup_total_correct. rewrite list_lookup_fmap.
  replace (1 - 1) with (0 + Z.to_nat p1 * (0 + Z.to_nat p2 * 0)) by lia.
  rewrite TensorLoopFacts.tripleLoop_lookup by lia. reflexivity.
Qed.

Section Range.
Context {Integrand : Type} `{!Collaborators Integrand}.

(** The matrix part of [scGaussPoint] is the double loop [A += P^t * P]. *)
Lemma scGaussPoint_matrix (lr : LRSplineVolume) (prm : scParams)
  (G : RealArray) (gaussPt : RealArray3) (sField : Matrix)
  (ip i j k : nat) (AB : Matrix * Matrix) :
  let X := point lr (gaussPt.1.1 !!! i) (gaussPt.1.2 !!! j) (gaussPt.2 !!! k) in
  let P := evalMonomials (n1 prm) (n2 prm) (n3 prm)
             (X !!! 0%nat - G !!! 0%nat)%float (X !!! 1%nat - G !!! 1%nat)%float
             (X !!! 2%nat - G !!! 2%nat)%float in
  (scGaussPoint lr prm G gaussPt sField (ip, (i, j, k)) AB).1
  = addAll matAdd
      (pairUpdates (seq 1 (nPol prm)) id
                   (fun ii jj => (vec_at P ii * vec_at P jj)%float))
      AB.1.
Proof.
  intros X P. destruct AB as [A B]. unfold scGaussPoint. fold X. fold P.
  rewrite (TensorLoopFacts.for_each_ext _ _
    (fun ii '(A, B) =>
       (for_each (seq 1 (nPol prm))
          (fun jj => matAdd (id ii, id jj) (vec_at P ii * vec_at P jj)%float) A,
        for_each (seq 1 (nCmp prm))
          (fun jj => matAdd (ii, jj)
                       (vec_at P ii * mat_at sField jj (ip + 1))%float) B))).
  2:{ intros ii [A' B']. reflexivity. }
  rewrite for_each_pair. cbn [fst].
  now rewrite (double_loop_updates matAdd).
Qed.

(** Every Gauss point adds [P(1)*P(1) = 1.0*1.0] to [A(1,1)]. *)
Lemma scGaussPoint_counts (lr : LRSplineVolume) (prm : scParams)
  (G : RealArray) (gaussPt : RealArray3) (sField : Matrix)
  (pt : nat * (nat * nat * nat)) (AB : Matrix * Matrix) :
  (1 <= n1 prm)%Z -> (1 <= n2 prm)%Z -> (1 <= n3 prm)%Z -> 1 <= nPol prm ->
  mat_shape (nPol prm) (nPol prm) AB.1 ->
  mat_at (scGaussPoint lr prm G gaussPt sField pt AB).1 1 1
  = (mat_at AB.1 1 1 + 1.0 * 1.0)%float.
Proof.
  intros H1 H2 H3 Hpol Hshape. destruct pt as [ip [[i j] k]].
  rewrite scGaussPoint_matrix. cbn zeta.
  set (P := evalMonomials _ _ _ _ _ _).
  assert (HP : vec_at P 1 = 1.0%float) by now apply evalMonomials_first.
  transitivity (matGet AB.1 (1%nat, 1%nat) + vec_at P 1 * vec_at P 1)%float;
    [|now rewrite HP].
  apply (addAll_hit matGet matAdd (mat_shape (nPol prm) (nPol prm))
           (inside (nPol prm) (nPol prm))
           (fun k v t => LocalFitFacts.mat_shape_matAdd _ _ k v t)
           (LocalFitFacts.matGet_matAdd (nPol prm) (nPol prm))
           _ AB.1 (1%nat, 1%nat) (vec_at P 1 * vec_at P 1)%float).
  - exact Hshape.
  - apply Forall_forall. intros [kk v] Hin. apply elem_of_pairUpdates in Hin.
    destruct Hin as (ii & jj & Hii%elem_of_seq & Hjj%elem_of_seq & -> & _).
    unfold inside, id. cbn. lia.
  - apply pairUpdates_NoDup; [apply NoDup_seq|]. intros a b _ _ Hab. exact Hab.
  - apply elem_of_pairUpdates. exists 1, 1.
    repeat split; apply elem_of_seq; lia.
Qed.

(** The element loop in terms of its single passes. *)
Lemma scElements_cons (pch : patch) (lr : LRSplineVolume) (integrand : Integrand)
  (prm : scParams) (G : RealArray) (el : Element) (els : list Element)
  (AB : Matrix * Matrix) :
  scElements pch lr integrand prm G (el :: els) AB
  = AB' ← scElement pch lr integrand prm G el AB;
    scElements pch lr integrand prm G els AB'.
Proof.
  cbn [scElements]. unfold scElement, scGaussParameters.
  now destruct (evalSolution _ _ _).
Qed.

Lemma fold_scElement_None (pch : patch) (lr : LRSplineVolume) (integrand : Integrand)
  (prm : scParams) (G : RealArray) (els : list Element) :
  foldl (fun acc el => AB ← acc; scElement pch lr integrand prm G el AB) None els
  = None.
Proof. induction els as [|el els IH]; [reflexivity|exact IH]. Qed.

Lemma scElements_fold (pch : patch) (lr : LRSplineVolume) (integrand : Integrand)
  (prm : scParams) (G : RealArray) (els : list Element) (AB : Matrix * Matrix) :
  scElements pch lr integrand prm G els AB
  = foldl (fun acc el => AB ← acc; scElement pch lr integrand prm G el AB)
          (Some AB) els.
Proof.
  revert AB. induction els as [|el els IH]; intros AB; [reflexivity|].
  rewrite scElements_cons. cbn [foldl mbind option_bind].
  destruct (scElement pch lr integrand prm G el AB) as [AB'|]; cbn.
  - apply IH.
  - now rewrite fold_scElement_None.
Qed.

Lemma scElements_None (pch : patch) (lr : LRSplineVolume) (integrand : Integrand)
  (prm : scParams) (G : RealArray) (els : list Element) (AB : Matrix * Matrix) :
  scElements pch lr integrand prm G els AB = None
  <-> exists el, el ∈ els
        /\ evalSolution pch integrand
             (expandTensorGrid (scGaussParameters pch prm el)) = None.
Proof.
  revert AB. induction els as [|el els IH]; intros AB.
  - cbn. split; [discriminate|]. intros (el & Hin & _).
    now apply elem_of_nil in Hin.
  - rewrite scElements_cons. unfold scElement at 1.
    destruct (evalSolution pch integrand
                (expandTensorGrid (scGaussParameters pch prm el))) as [sField|] eqn:Hev.
    + cbn [mbind option_bind]. rewrite IH. split.
      * intros (el' & Hin & Hnone). exists el'. split; [now right|exact Hnone].
      * intros (el' & Hin & Hnone). apply elem_of_cons in Hin as [->|Hin].
        -- congruence.
        -- eauto.
    + cbn. split; [|reflexivity]. intros _. exists el. split; [now left|exact Hev].
Qed.

(** The local system holds, in [A(1,1)], one count for every Gauss point
    of every element of the range it was assembled over. *)
Lemma scElements_counts (pch : patch) (lr : LRSplineVolume) (integrand : Integrand)
  (prm : scParams) (G : RealArray) (els : list Element) (AB AB' : Matrix * Matrix)
  (m : nat) :
  (1 <= n1 prm)%Z -> (1 <= n2 prm)%Z -> (1 <= n3 prm)%Z -> 1 <= nPol prm ->
  fitInvariant prm AB -> mat_at AB.1 1 1 = countSamples m ->
  scElements pch lr integrand prm G els AB = Some AB' ->
  mat_at AB'.1 1 1 = countSamples (m + length els * samplePoints prm).
Proof.
  intros H1 H2 H3 Hpol. revert AB m.
  induction els as [|el els IH]; intros AB m Hinv Hm Hrun.
  - cbn in Hrun. injection Hrun as <-. rewrite Hm. f_equal. cbn. lia.
  - cbn [scElements] in Hrun.
    destruct (evalSolution _ _ _) as [sField|]; [|discriminate].
    set (gp := (_, _, _)) in Hrun.
    assert (Hloop : forall l AB0 m0,
      fitInvariant prm AB0 -> mat_at AB0.1 1 1 = countSamples m0 ->
      fitInvariant prm (for_each l (scGaussPoint lr prm G gp sField) AB0)
      /\ mat_at (for_each l (scGaussPoint lr prm G gp sField) AB0).1 1 1
         = countSamples (m0 + length l)).
    { induction l as [|pt l IHl]; intros AB0 m0 Hinv0 Hm0.
      - split; [exact Hinv0|]. change (for_each [] _ AB0) with AB0.
        rewrite Hm0. f_equal. cbn. lia.
      - rewrite ASMu3DFacts.for_each_cons.
        destruct (IHl (scGaussPoint lr prm G gp sField pt AB0) (S m0)) as [Hi Hc].
        + now apply LocalFitFacts.scGaussPoint_invariant.
        + rewrite scGaussPoint_counts by (assumption || apply Hinv0).
          rewrite Hm0. reflexivity.
        + split; [exact Hi|]. rewrite Hc. f_equal. cbn. lia. }
    destruct (Hloop (gaussLoop (ng1 prm) (ng2 prm) (ng3 prm)) AB m Hinv Hm)
      as [Hinv' Hm'].
    rewrite (IH _ (m + samplePoints prm) Hinv') ; [f_equal; cbn; lia| |exact Hrun].
    rewrite Hm'. f_equal. unfold gaussLoop, samplePoints.
    rewrite length_imap, TensorLoopFacts.tripleLoop_length. lia.
Qed.

Lemma scAssemble_counts (pch : patch) (lr : LRSplineVolume) (integrand : Integrand)
  (prm : scParams) (ip : nat) (els : list Element) (A B : Matrix) :
  (1 <= n1 prm)%Z -> (1 <= n2 prm)%Z -> (1 <= n3 prm)%Z -> 1 <= nPol prm ->
  scAssemble pch lr integrand prm ip els = Some (A, B) ->
  mat_at A 1 1 = countSamples (length els * samplePoints prm).
Proof.
  intros H1 H2 H3 Hpol Hrun. unfold scAssemble in Hrun.
  apply (scElements_counts _ _ _ _ _ _ _ _ 0 H1 H2 H3 Hpol) in Hrun.
  - exact Hrun.
  - split; [|split].
    + apply LocalFitFacts.mzero_shape.
    + intros r c _. cbn [fst]. now rewrite !LocalFitFacts.mat_at_mzero.
    + apply LocalFitFacts.mzero_shape.
  - cbn [fst]. apply LocalFitFacts.mat_at_mzero.
Qed.

Lemma scSetup_nPol (pch : patch) (lr : LRSplineVolume) (integrand : Integrand)
  (prm : scParams) :
  scSetup pch lr integrand = Some prm ->
  nPol prm = Z.to_nat (n1 prm * n2 prm * n3 prm).
Proof.
  unfold scSetup. intros Hset.
  repeat match type of Hset with
         | context [match getCoord ?n with _ => _ end] =>
             destruct (getCoord n); [|discriminate]
         end.
  destruct (grevilleOrFail pch 0); [|discriminate].
  destruct (grevilleOrFail pch 1); [|discriminate].
  destruct (grevilleOrFail pch 2); [|discriminate].
  cbn in Hset. now injection Hset as <-.
Qed.

(** C1 (amended): for every basis function the local least-squares fit of
    [scRecovery] is the element loop over the extended support, started
    from the zero system, whatever number of sample points the own support
    of the function holds: the entry [A(1,1)] of the assembled system
    counts one for every Gauss point of every element of the extended
    support, and the own support is not read.  The fit of the
    specification is the same one when the own support holds fewer than
    [nPol] sample points; when it holds [nPol] or more, the fit of the
    specification counts the Gauss points of the own support instead. *)
Theorem local_fit_ignores_sample_count (pch : patch) (lr : LRSplineVolume)
  (integrand : Integrand) (prm : scParams) :
  scSetup pch lr integrand = Some prm ->
  (1 <= n1 prm)%Z -> (1 <= n2 prm)%Z -> (1 <= n3 prm)%Z ->
  forall ip b,
    scLocalSystem pch lr integrand prm ip b
    = foldl (fun acc el =>
               AB ← acc;
               scElement pch lr integrand prm
                 (point lr ((gpar prm).1.1 !!! ip) ((gpar prm).1.2 !!! ip)
                        ((gpar prm).2 !!! ip)) el AB)
            (Some (mzero (nPol prm) (nPol prm), mzero (nPol prm) (nCmp prm)))
            (getExtendedSupport b)
    /\ (forall A B,
          scLocalSystem pch lr integrand prm ip b = Some (A, B) ->
          mat_at A 1 1
          = countSamples (length (getExtendedSupport b) * samplePoints prm))
    /\ (forall own,
          scLocalSystem pch lr integrand prm ip (withOwnSupport own b)
          = scLocalSystem pch lr integrand prm ip b)
    /\ ((ownSamplePoints prm b < Z.of_nat (nPol prm))%Z ->
        scLocalSystem_spec pch lr integrand prm ip b
        = scLocalSystem pch lr integrand prm ip b)
    /\ ((Z.of_nat (nPol prm) <= ownSamplePoints prm b)%Z ->
        forall A B,
          scLocalSystem_spec pch lr integrand prm ip b = Some (A, B) ->
          mat_at A 1 1
          = countSamples (length (supportedElements b) * samplePoints prm)).
Proof.
  intros Hset H1 H2 H3 ip b.
  assert (Hpol : 1 <= nPol prm).
  { rewrite (scSetup_nPol _ _ _ _ Hset). nia. }
  split; [|split; [|split; [|split]]].
  - unfold scLocalSystem, scAssemble. apply scElements_fold.
  - intros A B Hrun.
    exact (scAssemble_counts pch lr integrand prm ip _ A B H1 H2 H3 Hpol Hrun).
  - reflexivity.
  - intros Hfew. unfold scLocalSystem_spec, scLocalSystem, scSupport_spec.
    destruct (Z.ltb_spec (ownSamplePoints prm b) (Z.of_nat (nPol prm)));
      [reflexivity|lia].
  - intros Hmany A B Hrun. unfold scLocalSystem_spec, scSupport_spec in Hrun.
    destruct (Z.ltb_spec (ownSamplePoints prm b) (Z.of_nat (nPol prm)));
      [lia|].
    exact (scAssemble_counts pch lr integrand prm ip _ A B H1 H2 H3 Hpol Hrun).
Qed.

(** The loop over the basis functions assembles and solves the local
    system of every function it passes, the function at position [k] with
    the counter [ip0 + k]. *)
Lemma scBasisLoop_each (pch : patch) (lr : LRSplineVolume) (integrand : Integrand)
  (prm : scParams) (bs : list Basisfunction) (st st' : nat * Matrix)
  (k : nat) (b : Basisfunction) :
  scBasisLoop pch lr integrand prm bs st = Some st' ->
  bs !! k = Some b ->
  exists A B B',
    scLocalSystem pch lr integrand prm (st.1 + k) b = Some (A, B)
    /\ denseSolve A B = Some B'.
Proof.
  revert st k. induction bs as [|b0 bs IH]; intros st k Hrun Hk; [discriminate|].
  cbn [scBasisLoop] in Hrun.
  destruct (scBasisfunction pch lr integrand prm b0 st) as [st1|] eqn:Hb0;
    [|discriminate].
  destruct k as [|k].
  - injection Hk as ->. destruct st as [ip sValues].
    unfold scBasisfunction in Hb0. cbn [fst]. rewrite Nat.add_0_r.
    destruct (scLocalSystem _ _ _ _ _ _) as [[A B]|]; [|discriminate].
    destruct (denseSolve A B) as [B'|] eqn:Hsolve; [|discriminate].
    now exists A, B, B'.
  - cbn in Hk. destruct (IH st1 k Hrun Hk) as (A & B & B' & Hsys & Hsolve).
    rewrite (ASMu3DFacts.scBasisfunction_counter _ _ _ _ _ _ _ Hb0) in Hsys.
    exists A, B, B'. split; [|exact Hsolve].
    now replace (st.1 + S k) with (S st.1 + k) by lia.
Qed.

(** C3: for every basis function processed by [scRecovery] the local
    least-squares system is assembled over the extended support, without
    any condition on the own support of the function.  The local system
    is the element loop over the elements of the extended support, started
    from the zero system; it fails exactly when the solution cannot be
    evaluated on some element of the extended support; a call of
    [scRecovery] that returns has assembled and solved this system for
    every basis function of the patch; and the loop over the basis
    functions computes the same values when every own support is replaced
    by an arbitrary other element range. *)
Theorem local_system_over_extended_support (pch : patch) (lr : LRSplineVolume)
  (integrand : Integrand) (prm : scParams) :
  (forall ip b,
      let G := point lr ((gpar prm).1.1 !!! ip) ((gpar prm).1.2 !!! ip)
                     ((gpar prm).2 !!! ip) in
      scLocalSystem pch lr integrand prm ip b
      = foldl (fun acc el => AB ← acc; scElement pch lr integrand prm G el AB)
              (Some (mzero (nPol prm) (nPol prm), mzero (nPol prm) (nCmp prm)))
              (getExtendedSupport b))
  /\ (forall ip b,
        scLocalSystem pch lr integrand prm ip b = None
        <-> exists el, el ∈ getExtendedSupport b
              /\ evalSolution pch integrand
                   (expandTensorGrid (scGaussParameters pch prm el)) = None)
  /\ (forall ans k b,
        lrspline pch = Some lr ->
        scSetup pch lr integrand = Some prm ->
        scRecovery pch integrand = Some ans ->
        getAllBasisfunctions lr !! k = Some b ->
        exists A B B',
          scLocalSystem pch lr integrand prm k b = Some (A, B)
          /\ denseSolve A B = Some B')
  /\ (forall (own : Basisfunction -> list Element) bs st,
        scBasisLoop pch lr integrand prm
                    ((fun b => withOwnSupport (own b) b) <$> bs) st
        = scBasisLoop pch lr integrand prm bs st).
Proof.
  split; [|split; [|split]].
  - intros ip b G. unfold scLocalSystem, scAssemble. fold G.
    apply scElements_fold.
  - intros ip b. unfold scLocalSystem, scAssemble. apply scElements_None.
  - intros ans k b Hlr Hset Hrun Hk. unfold scRecovery in Hrun.
    rewrite Hlr, Hset in Hrun. cbn [mbind option_bind] in Hrun.
    destruct (scBasisLoop _ _ _ _ _ _) as [st|] eqn:Hloop; [|discriminate].
    exact (scBasisLoop_each _ _ _ _ _ _ _ k b Hloop Hk).
  - intros own bs. induction bs as [|b bs IH]; intros st; [reflexivity|].
    cbn [fmap list_fmap scBasisLoop].
    rewrite ASMu3DFacts.scBasisfunction_own_support.
    destruct (scBasisfunction pch lr integrand prm b st) as [st'|];
      [apply IH|reflexivity].
Qed.

End Range.

(** C1 (amended) on the trilinear grid of three elements per direction,
    with first derivatives: the inner basis function number 21 has eight
    own elements with one sample point each for the eight terms of the
    polynomial, and its local system counts the 27 sample points of the
    extended support. *)
Lemma local_fit_ignores_sample_count_witness :
  let K := Samples.gridKernel 3 in
  let pch := Samples.gridPatch 3 Samples.identityGeometry in
  let lr := Samples.gridVolume 3 Samples.identityGeometry in
  let b := Samples.gridFunction 3 (1, 1, 1)%nat in
  exists prm A B,
    @scSetup _ K pch lr Samples.fluxIntegrand = Some prm
    /\ (Z.of_nat (nPol prm) <= ownSamplePoints prm b)%Z
    /\ @scLocalSystem _ K pch lr Samples.fluxIntegrand prm 21 b = Some (A, B)
    /\ mat_at A 1 1 = 27.0%float.
Proof.
  intros K pch lr b.
  destruct (@scSetup _ K pch lr Samples.fluxIntegrand) as [prm|] eqn:Hset;
    [|exfalso; vm_compute in Hset; discriminate].
  pose proof Hset as Hval. vm_compute in Hval. injection Hval as Hval.
  subst prm.
  match type of Hset with _ = Some ?p => set (prm := p) in * end.
  destruct (@scLocalSystem _ K pch lr Samples.fluxIntegrand prm 21 b)
    as [[A B]|] eqn:Hrun; [|exfalso; vm_compute in Hrun; discriminate].
  exists prm, A, B.
  split; [exact Hset|]. split; [vm_compute; discriminate|].
  split; [exact Hrun|].
  destruct (@local_fit_ignores_sample_count _ K pch lr Samples.fluxIntegrand
              prm Hset) with (ip := 21) (b := b) as [_ [Hcount _]];
    try (vm_compute; discriminate).
  rewrite (Hcount A B Hrun). vm_compute. reflexivity.
Defined.

(** C3 on the grid of two elements per direction, where [scRecovery]
    returns: the local system of the corner function, the first one of
    the patch, has been assembled and solved, and it is the element loop
    over the extended support of that function. *)
Lemma local_system_over_extended_support_witness :
  let K := Samples.gridKernel 2 in
  let pch := Samples.gridPatch 2 Samples.identityGeometry in
  let lr := Samples.gridVolume 2 Samples.identityGeometry in
  let b := Samples.gridFunction 2 (0, 0, 0)%nat in
  exists prm A B B',
    @scSetup _ K pch lr Samples.fluxIntegrand = Some prm
    /\ @scLocalSystem _ K pch lr Samples.fluxIntegrand prm 0 b = Some (A, B)
    /\ denseSolve A B = Some B'
    /\ @scLocalSystem _ K pch lr Samples.fluxIntegrand prm 0 b
       = foldl (fun acc el =>
                  AB ← acc;
                  @scElement _ K pch lr Samples.fluxIntegrand prm
                    (@point _ K lr ((gpar prm).1.1 !!! 0%nat)
                            ((gpar prm).1.2 !!! 0%nat) ((gpar prm).2 !!! 0%nat))
                    el AB)
               (Some (mzero (nPol prm) (nPol prm), mzero (nPol prm) (nCmp prm)))
               (getExtendedSupport b).
Proof.
  intros K pch lr b.
  destruct (@scSetup _ K pch lr Samples.fluxIntegrand) as [prm|] eqn:Hset;
    [|exfalso; vm_compute in Hset; discriminate].
  destruct (@scRecovery _ K pch Samples.fluxIntegrand) as [ans|] eqn:Hrun;
    [|exfalso; vm_compute in Hrun; discriminate].
  assert (Hb : getAllBasisfunctions lr !! 0%nat = Some b)
    by (vm_compute; reflexivity).
  destruct (@local_system_over_extended_support _ K pch lr
              Samples.fluxIntegrand prm) as (Hfold & _ & Hsolved & _).
  destruct (Hsolved ans 0%nat b eq_refl Hset Hrun Hb) as (A & B & B' & Hsys & Hsol).
  exists prm, A, B, B'.
  split; [reflexivity|]. split; [exact Hsys|]. split; [exact Hsol|].
  exact (Hfold 0%nat b).
Defined.

End ExtendedSupportFacts.

(** ** regularInterpolation, projectSolution and the result of scRecovery *)

Module InterpolationFacts.
Import ASMu3D AccumulationFacts.

Lemma bind_singleton_lookup {A} (f : nat -> A) (s n i : nat) :
  i < n -> (x ← seq s n; [f x]) !! i = Some (f (s + i)).
Proof.
  intros Hi. replace i with (0 + 1 * i) at 1 by lia.
  rewrite (TensorLoopFacts.bind_seq_lookup _ 1); [reflexivity|reflexivity|assumption|lia].
Qed.

Lemma transposed_entry (M : Matrix) (i j : nat) :
  i < cols M -> j < rows M ->
  elem (transposed M) !! (i + cols M * j) = Some (mat_at M (j + 1) (i + 1)).
Proof.
  intros Hi Hj. unfold transposed. cbn [elem].
  rewrite (TensorLoopFacts.bind_seq_lookup _ (cols M)); [| |assumption|assumption].
  - rewrite bind_singleton_lookup by assumption.
    now rewrite (Nat.add_comm 1 j), (Nat.add_comm 1 i).
  - intros x. rewrite (TensorLoopFacts.bind_seq_length _ 1); [lia|reflexivity].
Qed.

Lemma interleave_entry (B : Vector) (nBasis nRows nCols : nat) (i j : nat) :
  i < nBasis -> j < nRows ->
  (i ← seq 0 nBasis; j ← seq 0 nRows; [vec_at B (1 + j * nCols + i)])
    !! (j + nRows * i)
  = Some (B !!! (j * nCols + i)).
Proof.
  intros Hi Hj.
  rewrite (TensorLoopFacts.bind_seq_lookup _ nRows); [| |assumption|assumption].
  - rewrite bind_singleton_lookup by assumption.
    cbn. unfold vec_at. do 2 f_equal. lia.
  - intros x. rewrite (TensorLoopFacts.bind_seq_length _ 1); [lia|reflexivity].
Qed.

Lemma interleave_length (B : Vector) (nBasis nRows nCols : nat) :
  length (i ← seq 0 nBasis; j ← seq 0 nRows; [vec_at B (1 + j * nCols + i)])
  = nBasis * nRows.
Proof.
  rewrite (TensorLoopFacts.bind_seq_length _ nRows); [reflexivity|].
  intros x. rewrite (TensorLoopFacts.bind_seq_length _ 1); [lia|reflexivity].
Qed.

Section Interpolation.
Context {Integrand : Type} `{!Collaborators Integrand}.

(** With arrays of the right sizes on a non-rational spline only the
    solver decides. *)
Lemma regularInterpolation_sized (pch : patch) (lr : LRSplineVolume)
  (upar vpar wpar : RealArray) (points : Matrix) :
  lrspline pch = Some lr -> rational lr = false ->
  length upar = nBasisFunctions lr -> length vpar = nBasisFunctions lr ->
  length wpar = nBasisFunctions lr -> cols points = nBasisFunctions lr ->
  regularInterpolation pch upar vpar wpar points
  = B' ← sparseSolve (interpolationMatrix lr upar vpar wpar)
                     (elem (transposed points));
    Some (withControlPoints (rows points)
            (i ← seq 0 (nBasisFunctions lr); j ← seq 0 (rows points);
             [vec_at B' (1 + j * cols points + i)]) lr).
Proof.
  intros Hlr Hrat Hu Hv Hw Hp. unfold regularInterpolation.
  rewrite Hlr, Hrat, Hu, Hv, Hw, Hp, Nat.eqb_refl. cbn [negb orb].
  now destruct (sparseSolve _ _).
Qed.

(** What a successful [regularInterpolation] has checked, and the spline
    it returns. *)
Lemma regularInterpolation_Some (pch : patch) (lr ans : LRSplineVolume)
  (upar vpar wpar : RealArray) (points : Matrix) :
  lrspline pch = Some lr ->
  regularInterpolation pch upar vpar wpar points = Some ans ->
  rational lr = false
  /\ (length upar = nBasisFunctions lr /\ length vpar = nBasisFunctions lr
      /\ length wpar = nBasisFunctions lr /\ cols points = nBasisFunctions lr)
  /\ exists B',
       sparseSolve (interpolationMatrix lr upar vpar wpar)
                   (elem (transposed points)) = Some B'
       /\ ans = withControlPoints (rows points)
                  (i ← seq 0 (nBasisFunctions lr); j ← seq 0 (rows points);
                   [vec_at B' (1 + j * cols points + i)]) lr.
Proof.
  intros Hlr Hrun. unfold regularInterpolation in Hrun. rewrite Hlr in Hrun.
  destruct (rational lr); [discriminate|].
  destruct (Nat.eqb_spec (length upar) (nBasisFunctions lr)) as [Hu|];
    [|discriminate].
  destruct (Nat.eqb_spec (length vpar) (nBasisFunctions lr)) as [Hv|];
    [|discriminate].
  destruct (Nat.eqb_spec (length wpar) (nBasisFunctions lr)) as [Hw|];
    [|discriminate].
  destruct (Nat.eqb_spec (cols points) (nBasisFunctions lr)) as [Hp|];
    [|discriminate].
  cbn [negb orb] in Hrun.
  destruct (sparseSolve _ _) as [B'|] eqn:Hsolve; [|discriminate].
  injection Hrun as <-. split; [reflexivity|]. split; [auto|].
  exists B'. split; reflexivity.
Qed.

(** X9: when [regularInterpolation] returns a spline, the patch spline is
    not rational, the three parameter arrays and the columns of [points]
    number [nBasis], and the solver has succeeded on the interpolation
    matrix with the transposed [points] as right-hand sides (one block of
    [nBasis] values per field).  The result has the basis functions and
    elements of the patch spline, dimension [points.rows()], and
    [nBasis*points.rows()] control values, interleaved: component [j] of
    control point [i] is entry [i + nBasis*j] of the solution. *)
Theorem regularInterpolation_result (pch : patch) (lr ans : LRSplineVolume)
  (upar vpar wpar : RealArray) (points : Matrix) :
  lrspline pch = Some lr ->
  regularInterpolation pch upar vpar wpar points = Some ans ->
  let nBasis := nBasisFunctions lr in
  rational lr = false
  /\ (length upar = nBasis /\ length vpar = nBasis /\ length wpar = nBasis
      /\ cols points = nBasis)
  /\ exists B',
       sparseSolve (interpolationMatrix lr upar vpar wpar)
                   (elem (transposed points)) = Some B'
       /\ ans = withControlPoints (rows points) (controlPoints ans) lr
       /\ dimension ans = rows points
       /\ length (controlPoints ans) = nBasis * rows points
       /\ (forall i j, i < nBasis -> j < rows points ->
             controlPoints ans !! (j + rows points * i)
             = Some (B' !!! (i + nBasis * j))
             /\ elem (transposed points) !! (i + nBasis * j)
                = Some (mat_at points (j + 1) (i + 1))).
Proof.
  intros Hlr Hrun nBasis.
  destruct (regularInterpolation_Some _ _ _ _ _ _ _ Hlr Hrun)
    as (Hrat & Hsizes & B' & Hsolve & ->).
  fold nBasis in Hsizes |- *. destruct Hsizes as (Hu & Hv & Hw & Hp).
  split; [exact Hrat|]. split; [auto|].
  exists B'. split; [exact Hsolve|].
  unfold withControlPoints. cbn [controlPoints dimension].
  split; [reflexivity|]. split; [reflexivity|].
  split; [exact (interleave_length B' nBasis (rows points) (cols points))|].
  intros i j Hi Hj. split.
  - transitivity (Some (B' !!! (j * cols points + i))).
    + exact (interleave_entry B' nBasis (rows points) (cols points) i j Hi Hj).
    + rewrite Hp. do 2 f_equal. lia.
  - rewrite <- Hp. apply transposed_entry; [now rewrite Hp|assumption].
Qed.

Lemma grevilleOrFail_Some (pch : patch) (lr : LRSplineVolume) (dir : Z) (d : nat) :
  lrspline pch = Some lr -> dir = Z.of_nat d -> d < 3 ->
  grevilleOrFail pch dir
  = Some ((fun b => getGrevilleParameter b !!! d) <$> getAllBasisfunctions lr).
Proof.
  intros Hlr -> Hd. unfold grevilleOrFail, getGrevilleParameters. rewrite Hlr.
  destruct (Z.ltb_spec (Z.of_nat d) 0) as [|_]; [lia|].
  destruct (Z.gtb_spec (Z.of_nat d) 2) as [|_]; [lia|].
  cbn [orb]. now rewrite Nat2Z.id.
Qed.

(** X10: [projectSolution], and with it the overload
    [evalSolution(integrand)], is [regularInterpolation] of the secondary
    solution evaluated at the Greville parameters of all basis functions.
    The three size tests on the parameter arrays cannot fail there: once
    the secondary solution has been evaluated with one column per basis
    function on a non-rational spline, only the solver decides. *)
Theorem projectSolution_at_greville_points (pch : patch) (lr : LRSplineVolume)
  (integr : Integrand) :
  lrspline pch = Some lr ->
  let g d := (fun b => getGrevilleParameter b !!! d) <$> getAllBasisfunctions lr in
  evalSolutionSpline pch integr = projectSolution pch integr
  /\ projectSolution pch integr
     = (sValues ← evalSolution pch integr (g 0, g 1, g 2);
        regularInterpolation pch (g 0) (g 1) (g 2) sValues)
  /\ (forall sValues,
        evalSolution pch integr (g 0, g 1, g 2) = Some sValues ->
        rational lr = false -> cols sValues = nBasisFunctions lr ->
        projectSolution pch integr
        = B' ← sparseSolve (interpolationMatrix lr (g 0) (g 1) (g 2))
                           (elem (transposed sValues));
          Some (withControlPoints (rows sValues)
                  (i ← seq 0 (nBasisFunctions lr); j ← seq 0 (rows sValues);
                   [vec_at B' (1 + j * cols sValues + i)]) lr)).
Proof.
  intros Hlr g.
  assert (Hproj : projectSolution pch integr
     = (sValues ← evalSolution pch integr (g 0, g 1, g 2);
        regularInterpolation pch (g 0) (g 1) (g 2) sValues)).
  { unfold projectSolution.
    rewrite (grevilleOrFail_Some pch lr 0 0 Hlr eq_refl),
      (grevilleOrFail_Some pch lr 1 1 Hlr eq_refl),
      (grevilleOrFail_Some pch lr 2 2 Hlr eq_refl) by lia. reflexivity. }
  split; [reflexivity|]. split; [exact Hproj|].
  intros sValues Hval Hrat Hcols. rewrite Hproj, Hval. cbn [mbind option_bind].
  apply regularInterpolation_sized; auto; subst g; cbn beta;
    now rewrite length_fmap.
Qed.

(** The loop over the basis functions counts them and keeps the shape of
    [sValues]. *)
Lemma scBasisLoop_shape (pch : patch) (lr : LRSplineVolume) (integrand : Integrand)
  (prm : scParams) (bs : list Basisfunction) (st st' : nat * Matrix) (r c : nat) :
  scBasisLoop pch lr integrand prm bs st = Some st' ->
  mat_shape r c st.2 ->
  st'.1 = st.1 + length bs /\ mat_shape r c st'.2.
Proof.
  revert st. induction bs as [|b bs IH]; intros st Hrun Hshape.
  - cbn in Hrun. injection Hrun as <-. split; [cbn; lia|exact Hshape].
  - cbn [scBasisLoop] in Hrun.
    destruct (scBasisfunction pch lr integrand prm b st) as [st1|] eqn:Hb;
      [|discriminate].
    apply IH in Hrun.
    + destruct Hrun as [Hcount Hsh]. split; [|exact Hsh].
      rewrite Hcount. cbn [length].
      rewrite (ASMu3DFacts.scBasisfunction_counter _ _ _ _ _ _ _ Hb). lia.
    + destruct st as [ip sValues]. unfold scBasisfunction in Hb.
      destruct (scLocalSystem _ _ _ _ _ _) as [[A B]|]; [|discriminate].
      destruct (denseSolve A B) as [B'|]; [|discriminate].
      injection Hb as <-. cbn [snd] in *.
      apply (for_each_invariant (mat_shape r c)); [|exact Hshape].
      intros l M _ HM. now apply LocalFitFacts.mat_shape_set.
Qed.

Lemma scSetup_greville (pch : patch) (lr : LRSplineVolume) (integrand : Integrand)
  (prm : scParams) :
  lrspline pch = Some lr ->
  scSetup pch lr integrand = Some prm ->
  gpar prm
  = ((fun b => getGrevilleParameter b !!! 0%nat) <$> getAllBasisfunctions lr,
     (fun b => getGrevilleParameter b !!! 1%nat) <$> getAllBasisfunctions lr,
     (fun b => getGrevilleParameter b !!! 2%nat) <$> getAllBasisfunctions lr)
  /\ nCmp prm = getNoFields integrand.
Proof.
  intros Hlr Hset. unfold scSetup in Hset.
  repeat match type of Hset with
         | context [match getCoord ?n with _ => _ end] =>
             destruct (getCoord n); [|discriminate]
         end.
  rewrite (grevilleOrFail_Some pch lr 0 0 Hlr eq_refl),
    (grevilleOrFail_Some pch lr 1 1 Hlr eq_refl),
    (grevilleOrFail_Some pch lr 2 2 Hlr eq_refl) in Hset by lia.
  cbn in Hset. injection Hset as <-. split; reflexivity.
Qed.

(** X11: when [scRecovery] returns a spline, the loop over the Greville
    points has run through all [nBasis] basis functions and filled an
    [nCmp] by [nBasis] matrix [sValues] ([nCmp] the number of fields of the
    integrand), the final interpolation has been solved with it, and the
    result has the basis functions and elements of the patch spline with
    [nCmp] components per control point. *)
Theorem scRecovery_result (pch : patch) (lr ans : LRSplineVolume)
  (integrand : Integrand) :
  lrspline pch = Some lr ->
  scRecovery pch integrand = Some ans ->
  exists prm sValues B',
    scSetup pch lr integrand = Some prm
    /\ scBasisLoop pch lr integrand prm (getAllBasisfunctions lr)
                   (0, mzero (getNoFields integrand) (nBasisFunctions lr))
       = Some (nBasisFunctions lr, sValues)
    /\ mat_shape (getNoFields integrand) (nBasisFunctions lr) sValues
    /\ sparseSolve (interpolationMatrix lr (gpar prm).1.1 (gpar prm).1.2 (gpar prm).2)
                   (elem (transposed sValues)) = Some B'
    /\ ans = withControlPoints (getNoFields integrand) (controlPoints ans) lr
    /\ length (controlPoints ans) = nBasisFunctions lr * getNoFields integrand.
Proof.
  intros Hlr Hrun. unfold scRecovery in Hrun. rewrite Hlr in Hrun.
  destruct (scSetup pch lr integrand) as [prm|] eqn:Hset; [|discriminate].
  cbn [mbind option_bind] in Hrun.
  destruct (scSetup_greville _ _ _ _ Hlr Hset) as [Hg Hn].
  assert (Hlen : length (gpar prm).1.1 = nBasisFunctions lr).
  { rewrite Hg. cbn [fst]. now rewrite length_fmap. }
  rewrite Hlen, Hn in Hrun.
  destruct (scBasisLoop _ _ _ _ _ _) as [[ip sValues]|] eqn:Hloop; [|discriminate].
  cbn [mbind option_bind snd] in Hrun.
  destruct (scBasisLoop_shape _ _ _ _ _ _ _ (getNoFields integrand)
              (nBasisFunctions lr) Hloop) as [Hcount Hshape];
    [apply LocalFitFacts.mzero_shape|].
  cbn [fst snd] in Hcount, Hshape.
  assert (ip = nBasisFunctions lr) as -> by (unfold nBasisFunctions; lia).
  destruct (regularInterpolation_Some _ _ _ _ _ _ _ Hlr Hrun)
    as (_ & _ & B' & Hsolve & ->).
  destruct Hshape as (Hrows & Hcols & Hel).
  exists prm, sValues, B'. unfold withControlPoints. cbn [controlPoints].
  rewrite Hrows.
  split; [reflexivity|]. split; [assumption|].
  split; [repeat split; assumption|]. split; [assumption|].
  split; [reflexivity|].
  exact (interleave_length B' (nBasisFunctions lr) (getNoFields integrand)
           (cols sValues)).
Qed.

Lemma sp_at_set (i j : Z) (v : float) (A : SparseMatrix) (i' j' : Z) :
  sp_at (sp_set_at i j v A) i' j'
  = if decide ((i, j) = (i', j')) then v else sp_at A i' j'.
Proof.
  unfold sp_at, sp_set_at. cbn [sp_elem]. rewrite lookup_insert.
  now destruct (decide ((i, j) = (i', j'))).
Qed.

Lemma interpolationRow_other_rows (lr : LRSplineVolume) (upar vpar wpar : RealArray)
  (i : nat) (A : SparseMatrix) (r c : Z) :
  r <> (Z.of_nat i + 1)%Z ->
  sp_at (interpolationRow lr upar vpar wpar i A) r c = sp_at A r c.
Proof.
  intros Hr. unfold interpolationRow.
  apply (for_each_invariant (fun A' => sp_at A' r c = sp_at A r c)); [|reflexivity].
  intros [k fid] A' _ HA'. rewrite sp_at_set.
  rewrite decide_False; [exact HA'|]. intros Heq. injection Heq as Heq _. lia.
Qed.

Lemma interpolationRow_shape (lr : LRSplineVolume) (upar vpar wpar : RealArray)
  (i : nat) (A : SparseMatrix) :
  sp_rows (interpolationRow lr upar vpar wpar i A) = sp_rows A
  /\ sp_cols (interpolationRow lr upar vpar wpar i A) = sp_cols A.
Proof.
  unfold interpolationRow.
  apply (for_each_invariant
           (fun A' => sp_rows A' = sp_rows A /\ sp_cols A' = sp_cols A)); [|auto].
  intros [k fid] A' _ HA'. exact HA'.
Qed.

Lemma set_row_miss (row : Z) (N : RealArray) (sup : list nat) (A : SparseMatrix) (c : Z) :
  (forall fid, fid ∈ sup -> c <> (Z.of_nat fid + 1)%Z) ->
  sp_at (for_each (imap pair sup)
           (fun '(k, fid) => sp_set_at row (Z.of_nat fid + 1) (N !!! k)) A) row c
  = sp_at A row c.
Proof.
  intros Hc.
  apply (for_each_invariant (fun A' => sp_at A' row c = sp_at A row c));
    [|reflexivity].
  intros [k fid] A' Hin HA'. rewrite sp_at_set.
  rewrite decide_False; [exact HA'|]. intros Heq. injection Heq as Heq.
  apply elem_of_lookup_imap in Hin as (k' & fid' & Hpair & Hlook).
  injection Hpair as Hk Hf. subst k' fid'. apply (Hc fid); [|lia].
  now apply list_elem_of_lookup_2 with k.
Qed.

Lemma set_row_hit (row : Z) (N : RealArray) (sup : list nat) (A : SparseMatrix)
  (k fid : nat) :
  NoDup sup -> sup !! k = Some fid ->
  sp_at (for_each (imap pair sup)
           (fun '(k, fid) => sp_set_at row (Z.of_nat fid + 1) (N !!! k)) A)
        row (Z.of_nat fid + 1)
  = N !!! k.
Proof.
  revert k fid. induction sup as [|x sup IH] using rev_ind; intros k fid Hnd Hk;
    [discriminate|].
  rewrite imap_app, ASMu3DFacts.for_each_app. cbn [imap].
  rewrite ASMu3DFacts.for_each_cons. cbn [for_each foldl].
  rewrite Nat.add_0_r, sp_at_set.
  apply NoDup_app in Hnd as (Hnd & Hfresh & _).
  destruct (decide (k < length sup)) as [Hlt|Hge].
  - rewrite lookup_app_l in Hk by assumption.
    rewrite decide_False; [now apply IH|].
    intros Heq. injection Heq as Heq. assert (x = fid) as -> by lia.
    apply (Hfresh fid); [now apply list_elem_of_lookup_2 with k|now left].
  - rewrite lookup_app_r in Hk by lia.
    destruct (k - length sup) as [|d] eqn:Hd; [|discriminate].
    cbn in Hk. injection Hk as ->.
    rewrite decide_True by reflexivity. f_equal. lia.
Qed.

Lemma rows_keep_row (lr : LRSplineVolume) (upar vpar wpar : RealArray)
  (l : list nat) (A : SparseMatrix) (r c : Z) :
  (forall i, i ∈ l -> r <> (Z.of_nat i + 1)%Z) ->
  sp_at (for_each l (interpolationRow lr upar vpar wpar) A) r c = sp_at A r c.
Proof.
  intros Hl.
  apply (for_each_invariant (fun A' => sp_at A' r c = sp_at A r c)); [|reflexivity].
  intros i A' Hi HA'. rewrite interpolationRow_other_rows; [exact HA'|now apply Hl].
Qed.

(** X12: row [i+1] of the interpolation matrix of [regularInterpolation]
    belongs to the [i]-th point: in the column of each basis function
    with support on the element containing the point it holds the value
    of that function there, and it is zero in all other columns.  The
    matrix has [nBasis] rows and columns, and nothing is stored outside
    rows [1..nBasis].  (The functions listed for the element are
    distinct.) *)
Theorem interpolationMatrix_rows (lr : LRSplineVolume) (upar vpar wpar : RealArray)
  (i : nat) :
  i < nBasisFunctions lr ->
  let iel := getElementContaining lr (upar !!! i) (vpar !!! i) (wpar !!! i) in
  let sup := support (getElement lr iel) in
  let N := computeBasis lr (upar !!! i) (vpar !!! i) (wpar !!! i) iel in
  let A := interpolationMatrix lr upar vpar wpar in
  NoDup sup ->
  (forall k fid, sup !! k = Some fid ->
     sp_at A (Z.of_nat i + 1) (Z.of_nat fid + 1) = N !!! k)
  /\ (forall c, (forall fid, fid ∈ sup -> c <> (Z.of_nat fid + 1)%Z) ->
        sp_at A (Z.of_nat i + 1) c = 0%float)
  /\ (forall r c, (r <= 0 \/ Z.of_nat (nBasisFunctions lr) < r)%Z ->
        sp_at A r c = 0%float)
  /\ sp_rows A = nBasisFunctions lr /\ sp_cols A = nBasisFunctions lr.
Proof.
  intros Hi iel sup N A Hnd.
  assert (Hsplit : seq 0 (nBasisFunctions lr)
                   = seq 0 i ++ [i] ++ seq (S i) (nBasisFunctions lr - S i)).
  { replace (nBasisFunctions lr) with (i + (1 + (nBasisFunctions lr - S i))) at 1
      by lia.
    rewrite seq_app, seq_app. cbn [seq Nat.add].
    now replace (i + 1) with (S i) by lia. }
  assert (Hrow : forall c,
    sp_at A (Z.of_nat i + 1) c
    = sp_at (interpolationRow lr upar vpar wpar i
               (for_each (seq 0 i) (interpolationRow lr upar vpar wpar)
                  (sp_resize (nBasisFunctions lr) (nBasisFunctions lr))))
            (Z.of_nat i + 1) c).
  { intros c. subst A. unfold interpolationMatrix.
    rewrite Hsplit, !ASMu3DFacts.for_each_app.
    rewrite rows_keep_row.
    - reflexivity.
    - intros i' Hi'%elem_of_seq. lia. }
  split; [|split; [|split]].
  - intros k fid Hk. rewrite Hrow.
    exact (set_row_hit _ N sup _ k fid Hnd Hk).
  - intros c Hc. rewrite Hrow.
    etrans; [exact (set_row_miss _ N sup _ c Hc)|].
    rewrite rows_keep_row; [reflexivity|].
    intros i' Hi'%elem_of_seq. lia.
  - intros r c Hr. subst A. unfold interpolationMatrix.
    rewrite rows_keep_row; [reflexivity|].
    intros i' Hi'%elem_of_seq. lia.
  - subst A. unfold interpolationMatrix.
    apply (for_each_invariant
             (fun A' => sp_rows A' = nBasisFunctions lr
                        /\ sp_cols A' = nBasisFunctions lr)); [|auto].
    intros i' A' _ [HrA HcA].
    destruct (interpolationRow_shape lr upar vpar wpar i' A') as [-> ->]. auto.
Qed.

End Interpolation.

(** X12 on the single-element grid with all points at the centre: every
    basis function has the value 1/8 there. *)
Lemma interpolationMatrix_rows_witness :
  sp_at (@interpolationMatrix _ (Samples.gridKernel 1)
           (Samples.gridVolume 1 Samples.identityGeometry)
           (replicate 8 0.5%float) (replicate 8 0.5%float) (replicate 8 0.5%float))
        1 1
  = 0.125%float.
Proof.
  destruct (@interpolationMatrix_rows _ (Samples.gridKernel 1)
              (Samples.gridVolume 1 Samples.identityGeometry)
              (replicate 8 0.5%float) (replicate 8 0.5%float)
              (replicate 8 0.5%float) 0) as [H _].
  - vm_compute. lia.
  - apply (bool_decide_unpack (NoDup _)). vm_compute. exact I.
  - exact (H 0 0 eq_refl).
Defined.

(** X9 on the single-element grid: one field given at the eight vertices. *)
Lemma regularInterpolation_result_witness :
  let K := Samples.gridKernel 1 in
  let pch := Samples.gridPatch 1 Samples.identityGeometry in
  exists ans,
    @regularInterpolation _ K pch [0; 1; 0; 1; 0; 1; 0; 1]%float
      [0; 0; 1; 1; 0; 0; 1; 1]%float [0; 0; 0; 0; 1; 1; 1; 1]%float
      (mkMatrix 1 8 [0; 1; 2; 3; 4; 5; 6; 7]%float) = Some ans
    /\ dimension ans = 1 /\ length (controlPoints ans) = 8.
Proof.
  intros K pch.
  destruct (@regularInterpolation _ K pch [0; 1; 0; 1; 0; 1; 0; 1]%float
      [0; 0; 1; 1; 0; 0; 1; 1]%float [0; 0; 0; 0; 1; 1; 1; 1]%float
      (mkMatrix 1 8 [0; 1; 2; 3; 4; 5; 6; 7]%float)) as [ans|] eqn:Hrun.
  - exists ans. split; [reflexivity|].
    destruct (@regularInterpolation_result _ K pch
                (Samples.gridVolume 1 Samples.identityGeometry) ans _ _ _ _
                eq_refl Hrun) as (_ & _ & B' & _ & _ & Hdim & Hlen & _).
    split; [exact Hdim|exact Hlen].
  - exfalso. vm_compute in Hrun. discriminate.
Defined.

(** X10 on the single-element grid. *)
Lemma projectSolution_at_greville_points_witness :
  let K := Samples.gridKernel 1 in
  let pch := Samples.gridPatch 1 Samples.identityGeometry in
  @evalSolutionSpline _ K pch Samples.fluxIntegrand
  = @projectSolution _ K pch Samples.fluxIntegrand.
Proof.
  intros K pch.
  exact (proj1 (@projectSolution_at_greville_points _ K pch
                  (Samples.gridVolume 1 Samples.identityGeometry)
                  Samples.fluxIntegrand eq_refl)).
Defined.

(** X11 on the grid of two elements per direction: 27 control values of
    one component. *)
Lemma scRecovery_result_witness :
  let K := Samples.gridKernel 2 in
  let pch := Samples.gridPatch 2 Samples.identityGeometry in
  exists ans,
    @scRecovery _ K pch Samples.fluxIntegrand = Some ans
    /\ length (controlPoints ans) = 27.
Proof.
  intros K pch.
  destruct (@scRecovery _ K pch Samples.fluxIntegrand) as [ans|] eqn:Hrun.
  - exists ans. split; [reflexivity|].
    destruct (@scRecovery_result _ K pch
                (Samples.gridVolume 2 Samples.identityGeometry) ans
                Samples.fluxIntegrand eq_refl Hrun)
      as (prm & sValues & B' & _ & _ & _ & _ & _ & Hlen).
    exact Hlen.
  - exfalso. vm_compute in Hrun. discriminate.
Defined.

End InterpolationFacts.

(** ** faceL2projection *)

Module FaceFacts.
Import ASMu3D AccumulationFacts.

Lemma std_copy_overwrites (src dst : Vector) :
  length src = length dst -> std_copy src dst = src.
Proof.
  intros Hlen. unfold std_copy.
  rewrite take_ge, drop_ge by lia. apply app_nil_r.
Qed.

Lemma storeResult_blocks (m n : nat) (B : Vector) (result : Vectors) :
  Forall (fun row => length row = n) result ->
  m * n <= length B ->
  storeResult m n B result = (fun i => take n (drop (i * n) B)) <$> seq 0 m.
Proof.
  intros Hrows HB. unfold storeResult.
  apply list_eq. intros i.
  rewrite list_lookup_imap, list_lookup_fmap.
  destruct (decide (i < m)) as [Hi|Hi].
  - rewrite lookup_seq_lt by assumption. cbn.
    destruct (lookup_lt_is_Some_2 (resize m (replicate n 0%float) result) i)
      as [row Hrow]; [now rewrite length_resize|].
    rewrite Hrow. cbn. f_equal. apply std_copy_overwrites.
    rewrite length_take, length_drop.
    assert (length row = n) as ->.
    { destruct (decide (i < length result)) as [Hold|Hnew].
      - rewrite lookup_resize in Hrow by assumption.
        rewrite Forall_lookup in Hrows. exact (Hrows _ _ Hrow).
      - rewrite lookup_resize_new in Hrow by lia. injection Hrow as <-.
        apply length_replicate. }
    assert (i * n + n <= m * n) by nia. lia.
  - rewrite (proj2 (lookup_ge_None _ _)) by (rewrite length_resize; lia).
    rewrite lookup_seq_ge by lia. reflexivity.
Qed.

Lemma concat_blocks (m n : nat) (B : Vector) :
  m * n <= length B ->
  concat ((fun i => take n (drop (i * n) B)) <$> seq 0 m) = take (m * n) B.
Proof.
  induction m as [|m IH]; intros Hm; [reflexivity|].
  rewrite seq_S, fmap_app, concat_app, IH by lia. cbn [fmap list_fmap concat].
  rewrite app_nil_r, Nat.add_0_l.
  replace (S m * n) with (m * n + n) by lia.
  now rewrite take_take_drop.
Qed.

(** X13: the last step of [faceL2projection] cuts the solution vector into
    [m] rows of [n] values: row [i] of [result] is the block
    [B[i*n .. i*n+n-1]], and the rows laid end to end give back the first
    [m*n] entries of [B].  (The rows that [result] has on entry have [n]
    entries, and [B] has at least [m*n].) *)
Theorem storeResult_round_trip (m n : nat) (B : Vector) (result : Vectors) :
  Forall (fun row => length row = n) result ->
  m * n <= length B ->
  storeResult m n B result = (fun i => take n (drop (i * n) B)) <$> seq 0 m
  /\ concat (storeResult m n B result) = take (m * n) B
  /\ length (storeResult m n B result) = m
  /\ Forall (fun row => length row = n) (storeResult m n B result).
Proof.
  intros Hrows HB. rewrite storeResult_blocks by assumption.
  split; [reflexivity|]. split; [now apply concat_blocks|].
  split; [now rewrite length_fmap, length_seq|].
  apply Forall_fmap, Forall_forall. intros i Hi%elem_of_seq. cbn.
  rewrite length_take, length_drop. assert (i * n + n <= m * n) by nia. lia.
Qed.

(** X13 with two rows of three values and a [result] of three rows on
    entry. *)
Lemma storeResult_round_trip_witness :
  storeResult 2 3 [1; 2; 3; 4; 5; 6; 7]%float [[9; 9; 9]; [8; 8; 8]; [7; 7; 7]]%float
  = [[1; 2; 3]; [4; 5; 6]]%float.
Proof.
  destruct (storeResult_round_trip 2 3 [1; 2; 3; 4; 5; 6; 7]%float
              [[9; 9; 9]; [8; 8; 8]; [7; 7; 7]]%float) as [H _].
  - repeat constructor.
  - cbn. lia.
  - exact H.
Defined.

Lemma storeResult_length (m n : nat) (B : Vector) (result : Vectors) :
  length (storeResult m n B result) = m.
Proof. unfold storeResult. now rewrite length_imap, length_resize. Qed.

Section Face.
Context {Integrand : Type} `{!Collaborators Integrand}.

(** X14: [faceL2projection] leaves [result] untouched whenever it returns
    [false]; when it returns [true], the quadrature rule was found, the
    edge is one of the six faces, every face element was integrated, the
    solver succeeded, and [result] holds one row for each of the
    [values.dim()] components, cut from the solution. *)
Theorem faceL2projection_result (pch : patch) (face : DirichletFace)
  (values : FunctionBase) (result : Vectors) (tm : float) :
  let r := faceL2projection pch face values result tm in
  let n := length (MLGN face) in
  let m := dim values in
  (r.1 = false -> r.2 = result)
  /\ (r.1 = true ->
      length r.2 = m
      /\ exists lr xg wg faceDir A B B',
           lrspline pch = Some lr
           /\ getCoord (nGauss pch) = Some xg /\ getWeight (nGauss pch) = Some wg
           /\ faceDirOf (edg face) = Some faceDir
           /\ faceElements pch lr face values tm faceDir xg wg (MLGE face) 0
                           (sp_resize n n, replicate (n * m) 0%float) = Some (A, B)
           /\ sparseSolve A B = Some B'
           /\ r.2 = storeResult m n B' result).
Proof.
  intros r n m. subst r. unfold faceL2projection. fold n m.
  destruct (lrspline pch) as [lr|]; [|split; [reflexivity|discriminate]].
  destruct (getCoord (nGauss pch)) as [xg|]; [|split; [reflexivity|discriminate]].
  destruct (getWeight (nGauss pch)) as [wg|]; [|split; [reflexivity|discriminate]].
  destruct (faceDirOf (edg face)) as [faceDir|]; [|split; [reflexivity|discriminate]].
  destruct (faceElements _ _ _ _ _ _ _ _ _ _ _) as [[A B]|] eqn:Hel;
    [|split; [reflexivity|discriminate]].
  destruct (sparseSolve A B) as [B'|] eqn:Hsolve;
    [|split; [reflexivity|discriminate]].
  cbn [fst snd]. split; [discriminate|]. intros _.
  split; [apply storeResult_length|].
  exists lr, xg, wg, faceDir, A, B, B'. auto 10.
Qed.

(** X15: the integration points of [faceL2projection] lie on the face.  For
    a face with normal direction [d] the parameter in direction [d] is
    [startparam(d)] on the faces WEST, SOUTH and BOTTOM and [endparam(d)]
    on EAST, NORTH and TOP, for every integration point; the two other
    parameters are the Gauss point parameters number [i] and [j] of the
    element, in the order of the directions.  The tangent directions [t1]
    and [t2] are the two directions other than [d].  (Each direction has
    more than [i] and [j] Gauss points.) *)
Theorem face_points_lie_on_face (pch : patch) (lr : LRSplineVolume)
  (e : parameterEdge) (faceDir iel : Z) (xg : RealArray) (i j : nat) :
  faceDirOf e = Some faceDir ->
  (forall d, d < 3 ->
     i < length (getGaussPointParameters pch d (nGauss pch) iel xg)
     /\ j < length (getGaussPointParameters pch d (nGauss pch) iel xg)) ->
  let G d := getGaussPointParameters pch d (nGauss pch) iel xg in
  let gp d := faceGaussParameters pch lr faceDir iel xg d in
  let d := Z.to_nat (Z.abs faceDir - 1) in
  let bound := if (faceDir <? 0)%Z then startparam lr d else endparam lr d in
  let k := faceIndices faceDir i j in
  [faceParameter (gp 0) k.1.1; faceParameter (gp 1) k.1.2; faceParameter (gp 2) k.2]
  = <[d := bound]> [G 0 !!! k.1.1; G 1 !!! k.1.2; G 2 !!! k.2]
  /\ d < 3
  /\ [k.1.1; k.1.2; k.2] = take d [i; j] ++ 0 :: drop d [i; j]
  /\ (let t := faceTangents faceDir in
      (1 <= t.1 <= 3)%Z /\ (1 <= t.2 <= 3)%Z
      /\ t.1 <> Z.abs faceDir /\ t.2 <> Z.abs faceDir /\ t.1 <> t.2).
Proof.
  intros He Hlen G gp d bound k. subst G gp d bound k.
  assert (Hpar : forall d' kk, d' < 3 -> (kk = i \/ kk = j) ->
            faceParameter (getGaussPointParameters pch d' (nGauss pch) iel xg) kk
            = getGaussPointParameters pch d' (nGauss pch) iel xg !!! kk).
  { intros d' kk Hd' Hkk. unfold faceParameter, vec_at.
    destruct (Hlen d' Hd') as [Hi Hj].
    destruct (Nat.ltb_spec 1 (length (getGaussPointParameters pch d' (nGauss pch) iel xg)))
      as [Hgt|Hle].
    - now replace (kk + 1 - 1) with kk by lia.
    - assert (kk = 0) as -> by (destruct Hkk; subst; lia). reflexivity. }
  assert (Hone : forall x kk, faceParameter [x] kk = x) by reflexivity.
  destruct e; cbn in He; try discriminate; injection He as <-.
  all: repeat match goal with
       | |- context [faceParameter ?a ?k] =>
           progress (let a' := eval vm_compute in a in
                     let k' := eval vm_compute in k in
                     change (faceParameter a k) with (faceParameter a' k'))
       end.
  all: rewrite ?Hone, ?Hpar by (lia || auto).
  all: split; [reflexivity|]; split; [cbn; lia|]; split; [reflexivity|].
  all: vm_compute; repeat split; discriminate.
Qed.

End Face.

(** X15 on the face [v = 0] of the grid of two elements per direction: the
    second parameter of the integration points is [startparam(1) = 0]. *)
Lemma face_points_lie_on_face_witness :
  let K := Samples.gridKernel 2 in
  let pch := Samples.gridPatch 2 Samples.identityGeometry in
  let lr := Samples.gridVolume 2 Samples.identityGeometry in
  let xg := default [] (@getCoord _ K 2) in
  faceParameter (@faceGaussParameters _ K pch lr (-2) 1 xg 1) 0 = 0%float.
Proof.
  intros K pch lr xg.
  destruct (@face_points_lie_on_face _ K pch lr SOUTH (-2) 1 xg 1 0 eq_refl)
    as [Hpt _].
  - intros d Hd. vm_compute. lia.
  - apply (f_equal (fun l => l !!! 1%nat)) in Hpt. exact Hpt.
Defined.

(** X14 on the face [v = 0] of the grid of two elements per direction. *)
Lemma faceL2projection_result_witness :
  let K := Samples.gridKernel 2 in
  let pch := Samples.gridPatch 2 Samples.identityGeometry in
  length (@faceL2projection _ K pch (Samples.southFace 2) Samples.linearFunction
            [] 0%float).2 = 1.
Proof.
  intros K pch.
  destruct (@faceL2projection_result _ K pch (Samples.southFace 2)
              Samples.linearFunction [] 0%float) as [_ Hok].
  destruct Hok as [Hlen _]; [vm_compute; reflexivity|exact Hlen].
Defined.

Lemma NoDup_filter_lookup {A} (P : A -> Prop) `{forall x, Decision (P x)}
  (l : list A) (i j : nat) (x : A) :
  NoDup (filter P l) -> l !! i = Some x -> l !! j = Some x -> P x -> i = j.
Proof.
  revert i j. induction l as [|a l IH]; intros i j Hnd Hi Hj Hx; [discriminate|].
  rewrite filter_cons in Hnd.
  assert (Hnd' : NoDup (filter P l)).
  { destruct (decide (P a)); [now apply NoDup_cons in Hnd as [_ ?]|exact Hnd]. }
  assert (Hhead : forall k, l !! k = Some x -> a = x -> False).
  { intros k Hk ->. rewrite decide_True in Hnd by assumption.
    apply NoDup_cons in Hnd as [Hfresh _]. apply Hfresh.
    apply list_elem_of_filter. split; [assumption|].
    now apply list_elem_of_lookup_2 with k. }
  destruct i as [|i], j as [|j]; cbn in Hi, Hj.
  - reflexivity.
  - exfalso. injection Hi as Hi. now apply (Hhead j).
  - exfalso. injection Hj as Hj. now apply (Hhead i).
  - f_equal. now apply IH.
Qed.

Lemma for_each_filter {I S} (P : I -> Prop) `{forall i, Decision (P i)}
  (l : list I) (f : I -> S -> S) (s : S) :
  for_each l (fun i st => if decide (P i) then f i st else st) s
  = for_each (filter P l) f s.
Proof.
  revert s. induction l as [|i l IH]; intros s; [reflexivity|].
  rewrite ASMu3DFacts.for_each_cons, filter_cons.
  destruct (decide (P i)); [rewrite ASMu3DFacts.for_each_cons|]; apply IH.
Qed.

Lemma faceIntegrate_matrix (mnpc : list Z) (n m : nat) (N val : Vector)
  (dJxW : float) (st : SparseMatrix * Vector) :
  (faceIntegrate mnpc n m N val dJxW st).1
  = addAll spAdd
      (pairUpdates (onFace mnpc) (fun il => (1 + mnpc !!! il)%Z)
                   (fun il jl => (N !!! il * N !!! jl * dJxW)%float))
      st.1.
Proof.
  destruct st as [A B]. unfold faceIntegrate.
  rewrite (TensorLoopFacts.for_each_ext _ _
    (fun il '(A, B) =>
       ((fun il A => if decide (0 < 1 + mnpc !!! il)%Z then
           for_each (seq 0 (length mnpc))
             (fun jl A => if decide (0 < 1 + mnpc !!! jl)%Z
                          then spAdd ((1 + mnpc !!! il)%Z, (1 + mnpc !!! jl)%Z)
                                     (N !!! il * N !!! jl * dJxW)%float A
                          else A) A
         else A) il A,
        (fun il B => if decide (0 < 1 + mnpc !!! il)%Z then
           for_each (seq 0 m)
             (fun k => vec_add_at
                (Z.to_nat (1 + mnpc !!! il + Z.of_nat k * Z.of_nat n))
                (N !!! il * val !!! k * dJxW)%float) B
         else B) il B))).
  2:{ intros il [A' B']. cbn beta.
      destruct (Z.ltb_spec 0 (1 + mnpc !!! il)) as [Hpos|Hneg].
      - rewrite !decide_True by assumption. f_equal.
        apply TensorLoopFacts.for_each_ext. intros jl A''.
        destruct (Z.ltb_spec 0 (1 + mnpc !!! jl)).
        + now rewrite decide_True.
        + rewrite decide_False by lia. reflexivity.
      - rewrite !decide_False by lia. reflexivity. }
  rewrite for_each_pair. cbn [fst].
  rewrite (for_each_filter (fun il => (0 < 1 + mnpc !!! il)%Z)).
  fold (onFace mnpc).
  rewrite <- (double_loop_updates spAdd).
  apply TensorLoopFacts.for_each_ext. intros il A'.
  apply (for_each_filter (fun jl => (0 < 1 + mnpc !!! jl)%Z)).
Qed.

Lemma faceIntegrate_length (mnpc : list Z) (n m : nat) (N val : Vector)
  (dJxW : float) (st : SparseMatrix * Vector) :
  length (faceIntegrate mnpc n m N val dJxW st).2 = length st.2.
Proof.
  unfold faceIntegrate.
  apply (for_each_invariant
           (fun s : SparseMatrix * Vector => length s.2 = length st.2));
    [|reflexivity].
  intros il [A B] _ HB. destruct (0 <? _)%Z; [|exact HB]. cbn [snd] in *.
  apply (for_each_invariant
           (fun v : Vector => length v = length st.2)); [|exact HB].
  intros k v _ Hv. unfold vec_add_at. now rewrite length_alter.
Qed.

Lemma onFace_elem (mnpc : list Z) (il : nat) :
  il ∈ onFace mnpc -> il < length mnpc /\ (0 <= mnpc !!! il)%Z.
Proof.
  unfold onFace. rewrite list_elem_of_filter, elem_of_seq. lia.
Qed.

Lemma onFace_injective (mnpc : list Z) (i j : nat) :
  distinctFaceNodes mnpc -> i ∈ onFace mnpc -> j ∈ onFace mnpc ->
  (1 + mnpc !!! i)%Z = (1 + mnpc !!! j)%Z -> i = j.
Proof.
  intros Hd [Hi Hpi]%onFace_elem [Hj Hpj]%onFace_elem Heq.
  destruct (lookup_lt_is_Some_2 mnpc i Hi) as [a Ha].
  destruct (lookup_lt_is_Some_2 mnpc j Hj) as [b Hb].
  rewrite (list_lookup_total_correct _ _ _ Ha) in Heq, Hpi.
  rewrite (list_lookup_total_correct _ _ _ Hb) in Heq.
  assert (a = b) by lia. subst b.
  exact (NoDup_filter_lookup (fun x => (0 <= x)%Z) mnpc i j a Hd Ha Hb Hpi).
Qed.

Lemma faceIntegrate_invariant (A0 : SparseMatrix) (B0 : Vector)
  (mnpc : list Z) (n m : nat) (N val : Vector)
  (dJxW : float) (st : SparseMatrix * Vector) :
  distinctFaceNodes mnpc ->
  faceInvariant A0 B0 st ->
  faceInvariant A0 B0 (faceIntegrate mnpc n m N val dJxW st).
Proof.
  intros Hd (Hsym & Hoff & Hlen). split; [|split].
  - intros r c. rewrite faceIntegrate_matrix.
    apply (addAll_pair_symmetric spGet spAdd (fun _ => True) (fun _ => True)
             (fun _ _ _ _ => I)
             (fun k v t k' _ _ _ => ProjectionFacts.spGet_spAdd k v t k')
             _ _ _ st.1 I); auto.
    + unfold onFace. apply NoDup_filter, NoDup_seq.
    + intros a b Ha Hb. now apply onFace_injective.
    + intros a b. now rewrite (FloatFacts.mul_comm (N !!! a)).
    + intros a b _. apply Hsym.
  - intros r c Hrc. rewrite <- Hoff by assumption. rewrite faceIntegrate_matrix.
    apply (addAll_miss spGet spAdd (fun _ => True) (fun _ => True)
             (fun _ _ _ _ => I)
             (fun k v t k' _ _ _ => ProjectionFacts.spGet_spAdd k v t k')
             _ st.1 (r, c) I); auto.
    + apply Forall_forall. auto.
    + rewrite pairUpdates_keys. intros (ii & jj & Hii & Hjj & Heq).
      injection Heq as -> ->.
      apply onFace_elem in Hii as [_ Hii]. apply onFace_elem in Hjj as [_ Hjj]. lia.
  - now rewrite faceIntegrate_length.
Qed.

Section FaceSystem.
Context {Integrand : Type} `{!Collaborators Integrand}.

Lemma faceGaussPoint_invariant (A0 : SparseMatrix) (B0 : Vector)
  (pch : patch) (face : DirichletFace) (values : FunctionBase) (tm : float)
  (ie : nat) (iel faceDir : Z) (dA : float) (Xnod : Matrix) (wg : RealArray)
  (gpar : RealArray3) (ij : nat * nat) (st : SparseMatrix * Vector) :
  Forall distinctFaceNodes (faceMNPC face) ->
  faceInvariant A0 B0 st ->
  faceInvariant A0 B0
    (faceGaussPoint pch face values tm ie iel faceDir dA Xnod wg gpar ij st).
Proof.
  intros Hrows Hinv. destruct ij as [i j]. unfold faceGaussPoint.
  destruct (faceIndices faceDir i j) as [[k1 k2] k3].
  destruct (evaluateBasis _ _ _ _ _) as [N dNdu].
  destruct (_ =? _)%float; [exact Hinv|].
  apply faceIntegrate_invariant; [|exact Hinv].
  destruct (faceMNPC face !! ie) as [row|] eqn:Hrow.
  - rewrite (list_lookup_total_correct _ _ _ Hrow).
    rewrite Forall_lookup in Hrows. exact (Hrows _ _ Hrow).
  - rewrite list_lookup_total_alt, Hrow. apply NoDup_nil_2.
Qed.

Lemma faceElements_invariant (A0 : SparseMatrix) (B0 : Vector)
  (pch : patch) (lr : LRSplineVolume) (face : DirichletFace)
  (values : FunctionBase) (tm : float) (faceDir : Z) (xg wg : RealArray)
  (mlge : list Z) (ie : nat) (st st' : SparseMatrix * Vector) :
  Forall distinctFaceNodes (faceMNPC face) ->
  faceInvariant A0 B0 st ->
  faceElements pch lr face values tm faceDir xg wg mlge ie st = Some st' ->
  faceInvariant A0 B0 st'.
Proof.
  intros Hrows. revert ie st. induction mlge as [|e mlge IH]; intros ie st Hinv Hrun.
  - cbn in Hrun. now injection Hrun as <-.
  - cbn [faceElements] in Hrun.
    destruct (_ <? _)%float; [discriminate|].
    destruct (getElementCoordinates _ _) as [Xnod|]; [|discriminate].
    apply IH in Hrun; [exact Hrun|].
    apply (for_each_invariant (faceInvariant A0 B0));
      [|exact Hinv].
    intros ij s _. now apply faceGaussPoint_invariant.
Qed.

(** X16: the system that [faceL2projection] hands to the solver has a
    symmetric matrix, [A(r,c) = A(c,r)] exactly, nothing is stored in a row
    or column that is not positive (the element nodes off the face, marked
    by [-1] in the connectivity, contribute nothing), and the right-hand
    side keeps its [n*m] entries.  (The nodes on the face of each face
    element are distinct.) *)
Theorem face_system_is_symmetric (pch : patch) (lr : LRSplineVolume)
  (face : DirichletFace) (values : FunctionBase) (tm : float) (faceDir : Z)
  (xg wg : RealArray) (A : SparseMatrix) (B : Vector) :
  Forall distinctFaceNodes (faceMNPC face) ->
  let n := length (MLGN face) in
  let m := dim values in
  faceElements pch lr face values tm faceDir xg wg (MLGE face) 0
               (sp_resize n n, replicate (n * m) 0%float) = Some (A, B) ->
  sp_symmetric A
  /\ (forall r c : Z, (r <= 0 \/ c <= 0)%Z -> sp_at A r c = 0%float)
  /\ length B = n * m.
Proof.
  intros Hrows n m Hrun.
  apply (faceElements_invariant (sp_resize n n) (replicate (n * m) 0%float))
    in Hrun; [|exact Hrows|].
  - destruct Hrun as (Hsym & Hoff & Hlen). cbn [fst snd] in *.
    split; [exact Hsym|]. split.
    + intros r c Hrc. now rewrite Hoff.
    + now rewrite Hlen, length_replicate.
  - split; [|split]; [intros r c; reflexivity|reflexivity|reflexivity].
Qed.

End FaceSystem.

(** X16 on the face [v = 0] of the grid of two elements per direction (nine
    face nodes). *)
Lemma face_system_is_symmetric_witness :
  let K := Samples.gridKernel 2 in
  let pch := Samples.gridPatch 2 Samples.identityGeometry in
  let lr := Samples.gridVolume 2 Samples.identityGeometry in
  exists A B,
    @faceElements _ K pch lr (Samples.southFace 2) Samples.linearFunction 0%float
       (-2) (default [] (@getCoord _ K 2)) (default [] (@getWeight _ K 2))
       (MLGE (Samples.southFace 2)) 0
       (sp_resize 9 9, replicate 9 0%float) = Some (A, B)
    /\ sp_symmetric A.
Proof.
  intros K pch lr. eexists _, _. split; [vm_compute; reflexivity|].
  eapply (@face_system_is_symmetric _ K pch lr (Samples.southFace 2)
            Samples.linearFunction 0%float (-2)
            (default [] (@getCoord _ K 2)) (default [] (@getWeight _ K 2))).
  - apply (bool_decide_unpack (Forall distinctFaceNodes _)). vm_compute. exact I.
  - vm_compute. reflexivity.
Defined.

End FaceFacts.

(** ** Sign and magnitude of a [double] *)

Module FloatSignFacts.

Lemma abs_opp (x : float) : PrimFloat.abs (- x) = PrimFloat.abs x.
Proof.
  apply Prim2SF_inj. rewrite !abs_spec, opp_spec.
  now destruct (Prim2SF x) as [[]| [] | |[] ? ?].
Qed.

Lemma not_both_negative (x : float) : (x <? 0)%float && (- x <? 0)%float = false.
Proof.
  rewrite !ltb_spec, opp_spec.
  change (Prim2SF 0) with (S754_zero false).
  now destruct (Prim2SF x) as [[]| [] | |[] ? ?].
Qed.

End FloatSignFacts.

(** ** NewmarkMats.C: what the methods change *)

Module NewmarkMatsMore.
Import NewmarkMats.

Lemma withMatrices_same (m : t) : withMatrices (A m) m = m.
Proof. now destruct m. Qed.

Lemma withRHS_same (m : t) : withRHS (b m) m = m.
Proof. now destruct m. Qed.

(** X17: [getNewtonMatrix] can be called again: it rebuilds [A[0]] from the
    mass and the stiffness matrix, which it leaves alone, so a second call
    returns the same matrix and leaves the same object.  Only [A[0]]
    changes.  (There are at least the three matrices.) *)
Theorem getNewtonMatrix_repeatable (m : t) :
  3 <= length (A m) ->
  let r := getNewtonMatrix m in
  getNewtonMatrix r.2 = r
  /\ r.2 = withMatrices (<[0%nat := r.1]> (A m)) m
  /\ length (A r.2) = length (A m)
  /\ (forall i, i <> 0%nat -> A r.2 !! i = A m !! i).
Proof.
  intros Hlen r. subst r. unfold getNewtonMatrix. cbn [fst snd].
  set (N := if slvDisp m then _ else _).
  assert (H0 : <[0%nat := N]> (A m) !!! 0%nat = N).
  { apply list_lookup_total_insert_eq. lia. }
  rewrite H0. cbn [A alpha_m alpha_f alpha1 alpha2 gamma beta h slvDisp withMatrices].
  rewrite (list_lookup_total_insert_ne _ 0 1), (list_lookup_total_insert_ne _ 0 2) by lia. fold N.
  rewrite list_insert_insert_eq. rewrite H0.
  repeat split.
  - apply length_insert.
  - intros i Hi. now apply list_lookup_insert_ne.
Qed.

(** X17 on the two by two element of the sample data. *)
Lemma getNewtonMatrix_repeatable_witness :
  let m := setStepSize 0.5%float
             (withMatrices [emptyMatrix; Samples.sampleMass; Samples.sampleStiffness]
                           (NewmarkMats 0.0 0.0 (-0.25) 0.5 false)%float) in
  getNewtonMatrix (getNewtonMatrix m).2 = getNewtonMatrix m.
Proof.
  intros m.
  apply (getNewtonMatrix_repeatable m). cbn. lia.
Defined.

Lemma insert_first_length (dF : Vector) (l : Vectors) :
  length dF = length (l !!! 0%nat) ->
  length (<[0%nat := dF]> l !!! 0%nat) = length (l !!! 0%nat).
Proof.
  intros HdF. destruct l as [|x l]; [reflexivity|]. exact HdF.
Qed.

(** X18: [getRHSVector] returns [b[0]] and changes nothing but [b[0]], whose
    size it keeps; with no element matrices, or with fewer than three
    element solution vectors, it changes nothing at all. *)
Theorem getRHSVector_changes_first_rhs_only (m : t) :
  let r := getRHSVector m in
  r.2 = withRHS (b r.2) m
  /\ r.1 = b r.2 !!! 0%nat
  /\ length (b r.2) = length (b m)
  /\ length r.1 = length (b m !!! 0%nat)
  /\ (forall i, i <> 0%nat -> b r.2 !! i = b m !! i)
  /\ (A m = [] \/ length (vec m) <= 2 -> r = (b m !!! 0%nat, m)).
Proof.
  intros r. subst r. unfold getRHSVector.
  destruct (negb (bool_decide (A m = [])) && (2 <? length (vec m))%nat) eqn:Hg.
  - cbn [fst snd b withRHS].
    set (dF := if (0 <? alpha2 m)%float then _ else _).
    assert (HdF : length dF = length (b m !!! 0%nat)).
    { subst dF. repeat match goal with
        | |- context [if ?c then _ else _] => destruct c
        end; now rewrite ?LinAlgFacts.length_vadd. }
    split; [reflexivity|]. split; [reflexivity|].
    split; [apply length_insert|].
    split; [now apply insert_first_length|].
    split.
    + intros i Hi. now apply list_lookup_insert_ne.
    + intros [HA|Hv]; exfalso.
      * rewrite HA in Hg. discriminate.
      * apply andb_true_iff in Hg as [_ Hg]. apply Nat.ltb_lt in Hg. lia.
  - cbn [fst snd]. rewrite withRHS_same. repeat split; auto.
Qed.

(** X19: the constructor reads the argument [b] twice: its magnitude gives
    [beta] (or [alpha_m]), its sign gives [slvDisp].  Negating [b] changes
    [slvDisp] at most, and [slvDisp] is never set for both [b] and [-b]. *)
Theorem constructor_reads_sign_of_b (a1 a2 b0 c : float) (generalizedAlpha : bool) :
  let m := NewmarkMats a1 a2 b0 c generalizedAlpha in
  NewmarkMats a1 a2 (- b0) c generalizedAlpha
  = mk (A m) (b m) (vec m) (alpha1 m) (alpha2 m) (beta m) (gamma m)
       (alpha_m m) (alpha_f m) (- b0 <? 0)%float (isPredictor m) (h m)
  /\ slvDisp m = (b0 <? 0)%float
  /\ (b0 <? 0)%float && (- b0 <? 0)%float = false.
Proof.
  split; [|split].
  - destruct generalizedAlpha; cbn; now rewrite ?FloatSignFacts.abs_opp.
  - now destruct generalizedAlpha.
  - apply FloatSignFacts.not_both_negative.
Qed.

(** X18 on an element without solution vectors: nothing changes. *)
Lemma getRHSVector_changes_first_rhs_only_witness :
  let m := NewmarkMats.withRHS [[1; 2]]%float
             (NewmarkMats.withMatrices
                [emptyMatrix; Samples.sampleMass; Samples.sampleStiffness]
                (NewmarkMats.NewmarkMats 0 0 (-0.25) 0.5 false)%float) in
  NewmarkMats.getRHSVector m = ([1; 2]%float, m).
Proof.
  intros m.
  destruct (getRHSVector_changes_first_rhs_only m)
    as (_ & _ & _ & _ & _ & H).
  apply H. right. cbn. lia.
Defined.

End NewmarkMatsMore.

(** ** NewmarkNLSIM.C: set-up, sizes and the corrector *)

Module NewmarkNLSIMMore.
Import NewmarkNLSIM.

Section Steps.
Context {SIMbase : Type} `{!Driver SIMbase}.
Implicit Types (s : state SIMbase) (param : TimeStep) (sol : Vectors).

Lemma std_copy_length (src dst : Vector) :
  length src = length dst -> length (std_copy src dst) = length dst.
Proof.
  intros Hlen. unfold std_copy.
  rewrite length_app, length_take, length_drop. lia.
Qed.

Lemma shiftHistory_sized (k n : nat) sol :
  Forall (fun v => length v = n) sol ->
  Forall (fun v => length v = n) (shiftHistory k sol).
Proof.
  revert sol. induction k as [|k IH]; intros sol Hsol; [exact Hsol|].
  cbn [shiftHistory]. apply IH.
  destruct (decide (S k < length sol)) as [Hlt|Hge].
  - apply Forall_insert; [exact Hsol|].
    destruct (lookup_lt_is_Some_2 sol k) as [src Hsrc]; [lia|].
    destruct (lookup_lt_is_Some_2 sol (S k)) as [dst Hdst]; [lia|].
    rewrite (list_lookup_total_correct _ _ _ Hsrc).
    rewrite (list_lookup_total_correct _ _ _ Hdst).
    rewrite Forall_lookup in Hsol.
    pose proof (Hsol _ _ Hsrc) as H1. pose proof (Hsol _ _ Hdst) as H2.
    cbn in H1, H2. rewrite std_copy_length; congruence.
  - now rewrite list_insert_ge by lia.
Qed.

Lemma sized_lookup_total (n i : nat) sol :
  i < length sol -> Forall (fun v => length v = n) sol -> length (sol !!! i) = n.
Proof.
  intros Hi Hsol. destruct (lookup_lt_is_Some_2 sol i Hi) as [v Hv].
  rewrite (list_lookup_total_correct _ _ _ Hv).
  rewrite Forall_lookup in Hsol. exact (Hsol _ _ Hv).
Qed.

(** X20: [predictStep], [correctStep] and [advanceStep] keep the number of
    vectors in the solution history, and when all history vectors,
    [incDis], [predVel] and [predAcc] have [n] entries (as [init] makes
    them), they still have afterwards. *)
Theorem step_methods_keep_sizes s param (flag : bool) (n : nat) :
  sized n s ->
  (sized n (predictStep s param).2
   /\ length (solution (predictStep s param).2) = length (solution s))
  /\ (sized n (correctStep s param flag).2
      /\ length (solution (correctStep s param flag).2) = length (solution s))
  /\ (sized n (advanceStep s param flag).1.2
      /\ length (solution (advanceStep s param flag).1.2) = length (solution s)).
Proof.
  intros (Hsol & Hinc & Hvel & Hacc). split; [|split].
  - unfold predictStep.
    destruct (Nat.ltb_spec (length (solution s)) 3) as [Hlt|Hge];
      [now repeat split|].
    cbn [snd]. unfold sized.
    cbn [solution incDis predVel predAcc].
    rewrite !length_insert.
    unfold vfill. rewrite !length_fmap.
    rewrite !LinAlgFacts.length_vscale, !LinAlgFacts.length_vadd,
      !LinAlgFacts.length_vscale.
    rewrite !(sized_lookup_total n) by (assumption || lia).
    repeat split; try assumption.
    apply Forall_insert; [apply Forall_insert; [assumption|]|].
    + now rewrite LinAlgFacts.length_vadd, LinAlgFacts.length_vscale,
        (sized_lookup_total n) by (assumption || lia).
    + now rewrite LinAlgFacts.length_vadd, LinAlgFacts.length_vscale,
        (sized_lookup_total n) by (assumption || lia).
  - unfold correctStep.
    destruct (Nat.ltb_spec (length (solution s)) 3) as [Hlt|Hge];
      [now repeat split|].
    destruct (updateConfiguration _ _) as [ok model'].
    cbn [snd]. unfold sized. cbn [solution incDis predVel predAcc].
    rewrite !length_insert, !LinAlgFacts.length_vadd.
    repeat split; try assumption.
    repeat apply Forall_insert; try assumption;
      rewrite LinAlgFacts.length_vadd; try assumption.
    apply (sized_lookup_total n); [lia|assumption].
  - assert (Hadv : (advanceStep s param flag).1.2
                   = withHistory (shiftHistory
                       (Z.to_nat (to_int (size_t_sub (Z.of_nat (length (solution s))) 3)))
                       (solution s)) s).
    { unfold advanceStep. destruct flag; [destruct (increment param)|]; reflexivity. }
    rewrite Hadv. unfold sized. cbn [withHistory solution incDis predVel predAcc].
    rewrite NewmarkNLSIMFacts.shiftHistory_length.
    repeat split; try assumption. now apply shiftHistory_sized.
Qed.

(** X21: on a history of at least three vectors [correctStep] adds [linsol]
    to [incDis] and to the current displacement [solution[0]], sets the
    velocity to [predVel + gamma/(beta*dt) * incDis] and the acceleration
    to [predAcc + 1/(beta*dt*dt) * incDis] with the updated [incDis]
    (their previous contents in the history do not enter), leaves the
    older displacements, [predVel], [predAcc] and [linsol] alone, replaces
    [Finert] by [getRHSvector(1,true)] of the simulator when [converged] is
    set, and returns the result of [updateConfiguration] on the updated
    displacement. *)
Theorem correctStep_updates s param (converged : bool) :
  3 <= length (solution s) ->
  let h := dt (time param) in
  let iV := length (solution s) - 2 in
  let iA := length (solution s) - 1 in
  let inc := vadd (linsol s) 1 (incDis s) in
  let disp := vadd (linsol s) 1 (solution s !!! 0%nat) in
  let r := correctStep s param converged in
  incDis r.2 = inc
  /\ solution r.2 !! 0%nat = Some disp
  /\ solution r.2 !! iV = Some (vadd inc (gamma s / (beta s * h)) (predVel s))
  /\ solution r.2 !! iA = Some (vadd inc (1 / (beta s * h * h)) (predAcc s))
  /\ (forall k, 1 <= k < iV -> solution r.2 !! k = solution s !! k)
  /\ (predVel r.2 = predVel s /\ predAcc r.2 = predAcc s /\ linsol r.2 = linsol s
      /\ beta r.2 = beta s /\ gamma r.2 = gamma s)
  /\ Finert r.2 = (if converged then getRHSvector (model s) 1 true else Finert s)
  /\ (r.1, model r.2) = updateConfiguration (model s) disp.
Proof.
  intros Hlen h iV iA inc disp r. subst r. unfold correctStep.
  destruct (Nat.ltb_spec (length (solution s)) 3) as [Hlt|_]; [lia|].
  fold h iV iA inc.
  assert (Hd : <[iA:=vadd inc (1 / (beta s * h * h)) (predAcc s)]>
                 (<[iV:=vadd inc (gamma s / (beta s * h)) (predVel s)]>
                    (<[0%nat:=disp]> (solution s))) !!! 0%nat = disp).
  { rewrite !list_lookup_total_insert_ne by (subst iV iA; lia).
    apply list_lookup_total_insert_eq. lia. }
  fold disp. rewrite Hd.
  destruct (updateConfiguration (model s) disp) as [ok model'].
  cbn [fst snd solution incDis predVel predAcc linsol beta gamma Finert model].
  repeat split.
  - rewrite !list_lookup_insert_ne by (subst iV iA; lia).
    apply list_lookup_insert_eq. lia.
  - rewrite list_lookup_insert_ne by (subst iV iA; lia).
    apply list_lookup_insert_eq. rewrite length_insert. subst iV. lia.
  - apply list_lookup_insert_eq. rewrite !length_insert. subst iA. lia.
  - intros k Hk. now rewrite !list_lookup_insert_ne by (subst iV iA; lia).
Qed.

End Steps.

Section Setup.
Context {SIMbase : Type} `{!Driver SIMbase} `{!Setup SIMbase}.

(** X22: [init] sets the three integration parameters [alpha1], [alpha2] and
    [0.5 - gamma] on the simulator, and leaves a history of
    [max(nSol, getNoSolutions())] vectors of [getNoDOFs()] zeros, with
    [incDis], [predVel] and [predAcc] zero vectors of that size too.
    [predictStep] succeeds on the initialised driver exactly when the
    history has at least three vectors, and [correctStep] then returns
    what [updateConfiguration] returns. *)
Theorem init_clears_history (alpha1 alpha2 : float) (s : state SIMbase)
  (nSol : nat) (param : TimeStep) :
  let s' := init alpha1 alpha2 s nSol in
  let nDOFs := getNoDOFs (model s') in
  let nVec := nSol `max` getNoSolutions (model s') in
  model s'
  = setIntegrationPrm
      (setIntegrationPrm (setIntegrationPrm (model s) 0 alpha1) 1 alpha2)
      2 (0.5 - gamma s)%float
  /\ solution s' = replicate nVec (replicate nDOFs 0%float)
  /\ incDis s' = replicate nDOFs 0%float
  /\ predVel s' = replicate nDOFs 0%float
  /\ predAcc s' = replicate nDOFs 0%float
  /\ sized nDOFs s'
  /\ (predictStep s' param).1 = negb (nVec <? 3)%nat
  /\ (correctStep s' param true).1
     = negb (nVec <? 3)%nat
       && (updateConfiguration (model s')
             (vadd (linsol s) 1 (replicate nDOFs 0%float))).1.
Proof.
  intros s' nDOFs nVec.
  assert (Hsol : solution s' = replicate nVec (replicate nDOFs 0%float)).
  { subst s' nVec nDOFs. unfold init. cbn [solution model].
    set (m := setIntegrationPrm _ 2 _).
    set (k := if (nSol <? getNoSolutions m)%nat then _ else _).
    assert (Hk : k = nSol `max` getNoSolutions m).
    { subst k. destruct (Nat.ltb_spec nSol (getNoSolutions m)); lia. }
    rewrite <- Hk. clearbody k.
    apply list_eq. intros i. rewrite list_lookup_fmap.
    destruct (decide (i < k)) as [Hi|Hi].
    - rewrite lookup_replicate_2 by assumption.
      destruct (lookup_lt_is_Some_2 (resize k [] (solution s)) i) as [x ->];
        [now rewrite length_resize|]. reflexivity.
    - rewrite (proj2 (lookup_ge_None _ _)) by (rewrite length_resize; lia).
      symmetry. apply lookup_ge_None. rewrite length_replicate. lia. }
  split; [reflexivity|]. split; [exact Hsol|].
  split; [reflexivity|]. split; [reflexivity|]. split; [reflexivity|].
  split; [|split].
  - unfold sized. rewrite Hsol. repeat split.
    + apply Forall_replicate. apply length_replicate.
    + apply length_replicate.
    + apply length_replicate.
    + apply length_replicate.
  - unfold predictStep. rewrite Hsol, length_replicate.
    now destruct (nVec <? 3)%nat.
  - unfold correctStep. rewrite Hsol, length_replicate.
    destruct (Nat.ltb_spec nVec 3) as [Hlt|Hge]; [reflexivity|].
    rewrite !list_lookup_total_insert_ne by lia.
    rewrite list_lookup_total_insert_eq by (rewrite length_replicate; lia).
    rewrite lookup_total_replicate_2 by lia.
    change (linsol s') with (linsol s).
    now destruct (updateConfiguration _ _).
Qed.

End Setup.

Section Parsing.
Context {SIMbase : Type} `{!Parser SIMbase}.

(** X23: [parse] of a [newmarksolver] element (in any letter case) without
    an [alpha] attribute returns what the parser of the base class returns
    and sets [gamma = 0.5 - (-0.1)], which is the constructor's [0.6], and
    [beta = 0.25*(1.0-(-0.1))*(1.0-(-0.1))], which in binary64 arithmetic is
    0.30250000000000005: one unit in the last place above the
    constructor's [0.3025]. *)
Theorem parse_default_alpha (elem : TiXmlElement) (s : state SIMbase) (sim : SIMbase) :
  strcasecmp (Value elem) "newmarksolver" = false ->
  Attribute elem "alpha" = None ->
  let r := parse elem s in
  r.1 = (NewmarkSIM_parse elem s).1
  /\ gamma r.2 = gamma (NewmarkNLSIM sim)
  /\ beta r.2 = 0.30250000000000005%float
  /\ beta (NewmarkNLSIM sim) = 0.3025%float
  /\ (beta (NewmarkNLSIM sim) <? beta r.2)%float = true.
Proof.
  intros Hname Hattr r. subst r. unfold parse.
  destruct (NewmarkSIM_parse elem s) as [ok s'].
  rewrite Hname, Hattr. cbn [negb fst snd gamma beta NewmarkNLSIM].
  repeat split; vm_compute; reflexivity.
Qed.

End Parsing.

Section ShortHistory.
Context {SIMbase : Type} `{!Driver SIMbase}.

Lemma withHistory_same (s : state SIMbase) : withHistory (solution s) s = s.
Proof. now destruct s. Qed.

(** X24: with three history vectors or fewer there is no displacement to
    shift, and [advanceStep] leaves the object as it is.  For fewer than
    three, [solution.size()-3] wraps around in [size_t] and is negative
    as an [int], so the loop does not run. *)
Theorem advanceStep_short_history (s : state SIMbase) (param : TimeStep)
  (updateTime : bool) :
  length (solution s) <= 3 ->
  (advanceStep s param updateTime).1.2 = s.
Proof.
  intros Hlen.
  assert (Hadv : (advanceStep s param updateTime).1.2
                 = withHistory (shiftHistory
                     (Z.to_nat (to_int (size_t_sub (Z.of_nat (length (solution s))) 3)))
                     (solution s)) s).
  { unfold advanceStep. destruct updateTime; [destruct (increment param)|]; reflexivity. }
  rewrite Hadv, NewmarkNLSIMFacts.to_int_size_sub by lia.
  replace (length (solution s) - 3) with 0 by lia.
  apply withHistory_same.
Qed.

End ShortHistory.

(** X24 on the history of three vectors. *)
Lemma advanceStep_short_history_witness :
  (advanceStep (Samples.driverWith Samples.restHistory)
               (Samples.stepOf 0.1%float) true).1.2
  = Samples.driverWith Samples.restHistory.
Proof.
  apply (advanceStep_short_history (Samples.driverWith Samples.restHistory)).
  cbn. lia.
Defined.

Section Finalize.
Context {SIMbase : Type} `{!Driver SIMbase} `{!Setup SIMbase}.

(** X25: [finalizeRHSvector] does nothing on a driver that was constructed
    and initialised but has no converged step yet.  After a [correctStep]
    on a history of at least three vectors it adds the inertia vector that
    this step has kept, scaled by [gamma - 0.5], to right-hand side 0 of
    the simulator and changes nothing else; when the step has kept none,
    it does nothing. *)
Theorem finalizeRHSvector_after_correctStep (s : state SIMbase) (param : TimeStep)
  (converged : bool) (sim : SIMbase) (alpha1 alpha2 : float) (nSol : nat) :
  finalizeRHSvector (init alpha1 alpha2 (NewmarkNLSIM sim) nSol)
  = init alpha1 alpha2 (NewmarkNLSIM sim) nSol
  /\ (3 <= length (solution s) ->
      let r := (correctStep s param converged).2 in
      let F := if converged then getRHSvector (model s) 1 true else Finert s in
      Finert r = F
      /\ finalizeRHSvector r
         = match F with
           | Some f =>
               mk (addToRHSvector (model r) 0 f (gamma s - 0.5)%float)
                  (solution r) (linsol r) (incDis r) (predVel r) (predAcc r)
                  (Finert r) (beta r) (gamma r) (predictor r)
           | None => r
           end).
Proof.
  split; [reflexivity|].
  intros Hlen r F. subst r. unfold correctStep.
  destruct (Nat.ltb_spec (length (solution s)) 3) as [Hlt|_]; [lia|].
  destruct (updateConfiguration _ _) as [ok model'].
  cbn [snd]. unfold finalizeRHSvector. cbn [Finert gamma]. fold F.
  split; [reflexivity|]. now destruct F.
Qed.

End Finalize.

(** X25 with a simulator that keeps no right-hand side: nothing changes. *)
Lemma finalizeRHSvector_after_correctStep_witness :
  finalizeRHSvector
    (correctStep (Samples.driverWith Samples.restHistory)
                 (Samples.stepOf 0.1%float) true).2
  = (correctStep (Samples.driverWith Samples.restHistory)
                 (Samples.stepOf 0.1%float) true).2.
Proof.
  destruct (finalizeRHSvector_after_correctStep
              (Samples.driverWith Samples.restHistory)
              (Samples.stepOf 0.1%float) true tt 0%float 0%float 3) as [_ H].
  destruct H as [_ H]; [cbn; lia|exact H].
Defined.

(** X20 on the history of five vectors with two degrees of freedom. *)
Lemma step_methods_keep_sizes_witness :
  length (NewmarkNLSIM.solution
            (NewmarkNLSIM.predictStep (Samples.driverWith Samples.movingHistory)
                                      (Samples.stepOf 0.1%float)).2) = 5.
Proof.
  destruct (step_methods_keep_sizes
              (Samples.driverWith Samples.movingHistory)
              (Samples.stepOf 0.1%float) true 2) as [[_ H] _].
  - repeat constructor.
  - exact H.
Defined.

(** X21 on the history at rest: the increment [linsol] arrives in
    [incDis]. *)
Lemma correctStep_updates_witness :
  NewmarkNLSIM.incDis
    (NewmarkNLSIM.correctStep (Samples.driverWith Samples.restHistory)
                              (Samples.stepOf 0.1%float) true).2
  = [0.5; 0.25]%float.
Proof.
  destruct (correctStep_updates
              (Samples.driverWith Samples.restHistory)
              (Samples.stepOf 0.1%float) true) as [H _].
  - cbn. lia.
  - exact H.
Defined.

(** X23 for the element [<NewmarkSolver/>]. *)
Lemma parse_default_alpha_witness :
  let elem := NewmarkNLSIM.mkTiXmlElement "NewmarkSolver" (fun _ => None) in
  let r := NewmarkNLSIM.parse elem (NewmarkNLSIM.NewmarkNLSIM tt) in
  NewmarkNLSIM.gamma r.2 = 0.6%float
  /\ NewmarkNLSIM.beta r.2 = 0.30250000000000005%float.
Proof.
  intros elem r.
  destruct (parse_default_alpha elem
              (NewmarkNLSIM.NewmarkNLSIM tt) tt eq_refl eq_refl)
    as (_ & Hg & Hb & _).
  split; [exact Hg|exact Hb].
Defined.

End NewmarkNLSIMMore.
